(** * The diploid hidden Markov model of tinyhouse (DiploidHMM.py)

    A shallow embedding of the numerical kernels of [DiploidHMM.py] and the
    properties of them that the specification states.

    Conventions of the embedding.
    - A numpy array is a (nested) list together with the shape numpy reports
      for it; a read [a[j,k]] is [mget a j k], a write [a[j,k] = v] is
      [mupd a j k v].  The kernels are compiled by numba without bounds
      checks, so a read outside an array has no defined value in the source;
      the getters below answer 0 there and a write outside does nothing.
      The statements quantify over the cells inside the arrays.
    - Floating point numbers ([float32], [float64]) are idealised as exact
      rationals [Q], compared with [==].  Rounding is not modelled, and
      neither is underflow: a [float32] product of many small factors can be
      [0.0] in the source where the exact product is positive, and the
      normalisation that follows then yields [nan].  What is stated of a
      posterior is therefore stated of a pass that has a value.
    - A division of an array by a sum that is zero has no exact value (numpy
      yields [nan] or [inf]); the normalisations therefore return [option],
      with [None] for a zero divisor, and so do the passes built on them.
    - Alleles and genotypes are integers, [Z], with the codes 0, 1, 2 and 9;
      array indices are [nat].  numba widens the [int8] alleles to machine
      integers before adding them, so sums of two alleles do not wrap.
    - A [for] loop over [range(n)] is [for_range n body], a left fold of the
      loop body over [0, 1, ..., n-1] that threads the mutated arrays.
    - The kernels are total functions on arrays.  What stops a call with an
      exception (an attribute of the individual that is [None], a division
      of a scalar by zero in compiled code) is modelled at the entry point
      [diploidHMM], whose outcome is the exception raised or the individual
      written to.
    - [NumbaUtils] and [ProbMath] are other modules of the package; what is
      called from them is a parameter of the section that needs it, and is
      taken to return. *)

From Stdlib Require Import String.
From Stdlib Require Import List Arith ZArith QArith Qfield Lqa Lia Bool.
Import ListNotations.
Open Scope Q_scope.

(* ================================================================== *)
(** * Arrays *)
(* ================================================================== *)

Module Array.

Definition vector := list Q.
Definition matrix := list (list Q).
Definition tensor := list (list (list Q)).

(** In-place write [l[i] = v]. *)
Fixpoint upd {A : Type} (l : list A) (i : nat) (v : A) : list A :=
  match l, i with
  | [], _ => []
  | _ :: t, O => v :: t
  | h :: t, S i' => h :: upd t i' v
  end.

Definition vget (v : vector) (i : nat) : Q := nth i v 0.
Definition row (m : matrix) (j : nat) : vector := nth j m [].
Definition mget (m : matrix) (j k : nat) : Q := vget (row m j) k.
Definition slice (t : tensor) (i : nat) : matrix := nth i t [].
Definition tget (t : tensor) (i j k : nat) : Q := mget (slice t i) j k.

Definition mupd (m : matrix) (j k : nat) (v : Q) : matrix :=
  upd m j (upd (row m j) k v).
Definition tupd (t : tensor) (i j k : nat) (v : Q) : tensor :=
  upd t i (mupd (slice t i) j k v).

(** [a.shape] of a two- and of a three-dimensional array. *)
Definition rows (m : matrix) : nat := List.length m.
Definition cols (m : matrix) : nat := List.length (row m 0).
Definition dim0 (t : tensor) : nat := List.length t.
Definition dim1 (t : tensor) : nat := rows (slice t 0).
Definition dim2 (t : tensor) : nat := cols (slice t 0).

(** The array has the shape [(n, p)], respectively [(n, p, q)]. *)
Definition mshape (m : matrix) (n p : nat) : Prop :=
  rows m = n /\ forall j, (j < n)%nat -> List.length (row m j) = p.
Definition tshape (t : tensor) (n p q : nat) : Prop :=
  dim0 t = n /\ forall i, (i < n)%nat -> mshape (slice t i) p q.

(** Every cell of an array of the given shape is positive. *)
Definition mpositive (m : matrix) (p q : nat) : Prop :=
  mshape m p q /\ forall j k, (j < p)%nat -> (k < q)%nat -> 0 < mget m j k.
Definition tpositive (t : tensor) (n p q : nat) : Prop :=
  dim0 t = n /\ forall i, (i < n)%nat -> mpositive (slice t i) p q.

(** [np.full(shape, c)]. *)
Definition vfull (n : nat) (c : Q) : vector := repeat c n.
Definition mfull (n p : nat) (c : Q) : matrix := repeat (vfull p c) n.
Definition tfull (n p q : nat) (c : Q) : tensor := repeat (mfull p q c) n.

(** A loop over [range(n)]. *)
Definition for_range {S : Type} (n : nat) (body : nat -> S -> S) (s : S) : S :=
  fold_left (fun s i => body i s) (seq 0 n) s.

(** A loop over [range(lo, hi)]. *)
Definition for_span {S : Type} (lo hi : nat) (body : nat -> S -> S) (s : S) : S :=
  fold_left (fun s i => body i s) (seq lo (hi - lo)) s.

(** A loop over [range(n-1, -1, -1)]. *)
Definition for_range_down {S : Type} (n : nat) (body : nat -> S -> S) (s : S) : S :=
  fold_left (fun s i => body i s) (rev (seq 0 n)) s.

(** The array whose cell [(j,k)] is [f j k]: a double loop that assigns
    every cell of an [n] by [p] array once. *)
Definition mtab (n p : nat) (f : nat -> nat -> Q) : matrix :=
  map (fun j => map (fun k => f j k) (seq 0 p)) (seq 0 n).

(** Sums: [sum_upto n f] is [f 0 + ... + f (n-1)]. *)
Fixpoint sum_upto (n : nat) (f : nat -> Q) : Q :=
  match n with
  | O => 0
  | S n' => sum_upto n' f + f n'
  end.

Definition grid_sum (n p : nat) (f : nat -> nat -> Q) : Q :=
  sum_upto n (fun j => sum_upto p (fun k => f j k)).

(** [np.sum] of a matrix and of a three-dimensional array (every axis). *)
Definition msum (m : matrix) : Q := grid_sum (rows m) (cols m) (mget m).
Definition tsum (t : tensor) : Q :=
  sum_upto (dim0 t) (fun i => grid_sum (dim1 t) (dim2 t) (tget t i)).

(** Elementwise product [a * b] and division by a scalar [a / s], on the
    shape of [a]. *)
Definition mmul (a b : matrix) : matrix :=
  mtab (rows a) (cols a) (fun j k => mget a j k * mget b j k).
Definition mdiv (a : matrix) (s : Q) : matrix :=
  mtab (rows a) (cols a) (fun j k => mget a j k / s).

(** [a /= s]: no exact value when [s] is zero. *)
Definition mdiv_checked (a : matrix) (s : Q) : option matrix :=
  if Qeq_bool s 0 then None else Some (mdiv a s).

(** [a *= b] on three-dimensional arrays, slice by slice. *)
Definition tmul (a b : tensor) : tensor :=
  map (fun i => mmul (slice a i) (slice b i)) (seq 0 (dim0 a)).

(** The integer [n] read as a number. *)
Definition of_nat (n : nat) : Q := inject_Z (Z.of_nat n).

(** Integer arrays: observations and haplotype libraries. *)
Definition ivector := list Z.
Definition imatrix := list (list Z).
Definition iget (v : ivector) (i : nat) : Z := nth i v 0%Z.
Definition imget (m : imatrix) (j i : nat) : Z := iget (nth j m []) i.
Definition irows (m : imatrix) : nat := List.length m.
Definition icols (m : imatrix) : nat := List.length (nth 0 m []).

(** Sequencing of steps that may have no value. *)
Definition bind {A B : Type} (x : option A) (f : A -> option B) : option B :=
  match x with
  | Some a => f a
  | None => None
  end.

End Array.
Import Array.

Notation "x <- c ;; k" := (bind c (fun x => k))
  (at level 61, c at next level, right associativity).

(* ================================================================== *)
(** * The transmission operator *)
(* ================================================================== *)

(** Lines 290-293 of [transmit]: the accumulation of both marginals; first
    the inner loop over [k] for a fixed row [j], then the loop over [j]. *)
Definition transmit_marginals_row (previous_estimate : matrix) (n_mat j : nat)
    (st : vector * vector) : vector * vector :=
  for_range n_mat (fun k (st : vector * vector) =>
    let '(pat, mat) := st in
    (upd pat j (vget pat j + mget previous_estimate j k),
     upd mat k (vget mat k + mget previous_estimate j k))) st.

Definition transmit_marginals (previous_estimate : matrix) (n_pat n_mat : nat)
    (pat mat : vector) : vector * vector :=
  for_range n_pat (fun j st => transmit_marginals_row previous_estimate n_mat j st)
    (pat, mat).

(** [transmit(previous_estimate, recombination_rate, output, pat, mat)];
    the result is the content of [output] on return.  [pat] and [mat] are
    scratch buffers of lengths [n_pat] and [n_mat] that are zeroed first. *)
Definition transmit (previous_estimate : matrix) (recombination_rate : Q) : matrix :=
  let n_pat := rows previous_estimate in
  let n_mat := cols previous_estimate in
  let pat := vfull n_pat 0 in
  let mat := vfull n_mat 0 in
  let '(pat, mat) := transmit_marginals previous_estimate n_pat n_mat pat mat in
  let e := recombination_rate in
  let e1e := (1 - e) * e in
  let e2m1 := (1 - e) ^ 2 in
  let pat := map (fun x => x * (e1e / of_nat n_pat)) pat in
  let mat := map (fun x => x * (e1e / of_nat n_mat)) mat in
  let e2 := e * e / of_nat (n_mat * n_pat) in
  mtab n_pat n_mat (fun j k =>
    mget previous_estimate j k * e2m1 + vget pat j + vget mat k + e2).

(** The four-term decomposition in the words of the specification. *)
Definition paternalMarginal (p : matrix) (j : nat) : Q :=
  sum_upto (cols p) (fun k => mget p j k).
Definition maternalMarginal (p : matrix) (k : nat) : Q :=
  sum_upto (rows p) (fun j => mget p j k).

Definition transmit_spec (p : matrix) (e : Q) (j k : nat) : Q :=
  let nPat := of_nat (rows p) in
  let nMat := of_nat (cols p) in
  (1 - e) ^ 2 * mget p j k
  + maternalMarginal p k * ((1 - e) * e / nPat)
  + paternalMarginal p j * ((1 - e) * e / nMat)
  + e ^ 2 / (nPat * nMat).


(* ================================================================== *)
(** * The forward and backward passes *)
(* ================================================================== *)

(** [diploid_forward(point_estimate, recombination_rate, in_place)].
    With [in_place] the array [combined] is [point_estimate] itself, so the
    read of [point_estimate[i]] in the loop is a read of [combined[i]];
    otherwise [combined] starts as a copy.  The first division is by
    [np.sum(combined[:,:])]: the slice [[:,:]] of a three-dimensional array
    is the whole array. *)
Definition diploid_forward (point_estimate : tensor) (recombination_rate : vector)
    (in_place : bool) : option tensor :=
  let n_loci := dim0 point_estimate in
  let combined := point_estimate in
  first <- mdiv_checked (slice combined 0) (tsum combined) ;;
  let combined := upd combined 0 first in
  for_span 1 n_loci (fun i st =>
    combined <- st ;;
    let forward_i := transmit (slice combined (i - 1)) (vget recombination_rate i) in
    let source := if in_place then combined else point_estimate in
    let combined := upd combined i (mmul (slice source i) forward_i) in
    normalized <- mdiv_checked (slice combined i) (msum (slice combined i)) ;;
    Some (upd combined i normalized))
  (Some combined).

(** [diploid_backward(point_estimate, recombination_rate)]; the loop runs
    over [range(n_loci-2, -1, -1)]. *)
Definition diploid_backward (point_estimate : tensor) (recombination_rate : vector)
    : option tensor :=
  let n_loci := dim0 point_estimate in
  let n_pat := dim1 point_estimate in
  let n_mat := dim2 point_estimate in
  let backward := tfull n_loci n_pat n_mat 1 in
  for_range_down (n_loci - 1) (fun i st =>
    backward <- st ;;
    let combined_i := mmul (slice backward (i + 1)) (slice point_estimate (i + 1)) in
    combined_i <- mdiv_checked combined_i (msum combined_i) ;;
    Some (upd backward i (transmit combined_i (vget recombination_rate i))))
  (Some backward).

(** The last loop of [diploidForwardBackward]: every locus divided by its
    own sum. *)
Definition normalize_loci (est : tensor) : option tensor :=
  for_range (dim0 est) (fun i st =>
    est <- st ;;
    normalized <- mdiv_checked (slice est i) (msum (slice est i)) ;;
    Some (upd est i normalized))
  (Some est).

(** [diploidForwardBackward(point_estimate, recombination_rate)]. *)
Definition diploidForwardBackward (point_estimate : tensor) (recombination_rate : vector)
    : option tensor :=
  est <- diploid_backward point_estimate recombination_rate ;;
  forward <- diploid_forward point_estimate recombination_rate true ;;
  let est := tmul est forward in
  normalize_loci est.

(* ================================================================== *)
(** * The posterior decoders *)
(* ================================================================== *)

(** [getDiploidDosages(hapEst, paternalHaplotypes, maternalHaplotypes)].
    [nLoci] is assigned twice; the value of the maternal library stays. *)
Definition getDiploidDosages (hapEst : tensor)
    (paternalHaplotypes maternalHaplotypes : imatrix) : vector :=
  let nPat := irows paternalHaplotypes in
  let nMat := irows maternalHaplotypes in
  let nLoci := icols maternalHaplotypes in
  let dosages := vfull nLoci 0 in
  for_range nLoci (fun i dosages =>
    for_range nPat (fun j dosages =>
      for_range nMat (fun k dosages =>
        upd dosages i
          (vget dosages i
           + tget hapEst i j k
             * inject_Z (imget paternalHaplotypes j i + imget maternalHaplotypes k i)))
      dosages) dosages) dosages.

(** A haplotype library over [nLoci] loci: every haplotype has [nLoci]
    alleles and every allele is 0 or 1. *)
Definition binary_library (h : imatrix) (nLoci : nat) : bool :=
  forallb (fun r =>
    (List.length r =? nLoci)%nat && forallb (fun a => (a =? 0)%Z || (a =? 1)%Z) r) h.

(** A posterior tensor: of shape [(nLoci, nPat, nMat)], without negative
    entries, and with sum 1 at every locus. *)
Definition has_shape (t : tensor) (n p q : nat) : bool :=
  (List.length t =? n)%nat
  && forallb (fun m =>
       (List.length m =? p)%nat && forallb (fun r => (List.length r =? q)%nat) m) t.
Definition nonnegative (t : tensor) : bool :=
  forallb (forallb (forallb (Qle_bool 0))) t.
Definition normalized (t : tensor) : bool :=
  forallb (fun m => Qeq_bool (msum m) 1) t.
(** Recombination rates between 0 and 1. *)
Definition valid_rates (r : vector) : bool :=
  forallb (fun e => Qle_bool 0 e && Qle_bool e 1) r.

Definition is_posterior (t : tensor) (nLoci nPat nMat : nat) : bool :=
  has_shape t nLoci nPat nMat && nonnegative t && normalized t.

(** The body of the innermost loop of [getDiploidProbabilities]: four tests
    on the allele pair of the hypothesis [(j, k)] at locus [i].  The
    posterior is read as [hapEst[j, k, i]]. *)
Definition probabilities_cell (hapEst : tensor)
    (paternalHaplotypes maternalHaplotypes : imatrix) (i j k : nat) (probs : matrix)
    : matrix :=
  let p := imget paternalHaplotypes j i in
  let m := imget maternalHaplotypes k i in
  let probs :=
    if ((p =? 0) && (m =? 0))%Z
    then mupd probs 0 i (mget probs 0 i + tget hapEst j k i) else probs in
  let probs :=
    if ((p =? 0) && (m =? 1))%Z
    then mupd probs 1 i (mget probs 1 i + tget hapEst j k i) else probs in
  let probs :=
    if ((p =? 1) && (m =? 0))%Z
    then mupd probs 2 i (mget probs 2 i + tget hapEst j k i) else probs in
  let probs :=
    if ((p =? 1) && (m =? 1))%Z
    then mupd probs 3 i (mget probs 3 i + tget hapEst j k i) else probs in
  probs.

(** [getDiploidProbabilities(hapEst, paternalHaplotypes, maternalHaplotypes)]. *)
Definition getDiploidProbabilities (hapEst : tensor)
    (paternalHaplotypes maternalHaplotypes : imatrix) : matrix :=
  let nPat := irows paternalHaplotypes in
  let nMat := irows maternalHaplotypes in
  let nLoci := icols maternalHaplotypes in
  let probs := mfull 4 nLoci 0 in
  for_range nLoci (fun i probs =>
    for_range nPat (fun j probs =>
      for_range nMat (fun k probs =>
        probabilities_cell hapEst paternalHaplotypes maternalHaplotypes i j k probs)
      probs) probs) probs.

(** The mass that the decoder adds to class [c] for the hypothesis [(j, k)]
    at locus [i]; class [c] stands for the allele pair [(c / 2, c mod 2)]. *)
Definition class_term (hapEst : tensor) (paternalHaplotypes maternalHaplotypes : imatrix)
    (c i j k : nat) : Q :=
  if ((imget paternalHaplotypes j i =? Z.of_nat (c / 2))
      && (imget maternalHaplotypes k i =? Z.of_nat (c mod 2)))%Z
  then tget hapEst j k i else 0.

(** The genotype classes in the words of the specification: the posterior
    mass at locus [i] of the hypothesis pairs whose alleles at locus [i] are
    [(a, b)], for a posterior laid out as [diploidForwardBackward] returns it
    (locus first). *)
Definition class_mass (posterior : tensor) (paternalHaplotypes maternalHaplotypes : imatrix)
    (a b : Z) (i : nat) : Q :=
  grid_sum (irows paternalHaplotypes) (irows maternalHaplotypes) (fun j k =>
    if ((imget paternalHaplotypes j i =? a) && (imget maternalHaplotypes k i =? b))%Z
    then tget posterior i j k else 0).

(* ================================================================== *)
(** * The emission model *)
(* ================================================================== *)

(** [getDiploidPointEstimates(indGeno, indPatHap, indMatHap,
    paternalHaplotypes, maternalHaplotypes, error)]. *)
Definition getDiploidPointEstimates (indGeno indPatHap indMatHap : ivector)
    (paternalHaplotypes maternalHaplotypes : imatrix) (error : vector) : tensor :=
  let nPat := irows paternalHaplotypes in
  let nMat := irows maternalHaplotypes in
  let nLoci := icols maternalHaplotypes in
  let pointEst := tfull nLoci nPat nMat 1 in
  for_range nLoci (fun i pointEst =>
    if negb (iget indGeno i =? 9)%Z then
      for_range nPat (fun j pointEst =>
        for_range nMat (fun k pointEst =>
          if negb (iget indPatHap i =? 9)%Z && negb (iget indMatHap i =? 9)%Z then
            let value := 1 in
            let value :=
              if (iget indPatHap i =? imget paternalHaplotypes j i)%Z
              then value * (1 - vget error i) else value * vget error i in
            let value :=
              if (iget indMatHap i =? imget maternalHaplotypes k i)%Z
              then value * (1 - vget error i) else value * vget error i in
            tupd pointEst i j k value
          else
            let sourceGeno :=
              (imget paternalHaplotypes j i + imget maternalHaplotypes k i)%Z in
            if (sourceGeno =? iget indGeno i)%Z
            then tupd pointEst i j k (1 - vget error i * vget error i)
            else tupd pointEst i j k (vget error i * vget error i))
        pointEst) pointEst
    else pointEst) pointEst.

(** The value that the loop body of [getDiploidPointEstimates] stores in
    the cell [(i, j, k)] of a locus whose genotype is not missing. *)
Definition stored_weight (indGeno indPatHap indMatHap : ivector)
    (paternalHaplotypes maternalHaplotypes : imatrix) (error : vector)
    (i j k : nat) : Q :=
  if negb (iget indPatHap i =? 9)%Z && negb (iget indMatHap i =? 9)%Z then
    let value := 1 in
    let value :=
      if (iget indPatHap i =? imget paternalHaplotypes j i)%Z
      then value * (1 - vget error i) else value * vget error i in
    if (iget indMatHap i =? imget maternalHaplotypes k i)%Z
    then value * (1 - vget error i) else value * vget error i
  else
    if (imget paternalHaplotypes j i + imget maternalHaplotypes k i =? iget indGeno i)%Z
    then 1 - vget error i * vget error i
    else vget error i * vget error i.

(** [getDiploidPointEstimates_probs(indProbs, paternalHaplotypes,
    maternalHaplotypes, error)].  The array is laid out as
    [(nPat, nMat, nLoci)].  The local [value] is assigned by one of the four
    tests when both alleles are 0 or 1; otherwise it keeps what an earlier
    cell left in it, so it is threaded through the loops (it is unbound
    before the first assignment, which is 0 here). *)
Definition getDiploidPointEstimates_probs (indProbs : matrix)
    (paternalHaplotypes maternalHaplotypes : imatrix) (error : vector) : tensor :=
  let nPat := irows paternalHaplotypes in
  let nMat := irows maternalHaplotypes in
  let nLoci := icols maternalHaplotypes in
  let pointEst := tfull nPat nMat nLoci 1 in
  snd (for_range nLoci (fun i st =>
    for_range nPat (fun j st =>
      for_range nMat (fun k st =>
        let '(value, pointEst) := st in
        let p_aa := mget indProbs 0 i in
        let p_aA := mget indProbs 1 i in
        let p_Aa := mget indProbs 2 i in
        let p_AA := mget indProbs 3 i in
        let e := vget error i in
        let p := imget paternalHaplotypes j i in
        let m := imget maternalHaplotypes k i in
        let value :=
          if ((p =? 0) && (m =? 0))%Z
          then p_aa * (1 - e) ^ 2 + (p_aA + p_Aa) * e * (1 - e) + p_AA * e ^ 2
          else value in
        let value :=
          if ((p =? 1) && (m =? 0))%Z
          then p_Aa * (1 - e) ^ 2 + (p_aa + p_AA) * e * (1 - e) + p_aA * e ^ 2
          else value in
        let value :=
          if ((p =? 0) && (m =? 1))%Z
          then p_aA * (1 - e) ^ 2 + (p_aa + p_AA) * e * (1 - e) + p_Aa * e ^ 2
          else value in
        let value :=
          if ((p =? 1) && (m =? 1))%Z
          then p_AA * (1 - e) ^ 2 + (p_aA + p_Aa) * e * (1 - e) + p_aa * e ^ 2
          else value in
        (value, tupd pointEst j k i value))
      st) st) (0, pointEst)).

(* ================================================================== *)
(** * The stochastic path sampler *)
(* ================================================================== *)

(** Lines 476-497 of [combine_backward_sampled_value]: the content of
    [output] before it is multiplied by [previous_estimate]. *)
Definition backward_kernel (n_pat n_mat : nat) (pat_hap mat_hap : nat)
    (recombination_rate : Q) : matrix :=
  let e := recombination_rate in
  let single_rec := (1 - e) * e in
  let no_rec := (1 - e) ^ 2 in
  let double_rec := e * e in
  let output := mfull n_pat n_mat (double_rec / of_nat (n_mat * n_pat)) in
  let output :=
    for_range n_mat (fun k output =>
      mupd output pat_hap k (mget output pat_hap k + single_rec / of_nat n_mat))
    output in
  let output :=
    for_range n_pat (fun j output =>
      mupd output j mat_hap (mget output j mat_hap + single_rec / of_nat n_pat))
    output in
  mupd output pat_hap mat_hap (mget output pat_hap mat_hap + no_rec).

(** [combine_backward_sampled_value(previous_estimate, pat_hap, mat_hap,
    recombination_rate, output)]. *)
Definition combine_backward_sampled_value (previous_estimate : matrix)
    (pat_hap mat_hap : nat) (recombination_rate : Q) : matrix :=
  let n_pat := rows previous_estimate in
  let n_mat := cols previous_estimate in
  let output := backward_kernel n_pat n_mat pat_hap mat_hap recombination_rate in
  mmul output previous_estimate.

(** The weights [pvals] that [diploidOneSample] hands to the sampling routine
    at locus [i] (the [if] of its loop body). *)
Definition sampling_weights (forward_probs : tensor) (recombination_rate : vector)
    (paternal_indices maternal_indices : list nat) (i : nat) : matrix :=
  let n_loci := dim0 forward_probs in
  if (i =? n_loci - 1)%nat then slice forward_probs i
  else combine_backward_sampled_value (slice forward_probs i)
         (nth (i + 1) paternal_indices 0%nat) (nth (i + 1) maternal_indices 0%nat)
         (vget recombination_rate (i + 1)).

Section Sampler.

(** [NumbaUtils.multinomial_sample_2d] is not part of these sources: it is a
    parameter, a draw of a cell from a grid of weights that consumes
    randomness of some type [rng]. *)
Variable rng : Type.
Variable multinomial_sample_2d : matrix -> rng -> (nat * nat) * rng.

(** [diploidOneSample(forward_probs, recombination_rate)].  The arrays made
    by [np.empty] are read only where they have been written. *)
Definition diploidOneSample (forward_probs : tensor) (recombination_rate : vector)
    (g : rng) : (list nat * list nat) * rng :=
  let n_loci := dim0 forward_probs in
  let n_pat := dim1 forward_probs in
  let n_mat := dim2 forward_probs in
  let pvals := mfull n_pat n_mat 0 in
  let paternal_indices := repeat 0%nat n_loci in
  let maternal_indices := repeat 0%nat n_loci in
  let '(pvals, paternal_indices, maternal_indices, g) :=
    for_range_down n_loci (fun i st =>
      let '(pvals, paternal_indices, maternal_indices, g) := st in
      let pvals :=
        sampling_weights forward_probs recombination_rate
          paternal_indices maternal_indices i in
      let '((j, k), g) := multinomial_sample_2d pvals g in
      (pvals, upd paternal_indices i j, upd maternal_indices i k, g))
    (pvals, paternal_indices, maternal_indices, g) in
  let '((j, k), g) := multinomial_sample_2d pvals g in
  ((upd paternal_indices 0 j, upd maternal_indices 0 k), g).

End Sampler.

(* ================================================================== *)
(** * The entry point *)
(* ================================================================== *)

(** The attributes of [ind] that [diploidHMM] reads and writes.  A new
    [Individual] has [None] in each of them (Pedigree.py, lines 51-64);
    [constructInfo] gives [genotypes] an array and, when it is asked for
    haplotypes, [haplotypes] a pair of arrays (lines 108-113).  A decoded
    array is [None] when the posterior it comes from has no exact value. *)
Record individual := {
  genotypes : option ivector;
  haplotypes : option (ivector * ivector);
  dosages : option vector;
  info : option matrix
}.

(** An error or recombination rate is a [float] or an array. *)
Inductive rate :=
| Float (x : Q)
| PerLocus (v : vector).

Definition expand (nLoci : nat) (r : rate) : vector :=
  match r with
  | Float x => vfull nLoci x
  | PerLocus v => v
  end.

(** What a call has computed, in order, and how it ends. *)
Inductive computation :=
| EmissionConstruction (pointEst : tensor)
| ForwardBackward (hapEst : option tensor)
| Decoding (callingMethod : string).

Inductive completion :=
| Raised (exception message : string)
| Returned (ind : individual).

Record outcome := {
  performed : list computation;
  result : completion
}.

(** A call that an exception stops after the computations [done]. *)
Definition stopped (done : list computation) (exception message : string) : outcome :=
  {| performed := done; result := Raised exception message |}.

(** Compiled code raises [ZeroDivisionError] when a scalar is divided by
    zero.  On the way of [diploidHMM] the scalar divisions are those of
    [transmit], by [n_pat], by [n_mat] and by their product (lines 300-303):
    they raise on a grid without a paternal or without a maternal haplotype.
    [diploidForwardBackward] starts with [diploid_backward] (line 375), which
    calls [transmit] once there are two loci (lines 359-365); the divisions
    of arrays by their sums (lines 329, 339, 362, 384) do not raise. *)
Definition transmit_divides_by_zero (point_estimate : tensor) : bool :=
  let n_loci := dim0 point_estimate in
  let n_pat := dim1 point_estimate in
  let n_mat := dim2 point_estimate in
  (2 <=? n_loci)%nat && ((n_pat =? 0)%nat || (n_mat =? 0)%nat).

Section EntryPoint.

(** [ProbMath.getGenotypeProbabilities_ind] is not part of these sources. *)
Variable getGenotypeProbabilities_ind : individual -> matrix.

(** [diploidHMM(ind, paternalHaplotypes, maternalHaplotypes, error,
    recombinationRate, callingMethod, useCalledHaps, includeGenoProbs)].
    [len(ind.genotypes)] (line 9) and [ind.haplotypes[0]] (line 30) raise
    [TypeError] on an attribute that is [None]; the forward-backward pass of
    line 41 raises [ZeroDivisionError] as [transmit_divides_by_zero] tells. *)
Definition diploidHMM (ind : individual) (paternalHaplotypes maternalHaplotypes : imatrix)
    (error recombinationRate : rate) (callingMethod : string)
    (useCalledHaps includeGenoProbs : bool) : outcome :=
  match genotypes ind with
  | None => stopped [] "TypeError" "object of type 'NoneType' has no len()"
  | Some indGenotypes =>
  let nLoci := List.length indGenotypes in
  let error := expand nLoci error in
  let recombinationRate := expand nLoci recombinationRate in
  let pointEst :=
    if useCalledHaps then
      match haplotypes ind with
      | None => None
      | Some indHaplotypes =>
          Some (getDiploidPointEstimates indGenotypes (fst indHaplotypes)
                  (snd indHaplotypes) paternalHaplotypes maternalHaplotypes error)
      end
    else
      let probs := getGenotypeProbabilities_ind ind in
      Some (getDiploidPointEstimates_probs probs paternalHaplotypes maternalHaplotypes
              error) in
  match pointEst with
  | None => stopped [] "TypeError" "'NoneType' object is not subscriptable"
  | Some pointEst =>
  let done := [EmissionConstruction pointEst] in
  if transmit_divides_by_zero pointEst then
    stopped done "ZeroDivisionError" "division by zero"
  else
  let hapEst := diploidForwardBackward pointEst recombinationRate in
  let done := done ++ [ForwardBackward hapEst] in
  let '(done, ind) :=
    if (callingMethod =? "dosages")%string then
      let dosages :=
        option_map (fun h => getDiploidDosages h paternalHaplotypes maternalHaplotypes)
          hapEst in
      (done ++ [Decoding "dosages"],
       {| genotypes := genotypes ind; haplotypes := haplotypes ind;
          dosages := dosages; info := info ind |})
    else (done, ind) in
  let '(done, ind) :=
    if (callingMethod =? "probabilities")%string then
      let values :=
        option_map (fun h => getDiploidProbabilities h paternalHaplotypes maternalHaplotypes)
          hapEst in
      (done ++ [Decoding "probabilities"],
       {| genotypes := genotypes ind; haplotypes := haplotypes ind;
          dosages := dosages ind; info := values |})
    else (done, ind) in
  if (callingMethod =? "callhaps")%string then
    {| performed := done;
       result := Raised "ValueError" "callhaps not yet implimented." |}
  else if (callingMethod =? "viterbi")%string then
    {| performed := done;
       result := Raised "ValueError" "Viterbi not yet implimented." |}
  else {| performed := done; result := Returned ind |}
  end
  end.

End EntryPoint.


(* ================================================================== *)
(** * The other kernels of the module *)
(* ================================================================== *)

(** [getDiploidPointEstimates_geno(indGeno, paternalHaplotypes,
    maternalHaplotypes, error, pointEst)]: the emissions of the genotypes
    alone, written into the array [pointEst] of the caller; the result is the
    content of [pointEst] on return. *)
Definition getDiploidPointEstimates_geno (indGeno : ivector)
    (paternalHaplotypes maternalHaplotypes : imatrix) (error : vector)
    (pointEst : tensor) : tensor :=
  let nPat := irows paternalHaplotypes in
  let nMat := irows maternalHaplotypes in
  let nLoci := icols maternalHaplotypes in
  for_range nLoci (fun i pointEst =>
    if negb (iget indGeno i =? 9)%Z then
      let error_2 := vget error i * vget error i in
      for_range nPat (fun j pointEst =>
        for_range nMat (fun k pointEst =>
          let sourceGeno :=
            (imget paternalHaplotypes j i + imget maternalHaplotypes k i)%Z in
          if (sourceGeno =? iget indGeno i)%Z
          then tupd pointEst i j k (1 - error_2)
          else tupd pointEst i j k error_2)
        pointEst) pointEst
    else pointEst) pointEst.

(** [addDiploidPrior(pointEst, prior)]; the shape of [pointEst] is read as
    [(nPat, nMat, nLoci)]. *)
Definition addDiploidPrior (pointEst : tensor) (prior : matrix) : tensor :=
  let nPat := dim0 pointEst in
  let nMat := dim1 pointEst in
  let nLoci := dim2 pointEst in
  for_range nLoci (fun i pointEst =>
    for_range nPat (fun j pointEst =>
      for_range nMat (fun k pointEst =>
        tupd pointEst j k i (tget pointEst j k i * mget prior j k))
      pointEst) pointEst) pointEst.

(** The first double loop of [diploid_normalize] at locus [i]: the
    accumulator [sum_]. *)
Definition locus_total (array : tensor) (n_pat n_mat i : nat) : Q :=
  for_range n_pat (fun j sum_ =>
    for_range n_mat (fun k sum_ => sum_ + tget array j k i) sum_) 0.

(** [diploid_normalize(array)], on an array of shape
    [(n_pat, n_mat, n_loci)].  The division [array[j,k,i]/sum_] is a division
    of scalars, which numba compiles to raise [ZeroDivisionError] for a zero
    divisor: the result is [None] then. *)
Definition diploid_normalize (array : tensor) : option tensor :=
  let n_pat := dim0 array in
  let n_mat := dim1 array in
  let n_loci := dim2 array in
  for_range n_loci (fun i st =>
    array <- st ;;
    let sum_ := locus_total array n_pat n_mat i in
    for_range n_pat (fun j st =>
      for_range n_mat (fun k st =>
        array <- st ;;
        if Qeq_bool sum_ 0 then None
        else Some (tupd array j k i (tget array j k i / sum_)))
      st) (Some array))
  (Some array).

(** The four tests of the loop body of [getDiploidPointEstimates_probs] for
    a hypothesis with the allele pair [(p, m)] at locus [i]: what the local
    [value] holds after them, when it held [value] before. *)
Definition assigned_value (indProbs : matrix) (error : vector) (i : nat) (p m : Z)
    (value : Q) : Q :=
  let p_aa := mget indProbs 0 i in
  let p_aA := mget indProbs 1 i in
  let p_Aa := mget indProbs 2 i in
  let p_AA := mget indProbs 3 i in
  let e := vget error i in
  let value :=
    if ((p =? 0) && (m =? 0))%Z
    then p_aa * (1 - e) ^ 2 + (p_aA + p_Aa) * e * (1 - e) + p_AA * e ^ 2
    else value in
  let value :=
    if ((p =? 1) && (m =? 0))%Z
    then p_Aa * (1 - e) ^ 2 + (p_aa + p_AA) * e * (1 - e) + p_aA * e ^ 2
    else value in
  let value :=
    if ((p =? 0) && (m =? 1))%Z
    then p_aA * (1 - e) ^ 2 + (p_aa + p_AA) * e * (1 - e) + p_Aa * e ^ 2
    else value in
  let value :=
    if ((p =? 1) && (m =? 1))%Z
    then p_AA * (1 - e) ^ 2 + (p_aA + p_Aa) * e * (1 - e) + p_aa * e ^ 2
    else value in
  value.

(** [np.finfo(np.float32).eps], two to the power -23. *)
Definition float32_eps : Q := 1 # 8388608.

(** [diploidIndices(sampled_probs)].  The two arrays made by [np.empty] keep
    whatever they held where no cell passes the test; that is 0 here. *)
Definition diploidIndices (sampled_probs : tensor) : list nat * list nat :=
  let n_loci := dim0 sampled_probs in
  let n_pat := dim1 sampled_probs in
  let n_mat := dim2 sampled_probs in
  let paternal_indices := repeat 0%nat n_loci in
  let maternal_indices := repeat 0%nat n_loci in
  let eps := float32_eps in
  for_range n_loci (fun i st =>
    for_range n_pat (fun j st =>
      for_range n_mat (fun k (st : list nat * list nat) =>
        if negb (Qle_bool (tget sampled_probs i j k) (1 - eps))
        then (upd (fst st) i j, upd (snd st) i k)
        else st)
      st) st)
    (paternal_indices, maternal_indices).

(** Decidable forms of the hypotheses of the statements below. *)
Definition positive_grid (m : matrix) (p q : nat) : bool :=
  (List.length m =? p)%nat
  && forallb (fun r =>
       (List.length r =? q)%nat && forallb (fun x => negb (Qle_bool x 0)) r) m.
Definition valid_errors (error : vector) (nLoci : nat) : bool :=
  (nLoci <=? List.length error)%nat
  && forallb (fun e => negb (Qle_bool e 0) && negb (Qle_bool 1 e)) error.

(** A sampling routine that replays a list of draws. *)
Definition replay (pvals : matrix) (draws : list (nat * nat))
    : (nat * nat) * list (nat * nat) :=
  match draws with
  | [] => ((0%nat, 0%nat), [])
  | d :: rest => (d, rest)
  end.

(* ================================================================== *)
(** * Concrete inputs *)
(* ================================================================== *)

(** A distribution on a grid of one paternal and two maternal haplotypes. *)
Definition one_by_two : matrix := [[1 # 2; 1 # 2]].

(** Uninformative emissions at two loci on a grid of one by two. *)
Definition flat_emission : tensor := [ [[1; 1]]; [[1; 1]] ].
Definition half_rates : vector := [1 # 2; 1 # 2].

(** Locus 0 of the forward pass in the words of the specification: the
    emission at locus 0 divided by its own sum. *)
Definition forward_first_spec (emission : tensor) : matrix :=
  mdiv (slice emission 0) (msum (slice emission 0)).

(** Emissions at two loci on a grid of one by two, and the posterior that
    [diploidForwardBackward] returns for them. *)
Definition skew_emission : tensor := [ [[1; 1]]; [[1; 3]] ].
Definition skew_posterior : tensor :=
  Eval vm_compute in
    match diploidForwardBackward skew_emission half_rates with
    | Some post => post
    | None => []
    end.

(** Forward-combined distributions at two loci on a grid of two by two,
    and a pair of index sequences whose entry at locus 1 is the pair (1, 0). *)
Definition two_forward : tensor :=
  [ [[1 # 4; 1 # 4]; [1 # 4; 1 # 4]]; [[1 # 2; 1 # 2]; [0; 0]] ].
Definition drawn_paternal : list nat := [0%nat; 1%nat].
Definition drawn_maternal : list nat := [0%nat; 0%nat].

(** Observations at two loci: at locus 0 a heterozygous genotype without
    phase, at locus 1 a missing genotype with both phased alleles known; and
    two libraries of two haplotypes each. *)
Definition seen_genotypes : ivector := [1%Z; 9%Z].
Definition seen_paternal : ivector := [9%Z; 0%Z].
Definition seen_maternal : ivector := [9%Z; 1%Z].
Definition paternal_library : imatrix := [[0%Z; 0%Z]; [1%Z; 1%Z]].
Definition maternal_library : imatrix := [[0%Z; 1%Z]; [1%Z; 0%Z]].
Definition tenth_errors : vector := [1 # 10; 1 # 10].

(** A library of one paternal haplotype over two loci. *)
Definition single_paternal : imatrix := [[0%Z; 1%Z]].

(** An individual at two loci with genotypes 0 and 2 and no phase, typed
    against [paternal_library] and [maternal_library] with error rate 1/10
    and recombination rate 0; the emission tensor that [diploidHMM] builds
    for it. *)
Definition two_locus_individual : individual :=
  {| genotypes := Some [0%Z; 2%Z]; haplotypes := Some ([9%Z; 9%Z], [9%Z; 9%Z]);
     dosages := None; info := None |}.
Definition two_locus_emission : tensor :=
  getDiploidPointEstimates [0%Z; 2%Z] [9%Z; 9%Z] [9%Z; 9%Z]
    paternal_library maternal_library (vfull 2 (1 # 10)).

(** Two loci with missing genotypes on a grid of two by two. *)
Definition missing_individual : individual :=
  {| genotypes := Some [9%Z; 9%Z]; haplotypes := Some ([9%Z; 9%Z], [9%Z; 9%Z]);
     dosages := None; info := None |}.
Definition missing_emission : tensor :=
  getDiploidPointEstimates [9%Z; 9%Z] [9%Z; 9%Z] [9%Z; 9%Z]
    paternal_library maternal_library (vfull 2 (1 # 100)).

(** One individual at one locus, heterozygous and unphased, and libraries
    of one paternal haplotype [0] and one maternal haplotype [1]. *)
Definition het_individual : individual :=
  {| genotypes := Some [1%Z]; haplotypes := Some ([9%Z], [9%Z]);
     dosages := None; info := None |}.
Definition lib_zero : imatrix := [[0%Z]].
Definition lib_one : imatrix := [[1%Z]].
Definition no_probabilities (ind : individual) : matrix := [].

(** An individual as [Individual.__init__] leaves it, and one after
    [constructInfo(2)], which fills the genotypes and not the haplotypes. *)
Definition new_individual : individual :=
  {| genotypes := None; haplotypes := None; dosages := None; info := None |}.
Definition genotyped_individual : individual :=
  {| genotypes := Some [9%Z; 9%Z]; haplotypes := None;
     dosages := None; info := None |}.

(** A library without haplotypes. *)
Definition empty_library : imatrix := [].


(** The forward pass and the backward pass on [flat_emission]. *)
Definition flat_forward : tensor :=
  Eval vm_compute in
    match diploid_forward flat_emission half_rates false with
    | Some combined => combined
    | None => []
    end.

(** Emissions at three loci on a grid of two by two, and their backward
    pass. *)
Definition square_emission : tensor :=
  [ [[1; 2]; [3; 4]]; [[1; 1]; [1; 1]]; [[2; 1]; [1; 2]] ].
Definition third_rates : vector := [1 # 3; 1 # 3; 1 # 3].
Definition square_backward : tensor :=
  Eval vm_compute in
    match diploid_backward square_emission third_rates with
    | Some backward => backward
    | None => []
    end.


(** Genotype probabilities at two loci, as a matrix of four rows. *)
Definition seen_probabilities : matrix :=
  [ [1 # 2; 1 # 10]; [1 # 4; 2 # 10]; [1 # 8; 3 # 10]; [1 # 8; 4 # 10] ].

(** An array of ones of the shape of the emissions for [paternal_library]
    and [maternal_library], two loci first. *)
Definition ones_emission : tensor := tfull 2 2 2 1.

(** A prior on a grid of three by two. *)
Definition skew_prior : matrix := [ [1 # 2; 1 # 4]; [1 # 8; 1 # 16]; [1 # 32; 1 # 32] ].

(** An array of shape [(2, 2, 3)], the locus last, and its normalisation. *)
Definition locus_last_array : tensor :=
  [ [[1; 2; 1]; [1; 2; 3]]; [[1; 2; 2]; [1; 2; 2]] ].
Definition locus_last_normalized : tensor :=
  Eval vm_compute in
    match diploid_normalize locus_last_array with
    | Some a => a
    | None => []
    end.

(** The same array with zeros at its second locus. *)
Definition locus_last_degenerate : tensor :=
  [ [[1; 0; 1]; [1; 0; 3]]; [[1; 0; 2]; [1; 0; 2]] ].

(** A list of draws for [replay], and sampled probabilities at two loci on
    a grid of two by two with all the mass of each locus on one cell. *)
Definition three_draws : list (nat * nat) := [(1%nat, 0%nat); (0%nat, 1%nat); (1%nat, 1%nat)].
Definition one_hot_probs : tensor :=
  [ [[0; 0]; [1; 0]]; [[0; 1]; [0; 0]] ].

(* ================================================================== *)
(** * Lemmas on arrays, loops and sums *)
(* ================================================================== *)

Section ArrayFacts.

Context {A : Type}.

Lemma length_upd (l : list A) (i : nat) (v : A) :
  List.length (upd l i v) = List.length l.
Proof.
  revert i; induction l as [|h t IH]; intros [|i]; simpl; auto.
Qed.

Lemma nth_upd_same (l : list A) (i : nat) (v d : A) :
  (i < List.length l)%nat -> nth i (upd l i v) d = v.
Proof.
  revert i; induction l as [|h t IH]; intros [|i] Hi; simpl in *; try lia; auto.
  apply IH; lia.
Qed.

Lemma nth_upd_other (l : list A) (i i' : nat) (v d : A) :
  i <> i' -> nth i' (upd l i v) d = nth i' l d.
Proof.
  revert i i'; induction l as [|h t IH]; intros [|i] [|i'] Hne; simpl;
    try reflexivity; try congruence.
  apply IH; congruence.
Qed.

Lemma nth_upd_self (l : list A) (i i' : nat) (d : A) :
  nth i' (upd l i (nth i l d)) d = nth i' l d.
Proof.
  revert i i'; induction l as [|h t IH]; intros [|i] [|i']; simpl; auto.
Qed.

End ArrayFacts.

Section LoopFacts.

Context {S : Type}.

Lemma for_range_S (n : nat) (body : nat -> S -> S) (s : S) :
  for_range (Datatypes.S n) body s = body n (for_range n body s).
Proof.
  unfold for_range. rewrite seq_S, fold_left_app. reflexivity.
Qed.

(** Loop invariants: [P i s] holds of the state before iteration [i]. *)
Lemma for_range_inv (P : nat -> S -> Prop) (n : nat) (body : nat -> S -> S) (s : S) :
  P 0%nat s ->
  (forall i st, (i < n)%nat -> P i st -> P (Datatypes.S i) (body i st)) ->
  P n (for_range n body s).
Proof.
  intros H0 Hstep. induction n as [|n IH].
  - exact H0.
  - rewrite for_range_S. apply Hstep; [lia|]. apply IH.
    intros i st Hi. apply Hstep. lia.
Qed.

(** An invariant that does not mention the loop index. *)
Lemma fold_left_inv (P : S -> Prop) (body : nat -> S -> S) (l : list nat) (s : S) :
  P s ->
  (forall i st, In i l -> P st -> P (body i st)) ->
  P (fold_left (fun s i => body i s) l s).
Proof.
  revert s; induction l as [|x l IH]; intros s H0 Hstep; simpl.
  - exact H0.
  - apply IH.
    + apply Hstep; [left; reflexivity | exact H0].
    + intros i st Hin. apply Hstep. right. exact Hin.
Qed.

Lemma for_span_inv (P : S -> Prop) (lo hi : nat) (body : nat -> S -> S) (s : S) :
  P s ->
  (forall i st, (lo <= i < hi)%nat -> P st -> P (body i st)) ->
  P (for_span lo hi body s).
Proof.
  intros H0 Hstep. unfold for_span. apply fold_left_inv; [exact H0|].
  intros i st Hin. apply Hstep. apply in_seq in Hin. lia.
Qed.

Lemma for_range_down_inv (P : S -> Prop) (n : nat) (body : nat -> S -> S) (s : S) :
  P s ->
  (forall i st, (i < n)%nat -> P st -> P (body i st)) ->
  P (for_range_down n body s).
Proof.
  intros H0 Hstep. unfold for_range_down. apply fold_left_inv; [exact H0|].
  intros i st Hin. apply Hstep. apply in_rev, in_seq in Hin. lia.
Qed.

End LoopFacts.

Lemma nth_repeat_lt {A : Type} (c d : A) (n i : nat) :
  (i < n)%nat -> nth i (repeat c n) d = c.
Proof.
  revert i; induction n as [|n IH]; intros [|i] Hi; simpl; try lia; auto.
  apply IH; lia.
Qed.

Lemma vget_vfull (n i : nat) (c : Q) : (i < n)%nat -> vget (vfull n c) i = c.
Proof. apply nth_repeat_lt. Qed.

Lemma vget_upd_same (v : vector) (i : nat) (x : Q) :
  (i < List.length v)%nat -> vget (upd v i x) i = x.
Proof. apply nth_upd_same. Qed.

Lemma vget_upd_other (v : vector) (i i' : nat) (x : Q) :
  i <> i' -> vget (upd v i x) i' = vget v i'.
Proof. apply nth_upd_other. Qed.

Lemma vget_map (f : Q -> Q) (v : vector) (i : nat) :
  (i < List.length v)%nat -> vget (map f v) i = f (vget v i).
Proof.
  intros Hi. unfold vget.
  rewrite (nth_indep (map f v) 0 (f 0)) by (rewrite length_map; exact Hi).
  apply map_nth.
Qed.

Lemma rows_mtab (n p : nat) (f : nat -> nat -> Q) : rows (mtab n p f) = n.
Proof. unfold rows, mtab. rewrite length_map, length_seq. reflexivity. Qed.

Lemma nth_map_seq {B : Type} (f : nat -> B) (n j : nat) (d : B) :
  (j < n)%nat -> nth j (map f (seq 0 n)) d = f j.
Proof.
  intros Hj.
  rewrite (nth_indep _ d (f 0%nat)) by (rewrite length_map, length_seq; exact Hj).
  rewrite (map_nth f), seq_nth by exact Hj. reflexivity.
Qed.

Lemma row_mtab (n p : nat) (f : nat -> nat -> Q) (j : nat) :
  (j < n)%nat -> row (mtab n p f) j = map (fun k => f j k) (seq 0 p).
Proof.
  intros Hj. unfold row, mtab.
  apply (nth_map_seq (fun j => map (fun k => f j k) (seq 0 p))). exact Hj.
Qed.

Lemma cols_mtab (n p : nat) (f : nat -> nat -> Q) :
  (0 < n)%nat -> cols (mtab n p f) = p.
Proof.
  intros Hn. unfold cols. rewrite row_mtab by exact Hn.
  rewrite length_map, length_seq. reflexivity.
Qed.

Lemma mget_mtab (n p : nat) (f : nat -> nat -> Q) (j k : nat) :
  (j < n)%nat -> (k < p)%nat -> mget (mtab n p f) j k = f j k.
Proof.
  intros Hj Hk. unfold mget. rewrite row_mtab by exact Hj. unfold vget.
  apply (nth_map_seq (fun k => f j k)). exact Hk.
Qed.

Lemma sum_upto_ext (n : nat) (f g : nat -> Q) :
  (forall i, (i < n)%nat -> f i == g i) -> sum_upto n f == sum_upto n g.
Proof.
  induction n as [|n IH]; intros H; simpl.
  - reflexivity.
  - rewrite IH, (H n) by (intros; try apply H; lia). reflexivity.
Qed.

Lemma sum_upto_scale (n : nat) (f : nat -> Q) (c : Q) :
  sum_upto n (fun i => f i * c) == sum_upto n f * c.
Proof.
  induction n as [|n IH]; simpl.
  - ring.
  - rewrite IH. ring.
Qed.

Lemma sum_upto_plus (n : nat) (f g : nat -> Q) :
  sum_upto n (fun i => f i + g i) == sum_upto n f + sum_upto n g.
Proof.
  induction n as [|n IH]; simpl.
  - ring.
  - rewrite IH. ring.
Qed.

Lemma sum_upto_const (n : nat) (c : Q) :
  sum_upto n (fun _ => c) == of_nat n * c.
Proof.
  induction n as [|n IH].
  - simpl. unfold of_nat. simpl. ring.
  - cbn [sum_upto]. rewrite IH. unfold of_nat.
    rewrite Nat2Z.inj_succ, <- Z.add_1_r, inject_Z_plus. ring.
Qed.

(** A sum that meets an index [p] once picks out the term at [p]. *)
Lemma sum_upto_at (n p : nat) (a : Q) :
  sum_upto n (fun i => if (i =? p)%nat then a else 0)
  == if (p <? n)%nat then a else 0.
Proof.
  induction n as [|n IH]; simpl sum_upto.
  - reflexivity.
  - rewrite IH.
    destruct (Nat.eqb_spec n p) as [->|Hne].
    + rewrite Nat.ltb_irrefl.
      replace (p <? Datatypes.S p)%nat with true by (symmetry; apply Nat.ltb_lt; lia).
      ring.
    + destruct (Nat.ltb_spec p n) as [Hlt|Hge].
      * replace (p <? Datatypes.S n)%nat with true by (symmetry; apply Nat.ltb_lt; lia).
        ring.
      * replace (p <? Datatypes.S n)%nat with false by (symmetry; apply Nat.ltb_ge; lia).
        ring.
Qed.

Lemma sum_upto_nonneg (n : nat) (f : nat -> Q) :
  (forall i, (i < n)%nat -> 0 <= f i) -> 0 <= sum_upto n f.
Proof.
  induction n as [|n IH]; intros H; simpl.
  - apply Qle_refl.
  - assert (0 <= sum_upto n f) by (apply IH; intros; apply H; lia).
    assert (0 <= f n) by (apply H; lia). lra.
Qed.

Lemma sum_upto_le (n : nat) (f g : nat -> Q) :
  (forall i, (i < n)%nat -> f i <= g i) -> sum_upto n f <= sum_upto n g.
Proof.
  induction n as [|n IH]; intros H; simpl.
  - apply Qle_refl.
  - assert (sum_upto n f <= sum_upto n g) by (apply IH; intros; apply H; lia).
    assert (f n <= g n) by (apply H; lia). lra.
Qed.

Lemma of_nat_nonzero (n : nat) : (0 < n)%nat -> ~ of_nat n == 0.
Proof.
  intros Hn H. unfold of_nat, Qeq in H. simpl in H. lia.
Qed.

Lemma of_nat_mul (n p : nat) : of_nat (n * p) == of_nat n * of_nat p.
Proof. unfold of_nat. rewrite Nat2Z.inj_mul, inject_Z_mult. reflexivity. Qed.

Lemma grid_sum_ext (n p : nat) (f g : nat -> nat -> Q) :
  (forall j k, (j < n)%nat -> (k < p)%nat -> f j k == g j k) ->
  grid_sum n p f == grid_sum n p g.
Proof.
  intros H. unfold grid_sum. apply sum_upto_ext. intros j Hj.
  apply sum_upto_ext. intros k Hk. apply H; assumption.
Qed.

(* ================================================================== *)
(** * The transmission operator: what the loops compute *)
(* ================================================================== *)

(** One row of the accumulation: row [j0] of the input is added to [pat[j0]]
    and, cell by cell, to [mat]. *)
Lemma transmit_marginals_row_sums (prev : matrix) (n_pat n_mat j0 : nat) (pat mat : vector) :
  (j0 < n_pat)%nat -> List.length pat = n_pat -> List.length mat = n_mat ->
  let st := transmit_marginals_row prev n_mat j0 (pat, mat) in
  List.length (fst st) = n_pat /\ List.length (snd st) = n_mat
  /\ vget (fst st) j0 == vget pat j0 + sum_upto n_mat (mget prev j0)
  /\ (forall j, j <> j0 -> vget (fst st) j = vget pat j)
  /\ (forall k, (k < n_mat)%nat -> vget (snd st) k == vget mat k + mget prev j0 k).
Proof.
  intros Hj0 Hpat Hmat st.
  assert (Inv :
    List.length (fst st) = n_pat /\ List.length (snd st) = n_mat
    /\ vget (fst st) j0 == vget pat j0 + sum_upto n_mat (mget prev j0)
    /\ (forall j, j <> j0 -> vget (fst st) j = vget pat j)
    /\ (forall k, (k < n_mat)%nat ->
          vget (snd st) k
          == vget mat k + (if (k <? n_mat)%nat then mget prev j0 k else 0))).
  { subst st. unfold transmit_marginals_row.
    apply (for_range_inv (fun k0 (st : vector * vector) =>
      List.length (fst st) = n_pat /\ List.length (snd st) = n_mat
      /\ vget (fst st) j0 == vget pat j0 + sum_upto k0 (mget prev j0)
      /\ (forall j, j <> j0 -> vget (fst st) j = vget pat j)
      /\ (forall k, (k < n_mat)%nat ->
            vget (snd st) k
            == vget mat k + (if (k <? k0)%nat then mget prev j0 k else 0)))).
    - simpl. repeat split; auto; intros; ring.
    - intros k0 [p m] Hk0 (Lp & Lm & Hp & Hother & Hm). simpl in *.
      repeat split.
      + rewrite length_upd. exact Lp.
      + rewrite length_upd. exact Lm.
      + rewrite vget_upd_same by lia. rewrite Hp. ring.
      + intros j Hne. rewrite vget_upd_other by congruence. apply Hother. exact Hne.
      + intros k Hk. destruct (Nat.eq_dec k0 k) as [->|Hne].
        * rewrite vget_upd_same by lia. rewrite (Hm k Hk).
          rewrite Nat.ltb_irrefl.
          replace (k <? Datatypes.S k)%nat with true by (symmetry; apply Nat.ltb_lt; lia).
          ring.
        * rewrite vget_upd_other by exact Hne. rewrite (Hm k Hk).
          destruct (Nat.ltb_spec k k0) as [Hlt|Hge].
          -- replace (k <? Datatypes.S k0)%nat with true
               by (symmetry; apply Nat.ltb_lt; lia).
             reflexivity.
          -- replace (k <? Datatypes.S k0)%nat with false
               by (symmetry; apply Nat.ltb_ge; lia).
             reflexivity. }
  destruct Inv as (Lp & Lm & Hp & Hother & Hm).
  repeat split; auto.
  intros k Hk. rewrite (Hm k Hk).
  replace (k <? n_mat)%nat with true by (symmetry; apply Nat.ltb_lt; exact Hk).
  reflexivity.
Qed.

(** The two scratch buffers hold the row sums and the column sums. *)
Lemma transmit_marginals_sums (prev : matrix) (n_pat n_mat : nat) :
  let st := transmit_marginals prev n_pat n_mat (vfull n_pat 0) (vfull n_mat 0) in
  List.length (fst st) = n_pat /\ List.length (snd st) = n_mat
  /\ (forall j, (j < n_pat)%nat -> vget (fst st) j == sum_upto n_mat (mget prev j))
  /\ (forall k, (k < n_mat)%nat ->
        vget (snd st) k == sum_upto n_pat (fun j => mget prev j k)).
Proof.
  intros st.
  assert (Inv :
    List.length (fst st) = n_pat /\ List.length (snd st) = n_mat
    /\ (forall j, (j < n_pat)%nat ->
          vget (fst st) j
          == if (j <? n_pat)%nat then sum_upto n_mat (mget prev j) else 0)
    /\ (forall k, (k < n_mat)%nat ->
          vget (snd st) k == sum_upto n_pat (fun j => mget prev j k))).
  { subst st. unfold transmit_marginals.
    apply (for_range_inv (fun j0 (st : vector * vector) =>
      List.length (fst st) = n_pat /\ List.length (snd st) = n_mat
      /\ (forall j, (j < n_pat)%nat ->
            vget (fst st) j
            == if (j <? j0)%nat then sum_upto n_mat (mget prev j) else 0)
      /\ (forall k, (k < n_mat)%nat ->
            vget (snd st) k == sum_upto j0 (fun j => mget prev j k)))).
    - simpl. repeat split; try (unfold vfull; apply repeat_length).
      + intros j Hj. rewrite vget_vfull by exact Hj. reflexivity.
      + intros k Hk. rewrite vget_vfull by exact Hk. reflexivity.
    - intros j0 [p m] Hj0 (Lp & Lm & Hp & Hm).
      simpl in Lp, Lm, Hp, Hm.
      pose proof (transmit_marginals_row_sums prev n_pat n_mat j0 p m Hj0 Lp Lm) as R.
      cbv zeta in R. destruct R as (Lp' & Lm' & Hrow & Hother & Hcol).
      cbv beta. repeat split; auto.
      + intros j Hj. destruct (Nat.eq_dec j j0) as [->|Hne].
        * rewrite Hrow, (Hp j0 Hj0), Nat.ltb_irrefl.
          replace (j0 <? Datatypes.S j0)%nat with true
            by (symmetry; apply Nat.ltb_lt; lia).
          ring.
        * rewrite (Hother j Hne), (Hp j Hj).
          destruct (Nat.ltb_spec j j0) as [Hlt|Hge].
          -- replace (j <? Datatypes.S j0)%nat with true
               by (symmetry; apply Nat.ltb_lt; lia).
             reflexivity.
          -- replace (j <? Datatypes.S j0)%nat with false
               by (symmetry; apply Nat.ltb_ge; lia).
             reflexivity.
      + intros k Hk. rewrite (Hcol k Hk), (Hm k Hk). simpl. reflexivity. }
  destruct Inv as (Lp & Lm & Hp & Hm).
  repeat split; auto.
  intros j Hj. rewrite (Hp j Hj).
  replace (j <? n_pat)%nat with true by (symmetry; apply Nat.ltb_lt; exact Hj).
  reflexivity.
Qed.

(** Every cell of the output of [transmit], in closed form: the row sum is
    scaled by [(1-e)e/n_pat] and the column sum by [(1-e)e/n_mat]. *)
Lemma transmit_cell (prev : matrix) (e : Q) (j k : nat) :
  (j < rows prev)%nat -> (k < cols prev)%nat ->
  mget (transmit prev e) j k
  == mget prev j k * (1 - e) ^ 2
     + paternalMarginal prev j * ((1 - e) * e / of_nat (rows prev))
     + maternalMarginal prev k * ((1 - e) * e / of_nat (cols prev))
     + e * e / of_nat (cols prev * rows prev).
Proof.
  intros Hj Hk. unfold transmit.
  pose proof (transmit_marginals_sums prev (rows prev) (cols prev)) as H.
  cbv zeta in H.
  destruct (transmit_marginals prev (rows prev) (cols prev)
              (vfull (rows prev) 0) (vfull (cols prev) 0)) as [pat mat].
  simpl in H. destruct H as (Lp & Lm & Hp & Hm).
  rewrite mget_mtab by assumption.
  rewrite !vget_map by lia.
  rewrite (Hp j Hj), (Hm k Hk).
  unfold paternalMarginal, maternalMarginal. reflexivity.
Qed.

(** On a square grid the two scalings coincide, and the output is the
    four-term sum of the specification. *)
Lemma transmit_square (prev : matrix) (e : Q) (j k : nat) :
  rows prev = cols prev ->
  (j < rows prev)%nat -> (k < cols prev)%nat ->
  mget (transmit prev e) j k == transmit_spec prev e j k.
Proof.
  intros Hsq Hj Hk. rewrite transmit_cell by assumption.
  unfold transmit_spec. cbv zeta.
  rewrite of_nat_mul, Hsq.
  field. apply of_nat_nonzero. lia.
Qed.

Lemma grid_sum_plus (n p : nat) (f g : nat -> nat -> Q) :
  grid_sum n p (fun j k => f j k + g j k) == grid_sum n p f + grid_sum n p g.
Proof.
  unfold grid_sum.
  rewrite (sum_upto_ext _ _ (fun j => sum_upto p (f j) + sum_upto p (g j)))
    by (intros j Hj; apply sum_upto_plus).
  apply sum_upto_plus.
Qed.

Lemma grid_sum_times (n p : nat) (f : nat -> nat -> Q) (c : Q) :
  grid_sum n p (fun j k => f j k * c) == grid_sum n p f * c.
Proof.
  unfold grid_sum.
  rewrite (sum_upto_ext _ _ (fun j => sum_upto p (f j) * c))
    by (intros j Hj; apply sum_upto_scale).
  apply sum_upto_scale.
Qed.

Lemma grid_sum_swap (n p : nat) (f : nat -> nat -> Q) :
  grid_sum n p f == grid_sum p n (fun k j => f j k).
Proof.
  unfold grid_sum. induction n as [|n IH].
  - simpl. rewrite sum_upto_const. ring.
  - cbn [sum_upto]. rewrite IH, sum_upto_plus. reflexivity.
Qed.

Lemma grid_sum_of_row (n p : nat) (g : nat -> Q) :
  grid_sum n p (fun j _ => g j) == of_nat p * sum_upto n g.
Proof.
  unfold grid_sum.
  rewrite (sum_upto_ext _ _ (fun j => g j * of_nat p))
    by (intros j Hj; rewrite sum_upto_const; ring).
  rewrite sum_upto_scale. ring.
Qed.

Lemma grid_sum_of_column (n p : nat) (h : nat -> Q) :
  grid_sum n p (fun _ k => h k) == of_nat n * sum_upto p h.
Proof. unfold grid_sum. apply sum_upto_const. Qed.

Lemma rows_transmit (prev : matrix) (e : Q) : rows (transmit prev e) = rows prev.
Proof.
  unfold transmit. destruct (transmit_marginals _ _ _ _ _). apply rows_mtab.
Qed.

Lemma cols_transmit (prev : matrix) (e : Q) :
  (0 < rows prev)%nat -> cols (transmit prev e) = cols prev.
Proof.
  intros Hn. unfold transmit. destruct (transmit_marginals _ _ _ _ _).
  apply cols_mtab. exact Hn.
Qed.

(** The mass of the output of [transmit]: for an input of mass 1 it is 1 on
    square grids only (or when [e] is 0 or 1). *)
Lemma transmit_mass (prev : matrix) (e : Q) :
  (0 < rows prev)%nat -> (0 < cols prev)%nat ->
  msum (transmit prev e)
  == msum prev
     * ((1 - e) ^ 2
        + (1 - e) * e
          * (of_nat (cols prev) / of_nat (rows prev)
             + of_nat (rows prev) / of_nat (cols prev)))
     + e * e.
Proof.
  intros Hn Hp. unfold msum at 1.
  rewrite rows_transmit, cols_transmit by exact Hn.
  set (n := rows prev) in *. set (p := cols prev) in *.
  rewrite (grid_sum_ext _ _ _
    (fun j k =>
       mget prev j k * (1 - e) ^ 2
       + paternalMarginal prev j * ((1 - e) * e / of_nat n)
       + maternalMarginal prev k * ((1 - e) * e / of_nat p)
       + e * e / of_nat (p * n)))
    by (intros j k Hj Hk; apply transmit_cell; assumption).
  rewrite !grid_sum_plus.
  rewrite (grid_sum_times n p (mget prev)).
  rewrite (grid_sum_of_row n p
             (fun j => paternalMarginal prev j * ((1 - e) * e / of_nat n))).
  rewrite (grid_sum_of_column n p
             (fun k => maternalMarginal prev k * ((1 - e) * e / of_nat p))).
  rewrite (grid_sum_of_column n p (fun _ => e * e / of_nat (p * n))).
  rewrite !sum_upto_scale, sum_upto_const.
  assert (Hrow : sum_upto n (paternalMarginal prev) == msum prev) by reflexivity.
  assert (Hcol : sum_upto p (maternalMarginal prev) == msum prev).
  { unfold msum. fold n p. rewrite (grid_sum_swap n p (mget prev)). reflexivity. }
  rewrite Hrow, Hcol, of_nat_mul.
  assert (~ of_nat n == 0) by (apply of_nat_nonzero; exact Hn).
  assert (~ of_nat p == 0) by (apply of_nat_nonzero; exact Hp).
  change (grid_sum n p (mget prev)) with (msum prev).
  field. split; assumption.
Qed.

(** A concrete evaluation of both sides on a grid that is not square. *)
Lemma transmit_one_by_two :
  mget (transmit one_by_two (1 # 2)) 0 0 == 9 # 16
  /\ mget (transmit one_by_two (1 # 2)) 0 1 == 9 # 16
  /\ transmit_spec one_by_two (1 # 2) 0 0 == 1 # 2
  /\ transmit_spec one_by_two (1 # 2) 0 1 == 1 # 2.
Proof. repeat split; vm_compute; reflexivity. Qed.

(** C1 (transmit, lines 269-308): on the one-by-two grid [[1/2, 1/2]] with
    recombination rate 1/2 the cell (0,0) of the output is 9/16, while the
    four-term sum of the specification (maternal marginal over nPat, paternal
    marginal over nMat) is 1/2: the code divides the paternal marginal by
    nPat and the maternal marginal by nMat, so the claim fails on grids that
    are not square, and the output mass is 9/8 instead of 1. *)
Theorem transmit_mixes_up_grid_sizes :
  mget (transmit one_by_two (1 # 2)) 0 0 == 9 # 16
  /\ transmit_spec one_by_two (1 # 2) 0 0 == 1 # 2
  /\ ~ mget (transmit one_by_two (1 # 2)) 0 0 == transmit_spec one_by_two (1 # 2) 0 0
  /\ msum (transmit one_by_two (1 # 2)) == 9 # 8.
Proof.
  repeat split; try (vm_compute; reflexivity).
  intros H. vm_compute in H. discriminate H.
Qed.

(* ================================================================== *)
(** * Normalisation and the forward-backward posterior *)
(* ================================================================== *)

Lemma mdiv_checked_some (a : matrix) (s : Q) (m : matrix) :
  mdiv_checked a s = Some m -> ~ s == 0 /\ m = mdiv a s.
Proof.
  unfold mdiv_checked. destruct (Qeq_bool s 0) eqn:E; [discriminate|].
  intros H. injection H as <-. split; [|reflexivity].
  apply Qeq_bool_neq. exact E.
Qed.

Lemma bind_some {A B : Type} (x : option A) (f : A -> option B) (b : B) :
  bind x f = Some b -> exists a, x = Some a /\ f a = Some b.
Proof. destruct x as [a|]; simpl; [eauto | discriminate]. Qed.

(** A matrix divided by its own sum, when that is not zero, sums to 1. *)
Lemma msum_mdiv (a : matrix) (s : Q) :
  ~ s == 0 -> msum a == s -> msum (mdiv a s) == 1.
Proof.
  intros Hs Ha. unfold msum, mdiv. rewrite rows_mtab.
  destruct (rows a) as [|n] eqn:Hrows.
  - exfalso. apply Hs. rewrite <- Ha. unfold msum. rewrite Hrows. reflexivity.
  - rewrite cols_mtab by lia.
    rewrite (grid_sum_ext _ _ _ (fun j k => mget a j k * / s))
      by (intros j k Hj Hk; rewrite mget_mtab by assumption; reflexivity).
    unfold grid_sum.
    rewrite (sum_upto_ext _ _ (fun j => sum_upto (cols a) (mget a j) * / s))
      by (intros j Hj; apply sum_upto_scale).
    rewrite sum_upto_scale.
    unfold msum, grid_sum in Ha. rewrite Hrows in Ha. rewrite Ha.
    field. exact Hs.
Qed.

Lemma slice_upd_same (t : tensor) (i : nat) (m : matrix) :
  (i < dim0 t)%nat -> slice (upd t i m) i = m.
Proof. apply nth_upd_same. Qed.

Lemma slice_upd_other (t : tensor) (i i' : nat) (m : matrix) :
  i <> i' -> slice (upd t i m) i' = slice t i'.
Proof. apply nth_upd_other. Qed.

Lemma dim0_upd (t : tensor) (i : nat) (m : matrix) : dim0 (upd t i m) = dim0 t.
Proof. apply length_upd. Qed.

(** The last loop of the posterior leaves every locus with sum 1. *)
Lemma normalize_loci_sums (est post : tensor) :
  normalize_loci est = Some post ->
  dim0 post = dim0 est
  /\ forall i, (i < dim0 est)%nat -> msum (slice post i) == 1.
Proof.
  unfold normalize_loci.
  pose (P := fun (i0 : nat) (st : option tensor) =>
    match st with
    | None => True
    | Some e =>
        dim0 e = dim0 est
        /\ forall i, (i < i0)%nat -> msum (slice e i) == 1
    end).
  intros H.
  assert (Inv : P (dim0 est) (Some post)).
  { rewrite <- H. apply for_range_inv.
    - simpl. split; [reflexivity | intros; lia].
    - intros i0 [e|] Hi0 HP; simpl; [|exact I].
      destruct HP as [Hdim Hsum].
      destruct (mdiv_checked (slice e i0) (msum (slice e i0))) as [m|] eqn:E;
        simpl; [|exact I].
      apply mdiv_checked_some in E. destruct E as [Hnz ->].
      split.
      + rewrite dim0_upd. exact Hdim.
      + intros i Hi. destruct (Nat.eq_dec i0 i) as [->|Hne].
        * rewrite slice_upd_same by lia.
          apply msum_mdiv; [exact Hnz | reflexivity].
        * rewrite slice_upd_other by exact Hne. apply Hsum. lia. }
  exact Inv.
Qed.

(** The backward pass keeps the number of loci. *)
Lemma diploid_backward_dim0 (pe : tensor) (rr : vector) (b : tensor) :
  diploid_backward pe rr = Some b -> dim0 b = dim0 pe.
Proof.
  unfold diploid_backward. intros H.
  pose (P := fun (st : option tensor) =>
    match st with None => True | Some e => dim0 e = dim0 pe end).
  assert (Inv : P (Some b)).
  { rewrite <- H. apply for_range_down_inv.
    - simpl. unfold dim0, tfull. apply repeat_length.
    - intros i [e|] Hi HP; simpl; [|exact I].
      destruct (mdiv_checked _ _); simpl; [|exact I].
      rewrite dim0_upd. exact HP. }
  exact Inv.
Qed.

Lemma dim0_tmul (a b : tensor) : dim0 (tmul a b) = dim0 a.
Proof. unfold tmul, dim0. rewrite length_map, length_seq. reflexivity. Qed.

(** C3 (diploidForwardBackward, lines 370-386): when the posterior has a
    value, that is when no normalising sum on the way is zero, it has one
    slice for every locus of the emission tensor and the sum of the slice at
    every locus over all hypothesis pairs is 1, in exact arithmetic. *)
Theorem posterior_sums_to_one (point_estimate : tensor) (recombination_rate : vector)
    (posterior : tensor) :
  diploidForwardBackward point_estimate recombination_rate = Some posterior ->
  dim0 posterior = dim0 point_estimate
  /\ forall i, (i < dim0 point_estimate)%nat -> msum (slice posterior i) == 1.
Proof.
  unfold diploidForwardBackward. intros H.
  apply bind_some in H. destruct H as (est & Hb & H).
  apply bind_some in H. destruct H as (fwd & Hf & H).
  apply normalize_loci_sums in H. destruct H as [Hdim Hsum].
  rewrite dim0_tmul in Hdim, Hsum.
  rewrite (diploid_backward_dim0 _ _ _ Hb) in Hdim, Hsum.
  split; assumption.
Qed.

Lemma posterior_sums_to_one_witness :
  dim0 skew_posterior = dim0 skew_emission
  /\ forall i, (i < dim0 skew_emission)%nat -> msum (slice skew_posterior i) == 1.
Proof.
  apply (posterior_sums_to_one skew_emission half_rates skew_posterior).
  vm_compute. reflexivity.
Defined.

(* ================================================================== *)
(** * The forward pass at the first locus *)
(* ================================================================== *)

(** What the code leaves at locus 0: the emission at locus 0 divided by the
    sum of the emissions of every locus.  The loop starts at locus 1 and
    never writes locus 0 again. *)
Lemma diploid_forward_first_locus (pe : tensor) (rr : vector) (in_place : bool)
    (combined : tensor) :
  diploid_forward pe rr in_place = Some combined ->
  ~ tsum pe == 0
  /\ dim0 combined = dim0 pe
  /\ slice combined 0 = mdiv (slice pe 0) (tsum pe).
Proof.
  unfold diploid_forward. intros H.
  apply bind_some in H. destruct H as (first & Hfirst & H).
  apply mdiv_checked_some in Hfirst. destruct Hfirst as [Hnz ->].
  split; [exact Hnz|].
  assert (Hpos : (0 < dim0 pe)%nat).
  { destruct pe as [|m pe']; [|simpl; lia].
    exfalso. apply Hnz. reflexivity. }
  pose (P := fun (st : option tensor) =>
    match st with
    | None => True
    | Some c => dim0 c = dim0 pe /\ slice c 0 = mdiv (slice pe 0) (tsum pe)
    end).
  assert (Inv : P (Some combined)).
  { rewrite <- H. apply for_span_inv.
    - simpl. split; [apply dim0_upd | apply slice_upd_same; exact Hpos].
    - intros i [c|] Hi HP; simpl; [|exact I].
      destruct HP as [Hdim Hzero].
      destruct (mdiv_checked _ _); simpl; [|exact I].
      split.
      + rewrite !dim0_upd. exact Hdim.
      + rewrite !slice_upd_other by lia. exact Hzero. }
  exact Inv.
Qed.

(** With a single locus the two sums are the same, and locus 0 is
    normalised as the specification says. *)
Lemma diploid_forward_single_locus (m : matrix) (rr : vector) (in_place : bool)
    (combined : tensor) :
  diploid_forward [m] rr in_place = Some combined ->
  msum (slice combined 0) == 1.
Proof.
  intros H. apply diploid_forward_first_locus in H.
  destruct H as (Hnz & _ & ->).
  apply msum_mdiv; [exact Hnz|].
  unfold tsum, msum. simpl. unfold dim1, dim2, slice. simpl.
  rewrite (grid_sum_ext _ _ (tget [m] 0) (mget m)) by (intros; reflexivity).
  ring.
Qed.

(** C2 (diploid_forward, lines 311-341): for uninformative emissions at two
    loci on a one-by-two grid the forward pass returns, at locus 0, the
    cells 1/4 and 1/4, which sum to 1/2; the emission at locus 0 divided by
    its own sum is 1/2 and 1/2.  The code divides by [np.sum(combined[:,:])],
    the sum over every locus, where its comment asks for the first locus to
    be normalised. *)
Theorem diploid_forward_first_locus_not_normalized :
  exists combined,
    diploid_forward flat_emission half_rates false = Some combined
    /\ diploid_forward flat_emission half_rates true = Some combined
    /\ mget (slice combined 0) 0 0 == 1 # 4
    /\ mget (slice combined 0) 0 1 == 1 # 4
    /\ msum (slice combined 0) == 1 # 2
    /\ msum (slice flat_emission 0) == 2
    /\ mget (forward_first_spec flat_emission) 0 0 == 1 # 2
    /\ ~ msum (slice combined 0) == 1.
Proof.
  eexists. split; [vm_compute; reflexivity|].
  repeat split; try (vm_compute; reflexivity).
  intros H. vm_compute in H. discriminate H.
Qed.

(* ================================================================== *)
(** * The entry point and the calling methods that are not implemented *)
(* ================================================================== *)


(** Lines 9-41 can stop the call before the dispatch on the calling method
    is reached: a new individual has no genotypes to take the length of. *)
Lemma diploidHMM_without_genotypes
    (getGenotypeProbabilities_ind : individual -> matrix) (ind : individual)
    (paternalHaplotypes maternalHaplotypes : imatrix) (error recombinationRate : rate)
    (callingMethod : string) (useCalledHaps includeGenoProbs : bool) :
  genotypes ind = None ->
  diploidHMM getGenotypeProbabilities_ind ind paternalHaplotypes maternalHaplotypes
    error recombinationRate callingMethod useCalledHaps includeGenoProbs
  = stopped [] "TypeError" "object of type 'NoneType' has no len()".
Proof.
  intros H. unfold diploidHMM. rewrite H. reflexivity.
Qed.

(** An individual without haplotypes cannot be typed on its called
    haplotypes. *)
Lemma diploidHMM_without_haplotypes
    (getGenotypeProbabilities_ind : individual -> matrix) (ind : individual)
    (indGenotypes : ivector)
    (paternalHaplotypes maternalHaplotypes : imatrix) (error recombinationRate : rate)
    (callingMethod : string) (includeGenoProbs : bool) :
  genotypes ind = Some indGenotypes ->
  haplotypes ind = None ->
  diploidHMM getGenotypeProbabilities_ind ind paternalHaplotypes maternalHaplotypes
    error recombinationRate callingMethod true includeGenoProbs
  = stopped [] "TypeError" "'NoneType' object is not subscriptable".
Proof.
  intros Hg Hh. unfold diploidHMM. rewrite Hg, Hh. reflexivity.
Qed.

(** With two loci and a library without haplotypes the emission tensor is
    built and the forward-backward pass stops in [transmit]. *)
Example diploidHMM_empty_library :
  diploidHMM no_probabilities two_locus_individual empty_library maternal_library
    (Float (1 # 10)) (Float 0) "viterbi" true false
  = stopped [EmissionConstruction [[]; []]] "ZeroDivisionError" "division by zero".
Proof. vm_compute. reflexivity. Qed.

Example diploidHMM_new_individual :
  diploidHMM no_probabilities new_individual paternal_library maternal_library
    (Float (1 # 10)) (Float 0) "callhaps" true false
  = stopped [] "TypeError" "object of type 'NoneType' has no len()".
Proof. reflexivity. Qed.

Example diploidHMM_genotyped_individual :
  diploidHMM no_probabilities genotyped_individual paternal_library maternal_library
    (Float (1 # 10)) (Float 0) "callhaps" true false
  = stopped [] "TypeError" "'NoneType' object is not subscriptable".
Proof. reflexivity. Qed.



(* ================================================================== *)
(** * Writes into matrices *)
(* ================================================================== *)

Lemma upd_beyond {A : Type} (l : list A) (i : nat) (v : A) :
  (List.length l <= i)%nat -> upd l i v = l.
Proof.
  revert i; induction l as [|h t IH]; intros [|i] Hi; simpl in *;
    try reflexivity; try lia.
  f_equal. apply IH. lia.
Qed.

Lemma row_mupd_same (m : matrix) (j k : nat) (v : Q) :
  row (mupd m j k v) j = upd (row m j) k v.
Proof.
  unfold mupd, row. destruct (Nat.lt_ge_cases j (List.length m)) as [Hlt|Hge].
  - apply nth_upd_same. exact Hlt.
  - rewrite upd_beyond by exact Hge.
    rewrite (nth_overflow m [] Hge). reflexivity.
Qed.

Lemma row_mupd_other (m : matrix) (j j' k : nat) (v : Q) :
  j <> j' -> row (mupd m j k v) j' = row m j'.
Proof. intros Hne. unfold mupd, row. apply nth_upd_other. exact Hne. Qed.

Lemma mget_mupd_same (m : matrix) (j k : nat) (v : Q) :
  (k < List.length (row m j))%nat -> mget (mupd m j k v) j k = v.
Proof.
  intros Hk. unfold mget. rewrite row_mupd_same. apply vget_upd_same. exact Hk.
Qed.

Lemma mget_mupd_other (m : matrix) (j k j' k' : nat) (v : Q) :
  j <> j' \/ k <> k' -> mget (mupd m j k v) j' k' = mget m j' k'.
Proof.
  intros Hne. unfold mget. destruct (Nat.eq_dec j j') as [<-|Hj].
  - rewrite row_mupd_same. apply vget_upd_other. destruct Hne; congruence.
  - rewrite row_mupd_other by exact Hj. reflexivity.
Qed.

Lemma mshape_mupd (m : matrix) (n p j k : nat) (v : Q) :
  mshape m n p -> mshape (mupd m j k v) n p.
Proof.
  intros [Hr Hc]. split.
  - unfold rows, mupd. rewrite length_upd. exact Hr.
  - intros j' Hj'. destruct (Nat.eq_dec j j') as [<-|Hne].
    + rewrite row_mupd_same, length_upd. apply Hc. exact Hj'.
    + rewrite row_mupd_other by exact Hne. apply Hc. exact Hj'.
Qed.

Lemma mshape_mfull (n p : nat) (c : Q) : mshape (mfull n p c) n p.
Proof.
  split.
  - unfold rows, mfull. apply repeat_length.
  - intros j Hj. unfold row, mfull. rewrite nth_repeat_lt by exact Hj.
    unfold vfull. apply repeat_length.
Qed.

Lemma mget_mfull (n p j k : nat) (c : Q) :
  (j < n)%nat -> (k < p)%nat -> mget (mfull n p c) j k = c.
Proof.
  intros Hj Hk. unfold mget, row, mfull. rewrite nth_repeat_lt by exact Hj.
  apply vget_vfull. exact Hk.
Qed.

Lemma mshape_cols (m : matrix) (n p : nat) :
  mshape m n p -> (0 < n)%nat -> cols m = p.
Proof. intros [_ Hc] Hn. apply Hc. exact Hn. Qed.

(** Case analysis on the index tests that the closed forms are written with. *)
Ltac index_cases :=
  repeat match goal with
  | |- context [(?a =? ?b)%nat] => destruct (Nat.eqb_spec a b)
  | |- context [(?a <? ?b)%nat] => destruct (Nat.ltb_spec a b)
  end;
  subst; simpl; try lia; try ring.

(* ================================================================== *)
(** * The corrective kernel of the sampler *)
(* ================================================================== *)

(** The loop [for k: output[r, k] += a] adds [a] along row [r]. *)
Lemma add_along_row (out : matrix) (n p r : nat) (a : Q) :
  mshape out n p ->
  let out' := for_range p (fun k o => mupd o r k (mget o r k + a)) out in
  mshape out' n p
  /\ forall j k, (j < n)%nat -> (k < p)%nat ->
       mget out' j k == mget out j k + (if (j =? r)%nat then a else 0).
Proof.
  intros Hshape out'.
  assert (Inv : mshape out' n p
    /\ forall j k, (j < n)%nat -> (k < p)%nat ->
         mget out' j k
         == mget out j k + (if ((j =? r) && (k <? p))%nat then a else 0)).
  { subst out'.
    apply (for_range_inv (fun k0 o =>
      mshape o n p
      /\ forall j k, (j < n)%nat -> (k < p)%nat ->
           mget o j k
           == mget out j k + (if ((j =? r) && (k <? k0))%nat then a else 0))).
    - split; [exact Hshape|]. intros j k Hj Hk.
      rewrite Bool.andb_false_r. ring.
    - intros k0 o Hk0 [Ho Hcell]. split; [apply mshape_mupd; exact Ho|].
      intros j k Hj Hk.
      destruct (Nat.eq_dec r j) as [->|Hr]; [destruct (Nat.eq_dec k0 k) as [->|Hk']|].
      + rewrite mget_mupd_same by (rewrite (proj2 Ho j Hj); exact Hk).
        rewrite (Hcell j k Hj Hk). index_cases.
      + rewrite mget_mupd_other by (right; exact Hk').
        rewrite (Hcell j k Hj Hk). index_cases.
      + rewrite mget_mupd_other by (left; exact Hr).
        rewrite (Hcell j k Hj Hk). index_cases. }
  destruct Inv as [Ho Hcell]. split; [exact Ho|].
  intros j k Hj Hk. rewrite (Hcell j k Hj Hk). index_cases.
Qed.

(** The loop [for j: output[j, c] += b] adds [b] along column [c]. *)
Lemma add_along_column (out : matrix) (n p c : nat) (b : Q) :
  mshape out n p ->
  let out' := for_range n (fun j o => mupd o j c (mget o j c + b)) out in
  mshape out' n p
  /\ forall j k, (j < n)%nat -> (k < p)%nat ->
       mget out' j k == mget out j k + (if (k =? c)%nat then b else 0).
Proof.
  intros Hshape out'.
  assert (Inv : mshape out' n p
    /\ forall j k, (j < n)%nat -> (k < p)%nat ->
         mget out' j k
         == mget out j k + (if ((k =? c) && (j <? n))%nat then b else 0)).
  { subst out'.
    apply (for_range_inv (fun j0 o =>
      mshape o n p
      /\ forall j k, (j < n)%nat -> (k < p)%nat ->
           mget o j k
           == mget out j k + (if ((k =? c) && (j <? j0))%nat then b else 0))).
    - split; [exact Hshape|]. intros j k Hj Hk.
      rewrite Bool.andb_false_r. ring.
    - intros j0 o Hj0 [Ho Hcell]. split; [apply mshape_mupd; exact Ho|].
      intros j k Hj Hk.
      destruct (Nat.eq_dec j0 j) as [->|Hj']; [destruct (Nat.eq_dec c k) as [->|Hc]|].
      + rewrite mget_mupd_same by (rewrite (proj2 Ho j Hj); exact Hk).
        rewrite (Hcell j k Hj Hk). index_cases.
      + rewrite mget_mupd_other by (right; exact Hc).
        rewrite (Hcell j k Hj Hk). index_cases.
      + rewrite mget_mupd_other by (left; exact Hj').
        rewrite (Hcell j k Hj Hk). index_cases. }
  destruct Inv as [Ho Hcell]. split; [exact Ho|].
  intros j k Hj Hk. rewrite (Hcell j k Hj Hk). index_cases.
Qed.

(** The kernel in closed form, cell by cell. *)
Lemma backward_kernel_cell (n_pat n_mat pat_hap mat_hap : nat) (e : Q) :
  mshape (backward_kernel n_pat n_mat pat_hap mat_hap e) n_pat n_mat
  /\ forall j k, (j < n_pat)%nat -> (k < n_mat)%nat ->
       mget (backward_kernel n_pat n_mat pat_hap mat_hap e) j k
       == (if ((j =? pat_hap) && (k =? mat_hap))%nat then (1 - e) ^ 2 else 0)
          + (if (j =? pat_hap)%nat then (1 - e) * e / of_nat n_mat else 0)
          + (if (k =? mat_hap)%nat then (1 - e) * e / of_nat n_pat else 0)
          + e * e / of_nat (n_mat * n_pat).
Proof.
  unfold backward_kernel. cbv zeta.
  set (c := e * e / of_nat (n_mat * n_pat)).
  pose proof (add_along_row (mfull n_pat n_mat c) n_pat n_mat pat_hap
                ((1 - e) * e / of_nat n_mat) (mshape_mfull _ _ _)) as H1.
  cbv zeta in H1. destruct H1 as [S1 C1].
  set (out1 := for_range n_mat _ (mfull n_pat n_mat c)) in *.
  pose proof (add_along_column out1 n_pat n_mat mat_hap
                ((1 - e) * e / of_nat n_pat) S1) as H2.
  cbv zeta in H2. destruct H2 as [S2 C2].
  set (out2 := for_range n_pat _ out1) in *.
  split; [apply mshape_mupd; exact S2|].
  intros j k Hj Hk.
  destruct (Nat.eq_dec pat_hap j) as [->|Hp]; [destruct (Nat.eq_dec mat_hap k) as [->|Hm]|].
  - rewrite mget_mupd_same by (rewrite (proj2 S2 j Hj); exact Hk).
    rewrite (C2 j k Hj Hk), (C1 j k Hj Hk), mget_mfull by assumption.
    index_cases.
  - rewrite mget_mupd_other by (right; exact Hm).
    rewrite (C2 j k Hj Hk), (C1 j k Hj Hk), mget_mfull by assumption.
    index_cases.
  - rewrite mget_mupd_other by (left; exact Hp).
    rewrite (C2 j k Hj Hk), (C1 j k Hj Hk), mget_mfull by assumption.
    index_cases.
Qed.

Lemma sum_upto_at_lt (n p : nat) (a : Q) :
  (p < n)%nat -> sum_upto n (fun i => if (i =? p)%nat then a else 0) == a.
Proof.
  intros Hp. rewrite sum_upto_at.
  replace (p <? n)%nat with true by (symmetry; apply Nat.ltb_lt; exact Hp).
  reflexivity.
Qed.

(** The sum of one row of a grid that carries [d] at one cell [(p, m)], [a]
    along row [p], [b] along column [m] and [c] everywhere. *)
Lemma kernel_row_sum (n_mat p m j : nat) (a b c d : Q) :
  (m < n_mat)%nat ->
  sum_upto n_mat (fun k =>
    (if ((j =? p) && (k =? m))%nat then d else 0)
    + (if (j =? p)%nat then a else 0)
    + (if (k =? m)%nat then b else 0) + c)
  == (if (j =? p)%nat then d + of_nat n_mat * a else 0) + (b + of_nat n_mat * c).
Proof.
  intros Hm. rewrite !sum_upto_plus, !sum_upto_const, (sum_upto_at_lt n_mat m b Hm).
  destruct (j =? p)%nat; simpl.
  - rewrite (sum_upto_at_lt n_mat m d Hm). ring.
  - rewrite sum_upto_const. ring.
Qed.

Lemma kernel_grid_sum (n_pat n_mat p m : nat) (a b c d : Q) :
  (p < n_pat)%nat -> (m < n_mat)%nat ->
  grid_sum n_pat n_mat (fun j k =>
    (if ((j =? p) && (k =? m))%nat then d else 0)
    + (if (j =? p)%nat then a else 0)
    + (if (k =? m)%nat then b else 0) + c)
  == d + of_nat n_mat * a + of_nat n_pat * b + of_nat n_pat * of_nat n_mat * c.
Proof.
  intros Hp Hm. unfold grid_sum.
  rewrite (sum_upto_ext _ _ (fun j =>
             (if (j =? p)%nat then d + of_nat n_mat * a else 0)
             + (b + of_nat n_mat * c)))
    by (intros j Hj; apply kernel_row_sum; exact Hm).
  rewrite sum_upto_plus, sum_upto_const, (sum_upto_at_lt n_pat p _ Hp). ring.
Qed.

(** C10 (combine_backward_sampled_value, lines 476-497): for every
    recombination rate [e], in particular for every [e] between 0 and 1,
    every grid size and every sampled pair on the grid, the additive kernel
    built before the multiplication by the previous estimate sums to 1 over
    the grid. *)
Theorem backward_kernel_sums_to_one (n_pat n_mat pat_hap mat_hap : nat) (e : Q) :
  (pat_hap < n_pat)%nat -> (mat_hap < n_mat)%nat ->
  msum (backward_kernel n_pat n_mat pat_hap mat_hap e) == 1.
Proof.
  intros Hp Hm.
  destruct (backward_kernel_cell n_pat n_mat pat_hap mat_hap e) as [Hshape Hcell].
  unfold msum. rewrite (proj1 Hshape), (mshape_cols _ _ _ Hshape) by lia.
  rewrite (grid_sum_ext _ _ _ _ Hcell).
  rewrite kernel_grid_sum by assumption.
  rewrite of_nat_mul.
  field. split; apply of_nat_nonzero; lia.
Qed.

Lemma backward_kernel_sums_to_one_witness :
  msum (backward_kernel 2 3 1 2 (1 # 4)) == 1.
Proof. apply (backward_kernel_sums_to_one 2 3 1 2 (1 # 4)); lia. Defined.

Lemma mmul_cell (a b : matrix) (n p j k : nat) :
  mshape a n p -> (j < n)%nat -> (k < p)%nat ->
  mget (mmul a b) j k = mget a j k * mget b j k.
Proof.
  intros Hshape Hj Hk. unfold mmul.
  rewrite (proj1 Hshape), (mshape_cols _ _ _ Hshape) by lia.
  apply mget_mtab; assumption.
Qed.

(** C6 (diploidOneSample, lines 406-437, and
    combine_backward_sampled_value, lines 462-501): at every locus [i] before
    the last, with the pair [(patIdx, matIdx)] sampled at locus [i+1] and the
    recombination rate [e] that the code reads for that step,
    [recombination_rate[i+1]], the weights handed to the sampling routine
    are, cell by cell, the forward-combined distribution at locus [i] times
    the kernel: [(1-e)^2] at the sampled pair, [(1-e)e/nMat] on the cells
    that share the sampled paternal index, [(1-e)e/nPat] on the cells that
    share the sampled maternal index, and [e^2/(nPat*nMat)] everywhere. *)
Theorem sampling_weights_corrective_kernel (forward_probs : tensor)
    (recombination_rate : vector) (paternal_indices maternal_indices : list nat)
    (i j k : nat) :
  let nPat := rows (slice forward_probs i) in
  let nMat := cols (slice forward_probs i) in
  let patIdx := nth (i + 1) paternal_indices 0%nat in
  let matIdx := nth (i + 1) maternal_indices 0%nat in
  let e := vget recombination_rate (i + 1) in
  (i + 1 < dim0 forward_probs)%nat ->
  (j < nPat)%nat -> (k < nMat)%nat ->
  (patIdx < nPat)%nat -> (matIdx < nMat)%nat ->
  mget (sampling_weights forward_probs recombination_rate
          paternal_indices maternal_indices i) j k
  == ((if ((j =? patIdx) && (k =? matIdx))%nat then (1 - e) ^ 2 else 0)
      + (if (j =? patIdx)%nat then (1 - e) * e / of_nat nMat else 0)
      + (if (k =? matIdx)%nat then (1 - e) * e / of_nat nPat else 0)
      + e ^ 2 / (of_nat nPat * of_nat nMat))
     * tget forward_probs i j k.
Proof.
  intros nPat nMat patIdx matIdx e Hi Hj Hk Hp Hm.
  unfold sampling_weights.
  replace (i =? dim0 forward_probs - 1)%nat with false
    by (symmetry; apply Nat.eqb_neq; lia).
  unfold combine_backward_sampled_value. cbv zeta.
  fold nPat nMat patIdx matIdx e.
  destruct (backward_kernel_cell nPat nMat patIdx matIdx e) as [Hshape Hcell].
  rewrite (mmul_cell _ _ nPat nMat j k Hshape Hj Hk).
  rewrite (Hcell j k Hj Hk), of_nat_mul. unfold tget.
  assert (~ of_nat nPat == 0) by (apply of_nat_nonzero; lia).
  assert (~ of_nat nMat == 0) by (apply of_nat_nonzero; lia).
  destruct ((j =? patIdx) && (k =? matIdx))%nat, (j =? patIdx)%nat, (k =? matIdx)%nat;
    field; split; assumption.
Qed.

Lemma sampling_weights_corrective_kernel_witness :
  mget (sampling_weights two_forward half_rates drawn_paternal drawn_maternal 0) 1 0
  == ((if ((1 =? 1) && (0 =? 0))%nat then (1 - (1 # 2)) ^ 2 else 0)
      + (if (1 =? 1)%nat then (1 - (1 # 2)) * (1 # 2) / of_nat 2 else 0)
      + (if (0 =? 0)%nat then (1 - (1 # 2)) * (1 # 2) / of_nat 2 else 0)
      + (1 # 2) ^ 2 / (of_nat 2 * of_nat 2))
     * tget two_forward 0 1 0.
Proof.
  apply (sampling_weights_corrective_kernel two_forward half_rates
           drawn_paternal drawn_maternal 0 1 0); vm_compute; lia.
Defined.

(* ================================================================== *)
(** * Writes into three-dimensional arrays *)
(* ================================================================== *)

Lemma slice_tupd_same (t : tensor) (i j k : nat) (v : Q) :
  slice (tupd t i j k v) i = mupd (slice t i) j k v.
Proof.
  unfold tupd, slice. destruct (Nat.lt_ge_cases i (List.length t)) as [Hlt|Hge].
  - apply nth_upd_same. exact Hlt.
  - rewrite upd_beyond by exact Hge.
    rewrite (nth_overflow t [] Hge). reflexivity.
Qed.

Lemma slice_tupd_other (t : tensor) (i i' j k : nat) (v : Q) :
  i <> i' -> slice (tupd t i j k v) i' = slice t i'.
Proof. intros Hne. unfold tupd, slice. apply nth_upd_other. exact Hne. Qed.

Lemma tshape_tupd (t : tensor) (n p q i j k : nat) (v : Q) :
  tshape t n p q -> tshape (tupd t i j k v) n p q.
Proof.
  intros [Hn Hs]. split.
  - unfold dim0, tupd. rewrite length_upd. exact Hn.
  - intros i' Hi'. destruct (Nat.eq_dec i i') as [<-|Hne].
    + rewrite slice_tupd_same. apply mshape_mupd. apply Hs. exact Hi'.
    + rewrite slice_tupd_other by exact Hne. apply Hs. exact Hi'.
Qed.

Lemma tget_tupd_same (t : tensor) (n p q i j k : nat) (v : Q) :
  tshape t n p q -> (i < n)%nat -> (j < p)%nat -> (k < q)%nat ->
  tget (tupd t i j k v) i j k = v.
Proof.
  intros [_ Hs] Hi Hj Hk. unfold tget. rewrite slice_tupd_same.
  apply mget_mupd_same. rewrite (proj2 (Hs i Hi) j Hj). exact Hk.
Qed.

Lemma tget_tupd_other (t : tensor) (i j k i' j' k' : nat) (v : Q) :
  i <> i' \/ j <> j' \/ k <> k' ->
  tget (tupd t i j k v) i' j' k' = tget t i' j' k'.
Proof.
  intros Hne. unfold tget. destruct (Nat.eq_dec i i') as [<-|Hi].
  - rewrite slice_tupd_same. apply mget_mupd_other.
    destruct Hne as [H|[H|H]]; [congruence | left; exact H | right; exact H].
  - rewrite slice_tupd_other by exact Hi. reflexivity.
Qed.

Lemma tshape_tfull (n p q : nat) (c : Q) : tshape (tfull n p q c) n p q.
Proof.
  split.
  - unfold dim0, tfull. apply repeat_length.
  - intros i Hi. unfold slice, tfull. rewrite nth_repeat_lt by exact Hi.
    apply mshape_mfull.
Qed.

Lemma tget_tfull (n p q i j k : nat) (c : Q) :
  (i < n)%nat -> (j < p)%nat -> (k < q)%nat -> tget (tfull n p q c) i j k = c.
Proof.
  intros Hi Hj Hk. unfold tget, slice, tfull. rewrite nth_repeat_lt by exact Hi.
  apply mget_mfull; assumption.
Qed.

Lemma for_range_ext {S : Type} (n : nat) (body body' : nat -> S -> S) (s : S) :
  (forall i st, (i < n)%nat -> body i st = body' i st) ->
  for_range n body s = for_range n body' s.
Proof.
  intros H. induction n as [|n IH].
  - reflexivity.
  - rewrite !for_range_S, IH by (intros; apply H; lia). apply H. lia.
Qed.

Ltac cell_cases :=
  repeat match goal with
  | |- context [(?a =? ?b)%nat] => destruct (Nat.eqb_spec a b)
  | |- context [(?a <? ?b)%nat] => destruct (Nat.ltb_spec a b)
  end;
  subst; simpl; try reflexivity; try lia.

(** A loop that assigns the cells of one row [(i, j)] of a tensor. *)
Lemma fill_row_cells (t0 : tensor) (n p q i j : nat) (v : nat -> Q) :
  tshape t0 n p q -> (i < n)%nat -> (j < p)%nat ->
  let t := for_range q (fun k t => tupd t i j k (v k)) t0 in
  tshape t n p q
  /\ forall i' j' k',
       tget t i' j' k'
       = if ((i' =? i) && (j' =? j) && (k' <? q))%nat then v k' else tget t0 i' j' k'.
Proof.
  intros Hshape Hi Hj t. subst t.
  apply (for_range_inv (fun k0 t =>
    tshape t n p q
    /\ forall i' j' k',
         tget t i' j' k'
         = if ((i' =? i) && (j' =? j) && (k' <? k0))%nat
           then v k' else tget t0 i' j' k')).
  - split; [exact Hshape|]. intros i' j' k'.
    rewrite Bool.andb_false_r. reflexivity.
  - intros k0 t Hk0 [Ht Hcell]. split; [apply tshape_tupd; exact Ht|].
    intros i' j' k'.
    destruct (Nat.eq_dec i i') as [<-|Hi'];
      [destruct (Nat.eq_dec j j') as [<-|Hj'];
       [destruct (Nat.eq_dec k0 k') as [<-|Hk']| ] | ].
    + rewrite (tget_tupd_same t n p q) by assumption. cell_cases.
    + rewrite tget_tupd_other by (right; right; exact Hk').
      rewrite Hcell. cell_cases.
    + rewrite tget_tupd_other by (right; left; exact Hj').
      rewrite Hcell. cell_cases.
    + rewrite tget_tupd_other by (left; exact Hi').
      rewrite Hcell. cell_cases.
Qed.

(** The double loop that assigns the cells of one locus. *)
Lemma fill_slice_cells (t0 : tensor) (n p q i : nat) (v : nat -> nat -> Q) :
  tshape t0 n p q -> (i < n)%nat ->
  let t := for_range p (fun j t => for_range q (fun k t => tupd t i j k (v j k)) t) t0 in
  tshape t n p q
  /\ forall i' j' k',
       tget t i' j' k'
       = if ((i' =? i) && (j' <? p) && (k' <? q))%nat then v j' k' else tget t0 i' j' k'.
Proof.
  intros Hshape Hi t. subst t.
  apply (for_range_inv (fun j0 t =>
    tshape t n p q
    /\ forall i' j' k',
         tget t i' j' k'
         = if ((i' =? i) && (j' <? j0) && (k' <? q))%nat
           then v j' k' else tget t0 i' j' k')).
  - split; [exact Hshape|]. intros i' j' k'.
    rewrite Bool.andb_false_r. reflexivity.
  - intros j0 t Hj0 [Ht Hcell].
    pose proof (fill_row_cells t n p q i j0 (v j0) Ht Hi Hj0) as R.
    cbv zeta in R. destruct R as [Ht' Hrow].
    split; [exact Ht'|].
    intros i' j' k'. rewrite Hrow, Hcell. cell_cases.
Qed.

(** The triple loop over the loci that pass a test [c]. *)
Lemma fill_tensor_cells (t0 : tensor) (n p q : nat) (c : nat -> bool)
    (v : nat -> nat -> nat -> Q) :
  tshape t0 n p q ->
  let t :=
    for_range n (fun i t =>
      if c i
      then for_range p (fun j t => for_range q (fun k t => tupd t i j k (v i j k)) t) t
      else t) t0 in
  tshape t n p q
  /\ forall i' j' k',
       tget t i' j' k'
       = if ((i' <? n) && c i' && (j' <? p) && (k' <? q))%nat
         then v i' j' k' else tget t0 i' j' k'.
Proof.
  intros Hshape t. subst t.
  apply (for_range_inv (fun i0 t =>
    tshape t n p q
    /\ forall i' j' k',
         tget t i' j' k'
         = if ((i' <? i0) && c i' && (j' <? p) && (k' <? q))%nat
           then v i' j' k' else tget t0 i' j' k')).
  - split; [exact Hshape|]. intros i' j' k'. reflexivity.
  - intros i0 t Hi0 [Ht Hcell]. destruct (c i0) eqn:Hc.
    + pose proof (fill_slice_cells t n p q i0 (v i0) Ht Hi0) as R.
      cbv zeta in R. destruct R as [Ht' Hslice].
      split; [exact Ht'|].
      intros i' j' k'. rewrite Hslice, Hcell.
      destruct (Nat.eqb_spec i' i0) as [->|Hne].
      * rewrite Hc. cell_cases.
      * cell_cases.
    + split; [exact Ht|].
      intros i' j' k'. rewrite Hcell.
      destruct (Nat.eqb_spec i' i0) as [->|Hne].
      * rewrite Hc. cell_cases.
      * cell_cases.
Qed.

(* ================================================================== *)
(** * The emission model with called genotypes *)
(* ================================================================== *)

(** Every cell of the emission tensor: 1 at a locus whose genotype is
    missing, the stored weight elsewhere. *)
Lemma getDiploidPointEstimates_cell (indGeno indPatHap indMatHap : ivector)
    (paternalHaplotypes maternalHaplotypes : imatrix) (error : vector) (i j k : nat) :
  (i < icols maternalHaplotypes)%nat ->
  (j < irows paternalHaplotypes)%nat ->
  (k < irows maternalHaplotypes)%nat ->
  tget (getDiploidPointEstimates indGeno indPatHap indMatHap
          paternalHaplotypes maternalHaplotypes error) i j k
  = if negb (iget indGeno i =? 9)%Z
    then stored_weight indGeno indPatHap indMatHap
           paternalHaplotypes maternalHaplotypes error i j k
    else 1.
Proof.
  intros Hi Hj Hk. unfold getDiploidPointEstimates. cbv zeta.
  set (nPat := irows paternalHaplotypes) in *.
  set (nMat := irows maternalHaplotypes) in *.
  set (nLoci := icols maternalHaplotypes) in *.
  rewrite (for_range_ext nLoci _
    (fun i t =>
       if negb (iget indGeno i =? 9)%Z
       then for_range nPat (fun j t =>
              for_range nMat (fun k t =>
                tupd t i j k
                  (stored_weight indGeno indPatHap indMatHap
                     paternalHaplotypes maternalHaplotypes error i j k)) t) t
       else t)).
  - pose proof (fill_tensor_cells (tfull nLoci nPat nMat 1) nLoci nPat nMat
                  (fun i => negb (iget indGeno i =? 9)%Z)
                  (stored_weight indGeno indPatHap indMatHap
                     paternalHaplotypes maternalHaplotypes error)
                  (tshape_tfull _ _ _ _)) as R.
    cbv zeta in R. destruct R as [_ Hcell]. rewrite Hcell.
    rewrite tget_tfull by assumption.
    replace (i <? nLoci)%nat with true by (symmetry; apply Nat.ltb_lt; exact Hi).
    replace (j <? nPat)%nat with true by (symmetry; apply Nat.ltb_lt; exact Hj).
    replace (k <? nMat)%nat with true by (symmetry; apply Nat.ltb_lt; exact Hk).
    simpl. rewrite !Bool.andb_true_r. reflexivity.
  - intros i' t _. destruct (negb (iget indGeno i' =? 9)%Z); [|reflexivity].
    apply for_range_ext. intros j' t' _.
    apply for_range_ext. intros k' t'' _.
    unfold stored_weight.
    destruct (negb (iget indPatHap i' =? 9)%Z && negb (iget indMatHap i' =? 9)%Z).
    + reflexivity.
    + destruct (_ =? _)%Z; reflexivity.
Qed.

(** C7 (getDiploidPointEstimates, lines 100-129): at a locus whose genotype
    is not missing and where one of the two phased alleles is missing
    (code 9), the weight of every hypothesis pair is [1 - error[i]^2] when
    the two hypothesis alleles add up to the observed genotype, and
    [error[i]^2] otherwise. *)
Theorem unphased_emission_weight (indGeno indPatHap indMatHap : ivector)
    (paternalHaplotypes maternalHaplotypes : imatrix) (error : vector) (i j k : nat) :
  (i < icols maternalHaplotypes)%nat ->
  (j < irows paternalHaplotypes)%nat ->
  (k < irows maternalHaplotypes)%nat ->
  iget indGeno i <> 9%Z ->
  iget indPatHap i = 9%Z \/ iget indMatHap i = 9%Z ->
  tget (getDiploidPointEstimates indGeno indPatHap indMatHap
          paternalHaplotypes maternalHaplotypes error) i j k
  == if (imget paternalHaplotypes j i + imget maternalHaplotypes k i =? iget indGeno i)%Z
     then 1 - vget error i ^ 2
     else vget error i ^ 2.
Proof.
  intros Hi Hj Hk Hgeno Hmissing.
  rewrite getDiploidPointEstimates_cell by assumption.
  replace (iget indGeno i =? 9)%Z with false by (symmetry; apply Z.eqb_neq; exact Hgeno).
  simpl negb. cbv iota. unfold stored_weight.
  replace (negb (iget indPatHap i =? 9)%Z && negb (iget indMatHap i =? 9)%Z)
    with false.
  - destruct (_ =? _)%Z; ring.
  - symmetry. destruct Hmissing as [-> | ->]; simpl.
    + reflexivity.
    + apply Bool.andb_false_r.
Qed.

(** C9 (getDiploidPointEstimates, lines 100-129): at a locus whose genotype
    is missing (code 9) the weight of every hypothesis pair is 1, whatever
    the two phased alleles are, missing or not. *)
Theorem missing_genotype_emission_weight (indGeno indPatHap indMatHap : ivector)
    (paternalHaplotypes maternalHaplotypes : imatrix) (error : vector) (i j k : nat) :
  (i < icols maternalHaplotypes)%nat ->
  (j < irows paternalHaplotypes)%nat ->
  (k < irows maternalHaplotypes)%nat ->
  iget indGeno i = 9%Z ->
  tget (getDiploidPointEstimates indGeno indPatHap indMatHap
          paternalHaplotypes maternalHaplotypes error) i j k
  == 1.
Proof.
  intros Hi Hj Hk Hgeno.
  rewrite getDiploidPointEstimates_cell by assumption.
  rewrite Hgeno. reflexivity.
Qed.

Lemma unphased_emission_weight_witness :
  tget (getDiploidPointEstimates seen_genotypes seen_paternal seen_maternal
          paternal_library maternal_library tenth_errors) 0 0 1
  == if (imget paternal_library 0 0 + imget maternal_library 1 0
         =? iget seen_genotypes 0)%Z
     then 1 - vget tenth_errors 0 ^ 2
     else vget tenth_errors 0 ^ 2.
Proof.
  apply (unphased_emission_weight seen_genotypes seen_paternal seen_maternal
           paternal_library maternal_library tenth_errors 0 0 1);
    vm_compute; lia.
Defined.

Lemma missing_genotype_emission_weight_witness :
  tget (getDiploidPointEstimates seen_genotypes seen_paternal seen_maternal
          paternal_library maternal_library tenth_errors) 1 0 1
  == 1.
Proof.
  apply (missing_genotype_emission_weight seen_genotypes seen_paternal seen_maternal
           paternal_library maternal_library tenth_errors 1 0 1);
    vm_compute; lia.
Defined.

(* ================================================================== *)
(** * The dosage decoder *)
(* ================================================================== *)

Lemma forallb_nth {A : Type} (f : A -> bool) (l : list A) (i : nat) (d : A) :
  forallb f l = true -> (i < List.length l)%nat -> f (nth i l d) = true.
Proof.
  intros H Hi. rewrite forallb_forall in H. apply H. apply nth_In. exact Hi.
Qed.

Lemma forallb_nth_default {A : Type} (f : A -> bool) (l : list A) (i : nat) (d : A) :
  forallb f l = true -> f d = true -> f (nth i l d) = true.
Proof.
  intros H Hd. destruct (Nat.lt_ge_cases i (List.length l)) as [Hlt|Hge].
  - apply forallb_nth; assumption.
  - rewrite nth_overflow by exact Hge. exact Hd.
Qed.

Lemma has_shape_tshape (t : tensor) (n p q : nat) :
  has_shape t n p q = true -> tshape t n p q.
Proof.
  unfold has_shape. intros H. apply andb_prop in H. destruct H as [Hn Hall].
  apply Nat.eqb_eq in Hn. split; [exact Hn|].
  intros i Hi.
  pose proof (forallb_nth _ t i [] Hall ltac:(lia)) as Hm. cbv beta in Hm.
  apply andb_prop in Hm. destruct Hm as [Hp Hrows].
  apply Nat.eqb_eq in Hp. split; [exact Hp|].
  intros j Hj.
  pose proof (forallb_nth _ (nth i t []) j [] Hrows ltac:(lia)) as Hr.
  cbv beta in Hr. apply Nat.eqb_eq in Hr. exact Hr.
Qed.

Lemma nonnegative_tget (t : tensor) (i j k : nat) :
  nonnegative t = true -> 0 <= tget t i j k.
Proof.
  intros H. unfold tget, mget, vget, slice, row.
  apply Qle_bool_iff.
  apply forallb_nth_default; [|reflexivity].
  apply forallb_nth_default; [|reflexivity].
  apply forallb_nth_default; [exact H|reflexivity].
Qed.

Lemma normalized_slice (t : tensor) (i : nat) :
  normalized t = true -> (i < dim0 t)%nat -> msum (slice t i) == 1.
Proof.
  intros H Hi. apply Qeq_bool_iff.
  apply (forallb_nth (fun m => Qeq_bool (msum m) 1) t i [] H Hi).
Qed.

Lemma binary_library_allele (h : imatrix) (nLoci j i : nat) :
  binary_library h nLoci = true -> (j < irows h)%nat -> (i < nLoci)%nat ->
  imget h j i = 0%Z \/ imget h j i = 1%Z.
Proof.
  intros H Hj Hi.
  pose proof (forallb_nth _ h j [] H Hj) as Hr. cbv beta in Hr.
  apply andb_prop in Hr. destruct Hr as [Hlen Hall]. apply Nat.eqb_eq in Hlen.
  pose proof (forallb_nth _ (nth j h []) i 0%Z Hall ltac:(lia)) as Ha.
  cbv beta in Ha. apply Bool.orb_true_iff in Ha. unfold imget, iget.
  destruct Ha as [Ha|Ha]; apply Z.eqb_eq in Ha; [left|right]; exact Ha.
Qed.

(** The loop [for k: d[i] += f k] adds the sum of [f] to [d[i]]. *)
Lemma accumulate_at (d0 : vector) (i n : nat) (f : nat -> Q) :
  (i < List.length d0)%nat ->
  let d := for_range n (fun k d => upd d i (vget d i + f k)) d0 in
  List.length d = List.length d0
  /\ vget d i == vget d0 i + sum_upto n f
  /\ forall i', i' <> i -> vget d i' = vget d0 i'.
Proof.
  intros Hi d. subst d.
  apply (for_range_inv (fun k0 d =>
    List.length d = List.length d0
    /\ vget d i == vget d0 i + sum_upto k0 f
    /\ forall i', i' <> i -> vget d i' = vget d0 i')).
  - repeat split. simpl. ring.
  - intros k0 d Hk0 (Hlen & Hsum & Hother). repeat split.
    + rewrite length_upd. exact Hlen.
    + rewrite vget_upd_same by lia. rewrite Hsum. simpl. ring.
    + intros i' Hne. rewrite vget_upd_other by congruence. apply Hother. exact Hne.
Qed.

Lemma accumulate_grid_at (d0 : vector) (i p q : nat) (f : nat -> nat -> Q) :
  (i < List.length d0)%nat ->
  let d :=
    for_range p (fun j d => for_range q (fun k d => upd d i (vget d i + f j k)) d) d0 in
  List.length d = List.length d0
  /\ vget d i == vget d0 i + grid_sum p q f
  /\ forall i', i' <> i -> vget d i' = vget d0 i'.
Proof.
  intros Hi d. subst d.
  apply (for_range_inv (fun j0 d =>
    List.length d = List.length d0
    /\ vget d i == vget d0 i + grid_sum j0 q f
    /\ forall i', i' <> i -> vget d i' = vget d0 i')).
  - repeat split. unfold grid_sum. simpl. ring.
  - intros j0 d Hj0 (Hlen & Hsum & Hother).
    pose proof (accumulate_at d i q (fun k => f j0 k) ltac:(lia)) as R.
    cbv zeta in R. destruct R as (Hlen' & Hsum' & Hother').
    repeat split.
    + rewrite Hlen'. exact Hlen.
    + rewrite Hsum', Hsum. unfold grid_sum. simpl. ring.
    + intros i' Hne. rewrite (Hother' i' Hne). apply Hother. exact Hne.
Qed.

(** Every entry of the dosage sequence, in closed form. *)
Lemma getDiploidDosages_entry (hapEst : tensor)
    (paternalHaplotypes maternalHaplotypes : imatrix) (i : nat) :
  (i < icols maternalHaplotypes)%nat ->
  vget (getDiploidDosages hapEst paternalHaplotypes maternalHaplotypes) i
  == grid_sum (irows paternalHaplotypes) (irows maternalHaplotypes) (fun j k =>
       tget hapEst i j k
       * inject_Z (imget paternalHaplotypes j i + imget maternalHaplotypes k i)).
Proof.
  intros Hi. unfold getDiploidDosages. cbv zeta.
  set (nPat := irows paternalHaplotypes).
  set (nMat := irows maternalHaplotypes).
  set (nLoci := icols maternalHaplotypes) in *.
  set (term := fun i j k =>
    tget hapEst i j k
    * inject_Z (imget paternalHaplotypes j i + imget maternalHaplotypes k i)).
  assert (Inv :
    let d := for_range nLoci (fun i d =>
               for_range nPat (fun j d =>
                 for_range nMat (fun k d => upd d i (vget d i + term i j k)) d) d)
               (vfull nLoci 0) in
    List.length d = nLoci
    /\ forall i', (i' < nLoci)%nat ->
         vget d i' == if (i' <? nLoci)%nat then grid_sum nPat nMat (term i') else 0).
  { cbv zeta.
    apply (for_range_inv (fun i0 d =>
      List.length d = nLoci
      /\ forall i', (i' < nLoci)%nat ->
           vget d i' == if (i' <? i0)%nat then grid_sum nPat nMat (term i') else 0)).
    - split; [unfold vfull; apply repeat_length|].
      intros i' Hi'. rewrite vget_vfull by exact Hi'. reflexivity.
    - intros i0 d Hi0 [Hlen Hcell].
      pose proof (accumulate_grid_at d i0 nPat nMat (term i0) ltac:(lia)) as R.
      cbv zeta in R. destruct R as (Hlen' & Hsum' & Hother').
      split; [rewrite Hlen'; exact Hlen|].
      intros i' Hi'. destruct (Nat.eq_dec i' i0) as [->|Hne].
      + rewrite Hsum', (Hcell i0 Hi0). index_cases.
      + rewrite (Hother' i' Hne), (Hcell i' Hi'). index_cases. }
  cbv zeta in Inv. destruct Inv as [_ Hcell]. pose proof (Hcell i Hi) as E.
  replace (i <? nLoci)%nat with true in E by (symmetry; apply Nat.ltb_lt; exact Hi).
  exact E.
Qed.

Lemma grid_sum_nonneg (n p : nat) (f : nat -> nat -> Q) :
  (forall j k, (j < n)%nat -> (k < p)%nat -> 0 <= f j k) -> 0 <= grid_sum n p f.
Proof.
  intros H. unfold grid_sum. apply sum_upto_nonneg. intros j Hj.
  apply sum_upto_nonneg. intros k Hk. apply H; assumption.
Qed.

Lemma grid_sum_le (n p : nat) (f g : nat -> nat -> Q) :
  (forall j k, (j < n)%nat -> (k < p)%nat -> f j k <= g j k) ->
  grid_sum n p f <= grid_sum n p g.
Proof.
  intros H. unfold grid_sum. apply sum_upto_le. intros j Hj.
  apply sum_upto_le. intros k Hk. apply H; assumption.
Qed.

(** C8 (getDiploidDosages, lines 68-77): for a posterior tensor whose slice
    at every locus has no negative entry and sums to 1, and libraries whose
    alleles are 0 or 1, every entry of the dosage sequence, the sum over the
    hypothesis pairs of the posterior times the sum of the two hypothesis
    alleles, lies between 0 and 2. *)
Theorem dosage_bounds (hapEst : tensor)
    (paternalHaplotypes maternalHaplotypes : imatrix) (i : nat) :
  let nPat := irows paternalHaplotypes in
  let nMat := irows maternalHaplotypes in
  let nLoci := icols maternalHaplotypes in
  let dosages := getDiploidDosages hapEst paternalHaplotypes maternalHaplotypes in
  is_posterior hapEst nLoci nPat nMat = true ->
  binary_library paternalHaplotypes nLoci = true ->
  binary_library maternalHaplotypes nLoci = true ->
  (i < nLoci)%nat ->
  0 <= vget dosages i /\ vget dosages i <= 2.
Proof.
  intros nPat nMat nLoci dosages Hpost Hpat Hmat Hi. subst dosages.
  unfold is_posterior in Hpost.
  apply andb_prop in Hpost. destruct Hpost as [Hpost Hnorm].
  apply andb_prop in Hpost. destruct Hpost as [Hshape Hnn].
  apply has_shape_tshape in Hshape.
  rewrite getDiploidDosages_entry by exact Hi. fold nPat nMat.
  assert (Hterm : forall j k, (j < nPat)%nat -> (k < nMat)%nat ->
    0 <= tget hapEst i j k
         * inject_Z (imget paternalHaplotypes j i + imget maternalHaplotypes k i)
    /\ tget hapEst i j k
       * inject_Z (imget paternalHaplotypes j i + imget maternalHaplotypes k i)
       <= tget hapEst i j k * 2).
  { intros j k Hj Hk.
    pose proof (nonnegative_tget hapEst i j k Hnn) as Hx.
    destruct (binary_library_allele _ _ j i Hpat Hj Hi) as [-> | ->];
      destruct (binary_library_allele _ _ k i Hmat Hk Hi) as [-> | ->];
      simpl Z.add; unfold inject_Z; lra. }
  split.
  - apply grid_sum_nonneg. intros j k Hj Hk. apply (Hterm j k Hj Hk).
  - apply Qle_trans with (grid_sum nPat nMat (fun j k => tget hapEst i j k * 2)).
    + apply grid_sum_le. intros j k Hj Hk. apply (Hterm j k Hj Hk).
    + rewrite grid_sum_times.
      assert (Hsum : grid_sum nPat nMat (tget hapEst i) == 1).
      { pose proof (normalized_slice hapEst i Hnorm) as Hone.
        rewrite (proj1 Hshape) in Hone. specialize (Hone Hi).
        unfold msum in Hone.
        destruct (proj2 Hshape i Hi) as [Hrows Hcols].
        destruct nPat as [|n'] eqn:HnPat.
        - rewrite Hrows in Hone. exact Hone.
        - rewrite Hrows, (mshape_cols _ _ _ (proj2 Hshape i Hi)) in Hone by lia.
          exact Hone. }
      rewrite Hsum. lra.
Qed.

Lemma dosage_bounds_witness :
  0 <= vget (getDiploidDosages skew_posterior single_paternal maternal_library) 1
  /\ vget (getDiploidDosages skew_posterior single_paternal maternal_library) 1 <= 2.
Proof.
  apply (dosage_bounds skew_posterior single_paternal maternal_library 1);
    vm_compute; try reflexivity; lia.
Defined.

(* ================================================================== *)
(** * The genotype-class decoder *)
(* ================================================================== *)

(** One conditional accumulation [if b: probs[c, i] += x]. *)
Lemma conditional_add (probs : matrix) (n c i : nat) (b : bool) (x : Q) :
  mshape probs 4 n -> (c < 4)%nat -> (i < n)%nat ->
  let probs' := if b then mupd probs c i (mget probs c i + x) else probs in
  mshape probs' 4 n
  /\ forall c' i', (c' < 4)%nat -> (i' < n)%nat ->
       mget probs' c' i'
       == mget probs c' i' + (if ((c' =? c) && (i' =? i))%nat && b then x else 0).
Proof.
  intros Hshape Hc Hi probs'. subst probs'. destruct b.
  - split; [apply mshape_mupd; exact Hshape|].
    intros c' i' Hc' Hi'.
    destruct (Nat.eq_dec c c') as [<-|Hne]; [destruct (Nat.eq_dec i i') as [<-|Hne]|].
    + rewrite mget_mupd_same by (rewrite (proj2 Hshape c Hc); exact Hi).
      index_cases.
    + rewrite mget_mupd_other by (right; exact Hne). index_cases.
    + rewrite mget_mupd_other by (left; exact Hne). index_cases.
  - split; [exact Hshape|].
    intros c' i' Hc' Hi'. rewrite Bool.andb_false_r. ring.
Qed.

(** The four tests of the loop body of [getDiploidProbabilities]: the value
    [x] is added to the entry of the class of the allele pair [(p, m)]. *)
Lemma probabilities_step (probs : matrix) (n i : nat) (p m : Z) (x : Q) :
  mshape probs 4 n -> (i < n)%nat ->
  let probs1 :=
    if ((p =? 0) && (m =? 0))%Z then mupd probs 0 i (mget probs 0 i + x) else probs in
  let probs2 :=
    if ((p =? 0) && (m =? 1))%Z then mupd probs1 1 i (mget probs1 1 i + x) else probs1 in
  let probs3 :=
    if ((p =? 1) && (m =? 0))%Z then mupd probs2 2 i (mget probs2 2 i + x) else probs2 in
  let probs4 :=
    if ((p =? 1) && (m =? 1))%Z then mupd probs3 3 i (mget probs3 3 i + x) else probs3 in
  mshape probs4 4 n
  /\ forall c i', (c < 4)%nat -> (i' < n)%nat ->
       mget probs4 c i'
       == mget probs c i'
          + (if (i' =? i)%nat
             then if ((p =? Z.of_nat (c / 2)) && (m =? Z.of_nat (c mod 2)))%Z
                  then x else 0
             else 0).
Proof.
  intros Hshape Hi probs1 probs2 probs3 probs4.
  pose proof (conditional_add probs n 0 i ((p =? 0) && (m =? 0))%Z x
                Hshape ltac:(lia) Hi) as R1.
  cbv zeta in R1. fold probs1 in R1. destruct R1 as [S1 C1].
  pose proof (conditional_add probs1 n 1 i ((p =? 0) && (m =? 1))%Z x
                S1 ltac:(lia) Hi) as R2.
  cbv zeta in R2. fold probs2 in R2. destruct R2 as [S2 C2].
  pose proof (conditional_add probs2 n 2 i ((p =? 1) && (m =? 0))%Z x
                S2 ltac:(lia) Hi) as R3.
  cbv zeta in R3. fold probs3 in R3. destruct R3 as [S3 C3].
  pose proof (conditional_add probs3 n 3 i ((p =? 1) && (m =? 1))%Z x
                S3 ltac:(lia) Hi) as R4.
  cbv zeta in R4. fold probs4 in R4. destruct R4 as [S4 C4].
  split; [exact S4|].
  intros c i' Hc Hi'.
  rewrite (C4 c i' Hc Hi'), (C3 c i' Hc Hi'), (C2 c i' Hc Hi'), (C1 c i' Hc Hi').
  destruct c as [|[|[|[|c]]]]; try lia;
    change (Z.of_nat (0 / 2)) with 0%Z; change (Z.of_nat (0 mod 2)) with 0%Z;
    change (Z.of_nat (1 / 2)) with 0%Z; change (Z.of_nat (1 mod 2)) with 1%Z;
    change (Z.of_nat (2 / 2)) with 1%Z; change (Z.of_nat (2 mod 2)) with 0%Z;
    change (Z.of_nat (3 / 2)) with 1%Z; change (Z.of_nat (3 mod 2)) with 1%Z;
    simpl Nat.eqb; destruct (i' =? i)%nat; simpl andb;
    destruct (p =? 0)%Z, (p =? 1)%Z, (m =? 0)%Z, (m =? 1)%Z; simpl andb; ring.
Qed.

Lemma probabilities_row (hapEst : tensor) (pat mat : imatrix) (n i j : nat)
    (probs0 : matrix) :
  mshape probs0 4 n -> (i < n)%nat ->
  let probs :=
    for_range (irows mat) (fun k probs => probabilities_cell hapEst pat mat i j k probs)
      probs0 in
  mshape probs 4 n
  /\ forall c i', (c < 4)%nat -> (i' < n)%nat ->
       mget probs c i'
       == mget probs0 c i'
          + (if (i' =? i)%nat
             then sum_upto (irows mat) (fun k => class_term hapEst pat mat c i j k)
             else 0).
Proof.
  intros Hshape Hi probs. subst probs.
  apply (for_range_inv (fun k0 probs =>
    mshape probs 4 n
    /\ forall c i', (c < 4)%nat -> (i' < n)%nat ->
         mget probs c i'
         == mget probs0 c i'
            + (if (i' =? i)%nat
               then sum_upto k0 (fun k => class_term hapEst pat mat c i j k)
               else 0))).
  - split; [exact Hshape|]. intros c i' Hc Hi'. simpl. destruct (i' =? i)%nat; ring.
  - intros k0 probs Hk0 [Hs Hcell].
    pose proof (probabilities_step probs n i (imget pat j i) (imget mat k0 i)
                  (tget hapEst j k0 i) Hs Hi) as R.
    cbv zeta in R. destruct R as [Hs' Hcell'].
    split; [exact Hs'|].
    intros c i' Hc Hi'. unfold probabilities_cell. cbv zeta.
    rewrite (Hcell' c i' Hc Hi'), (Hcell c i' Hc Hi').
    simpl sum_upto. unfold class_term.
    destruct (i' =? i)%nat; ring.
Qed.

Lemma probabilities_locus (hapEst : tensor) (pat mat : imatrix) (n i : nat)
    (probs0 : matrix) :
  mshape probs0 4 n -> (i < n)%nat ->
  let probs :=
    for_range (irows pat) (fun j probs =>
      for_range (irows mat) (fun k probs =>
        probabilities_cell hapEst pat mat i j k probs) probs) probs0 in
  mshape probs 4 n
  /\ forall c i', (c < 4)%nat -> (i' < n)%nat ->
       mget probs c i'
       == mget probs0 c i'
          + (if (i' =? i)%nat
             then grid_sum (irows pat) (irows mat) (class_term hapEst pat mat c i)
             else 0).
Proof.
  intros Hshape Hi probs. subst probs.
  apply (for_range_inv (fun j0 probs =>
    mshape probs 4 n
    /\ forall c i', (c < 4)%nat -> (i' < n)%nat ->
         mget probs c i'
         == mget probs0 c i'
            + (if (i' =? i)%nat
               then grid_sum j0 (irows mat) (class_term hapEst pat mat c i)
               else 0))).
  - split; [exact Hshape|]. intros c i' Hc Hi'.
    unfold grid_sum. simpl. destruct (i' =? i)%nat; ring.
  - intros j0 probs Hj0 [Hs Hcell].
    pose proof (probabilities_row hapEst pat mat n i j0 probs Hs Hi) as R.
    cbv zeta in R. destruct R as [Hs' Hcell'].
    split; [exact Hs'|].
    intros c i' Hc Hi'.
    rewrite (Hcell' c i' Hc Hi'), (Hcell c i' Hc Hi').
    unfold grid_sum. simpl sum_upto.
    destruct (i' =? i)%nat; ring.
Qed.

(** Every entry of the result of the decoder, in closed form: entry [c] at
    locus [i] is the sum over the hypothesis pairs whose alleles at locus [i]
    are those of class [c] of [hapEst[j, k, i]]. *)
Lemma getDiploidProbabilities_entry (hapEst : tensor) (pat mat : imatrix) (c i : nat) :
  (c < 4)%nat -> (i < icols mat)%nat ->
  mget (getDiploidProbabilities hapEst pat mat) c i
  == grid_sum (irows pat) (irows mat) (class_term hapEst pat mat c i).
Proof.
  intros Hc Hi. unfold getDiploidProbabilities. cbv zeta.
  set (nLoci := icols mat) in *.
  assert (Inv :
    let probs :=
      for_range nLoci (fun i probs =>
        for_range (irows pat) (fun j probs =>
          for_range (irows mat) (fun k probs =>
            probabilities_cell hapEst pat mat i j k probs) probs) probs)
        (mfull 4 nLoci 0) in
    mshape probs 4 nLoci
    /\ forall c i', (c < 4)%nat -> (i' < nLoci)%nat ->
         mget probs c i'
         == if (i' <? nLoci)%nat
            then grid_sum (irows pat) (irows mat) (class_term hapEst pat mat c i')
            else 0).
  { cbv zeta.
    apply (for_range_inv (fun i0 probs =>
      mshape probs 4 nLoci
      /\ forall c i', (c < 4)%nat -> (i' < nLoci)%nat ->
           mget probs c i'
           == if (i' <? i0)%nat
              then grid_sum (irows pat) (irows mat) (class_term hapEst pat mat c i')
              else 0)).
    - split; [apply mshape_mfull|]. intros c' i' Hc' Hi'.
      rewrite mget_mfull by assumption. reflexivity.
    - intros i0 probs Hi0 [Hs Hcell].
      pose proof (probabilities_locus hapEst pat mat nLoci i0 probs Hs Hi0) as R.
      cbv zeta in R. destruct R as [Hs' Hcell'].
      split; [exact Hs'|].
      intros c' i' Hc' Hi'.
      rewrite (Hcell' c' i' Hc' Hi'), (Hcell c' i' Hc' Hi').
      index_cases. }
  cbv zeta in Inv. destruct Inv as [_ Hcell]. rewrite (Hcell c i Hc Hi).
  replace (i <? nLoci)%nat with true by (symmetry; apply Nat.ltb_lt; exact Hi).
  reflexivity.
Qed.

(** On a tensor laid out with the locus last the decoder returns the class
    masses of the specification. *)
Lemma getDiploidProbabilities_locus_last (hapEst posterior : tensor)
    (pat mat : imatrix) (c i : nat) :
  (forall i j k, tget hapEst j k i == tget posterior i j k) ->
  (c < 4)%nat -> (i < icols mat)%nat ->
  mget (getDiploidProbabilities hapEst pat mat) c i
  == class_mass posterior pat mat (Z.of_nat (c / 2)) (Z.of_nat (c mod 2)) i.
Proof.
  intros Hlayout Hc Hi. rewrite getDiploidProbabilities_entry by assumption.
  unfold class_mass. apply grid_sum_ext. intros j k Hj Hk.
  unfold class_term. destruct (_ && _)%bool; [apply Hlayout | reflexivity].
Qed.

(** C5 (getDiploidProbabilities, lines 79-98, on the output of
    diploidForwardBackward, lines 370-386): for genotypes 0 and 2 at two
    loci, two libraries of two haplotypes, error rate 1/10 and recombination
    rate 0, the posterior at locus 0 gives mass 1/200 to the only pair with
    alleles (0,1), the pair (0,1), and mass 99/200 to the pair (1,0).  The
    decoder returns 99/200 as entry 1 of locus 0: it reads the posterior as
    [hapEst[j, k, i]], with the locus last, while [diploidForwardBackward]
    returns it with the locus first, as [getDiploidDosages] reads it. *)
Theorem getDiploidProbabilities_reads_locus_last :
  exists posterior probs,
    diploidForwardBackward two_locus_emission (vfull 2 0) = Some posterior
    /\ result (diploidHMM no_probabilities two_locus_individual
                 paternal_library maternal_library (Float (1 # 10)) (Float 0)
                 "probabilities" true false)
       = Returned {| genotypes := genotypes two_locus_individual;
                     haplotypes := haplotypes two_locus_individual;
                     dosages := None; info := Some probs |}
    /\ probs = getDiploidProbabilities posterior paternal_library maternal_library
    /\ tget posterior 0 0 1 == 1 # 200
    /\ tget posterior 0 1 0 == 99 # 200
    /\ class_mass posterior paternal_library maternal_library 0 1 0 == 1 # 200
    /\ mget probs 1 0 == 99 # 200
    /\ ~ mget probs 1 0 == class_mass posterior paternal_library maternal_library 0 1 0.
Proof.
  eexists. eexists.
  split; [vm_compute; reflexivity|].
  split; [vm_compute; reflexivity|].
  split; [vm_compute; reflexivity|].
  repeat split; try (vm_compute; reflexivity).
  intros H. vm_compute in H. discriminate H.
Qed.


(* ================================================================== *)
(** * Positive emissions always have a posterior *)
(* ================================================================== *)

Lemma sum_upto_pos (n : nat) (f : nat -> Q) :
  (0 < n)%nat -> (forall i, (i < n)%nat -> 0 < f i) -> 0 < sum_upto n f.
Proof.
  intros Hn H. destruct n as [|n]; [lia|]. simpl.
  assert (0 <= sum_upto n f).
  { apply sum_upto_nonneg. intros i Hi. apply Qlt_le_weak. apply H. lia. }
  assert (0 < f n) by (apply H; lia). lra.
Qed.

Lemma mshape_mtab (n p : nat) (f : nat -> nat -> Q) : mshape (mtab n p f) n p.
Proof.
  split; [apply rows_mtab|]. intros j Hj. rewrite row_mtab by exact Hj.
  rewrite length_map, length_seq. reflexivity.
Qed.

Lemma msum_shape (m : matrix) (p q : nat) :
  mshape m p q -> (0 < p)%nat -> msum m = grid_sum p q (mget m).
Proof.
  intros Hshape Hp. unfold msum.
  rewrite (proj1 Hshape), (mshape_cols _ _ _ Hshape Hp). reflexivity.
Qed.

Lemma msum_pos (m : matrix) (p q : nat) :
  mpositive m p q -> (0 < p)%nat -> (0 < q)%nat -> 0 < msum m.
Proof.
  intros [Hshape Hpos] Hp Hq. rewrite (msum_shape _ _ _ Hshape Hp).
  unfold grid_sum. apply sum_upto_pos; [exact Hp|]. intros j Hj.
  apply sum_upto_pos; [exact Hq|]. intros k Hk. apply Hpos; assumption.
Qed.

Lemma mmul_pos (a b : matrix) (p q : nat) :
  mpositive a p q -> mpositive b p q -> (0 < p)%nat -> mpositive (mmul a b) p q.
Proof.
  intros [Sa Pa] [Sb Pb] Hp. unfold mmul.
  rewrite (proj1 Sa), (mshape_cols _ _ _ Sa Hp).
  split; [apply mshape_mtab|]. intros j k Hj Hk.
  rewrite mget_mtab by assumption.
  apply Qmult_lt_0_compat; [apply Pa | apply Pb]; assumption.
Qed.

Lemma mdiv_pos (a : matrix) (s : Q) (p q : nat) :
  mpositive a p q -> 0 < s -> (0 < p)%nat -> mpositive (mdiv a s) p q.
Proof.
  intros [Sa Pa] Hs Hp. unfold mdiv.
  rewrite (proj1 Sa), (mshape_cols _ _ _ Sa Hp).
  split; [apply mshape_mtab|]. intros j k Hj Hk.
  rewrite mget_mtab by assumption.
  apply Qlt_shift_div_l; [exact Hs|]. rewrite Qmult_0_l. apply Pa; assumption.
Qed.

(** Dividing a positive array by its own sum always has a value. *)
Lemma normalize_pos (a : matrix) (p q : nat) :
  mpositive a p q -> (0 < p)%nat -> (0 < q)%nat ->
  exists m, mdiv_checked a (msum a) = Some m /\ mpositive m p q.
Proof.
  intros Ha Hp Hq. pose proof (msum_pos a p q Ha Hp Hq) as Hs.
  exists (mdiv a (msum a)). split.
  - unfold mdiv_checked. destruct (Qeq_bool (msum a) 0) eqn:E; [|reflexivity].
    apply Qeq_bool_iff in E. lra.
  - apply mdiv_pos; assumption.
Qed.

Lemma valid_rates_vget (r : vector) (i : nat) :
  valid_rates r = true -> 0 <= vget r i /\ vget r i <= 1.
Proof.
  intros H. unfold vget.
  pose proof (forallb_nth_default _ r i 0 H eq_refl) as Hi. cbv beta in Hi.
  apply andb_prop in Hi. destruct Hi as [H0 H1].
  split; apply Qle_bool_iff; assumption.
Qed.

(** [transmit] maps positive arrays to positive arrays. *)
Lemma transmit_pos (prev : matrix) (e : Q) (p q : nat) :
  mpositive prev p q -> (0 < p)%nat -> (0 < q)%nat -> 0 <= e -> e <= 1 ->
  mpositive (transmit prev e) p q.
Proof.
  intros [Sp Pp] Hp Hq He0 He1.
  assert (Hrows : rows prev = p) by apply Sp.
  assert (Hcols : cols prev = q) by (apply (mshape_cols _ _ _ Sp Hp)).
  split.
  - split.
    + rewrite rows_transmit. exact Hrows.
    + intros j Hj. unfold transmit. destruct (transmit_marginals _ _ _ _ _).
      rewrite Hrows, Hcols, row_mtab by exact Hj.
      rewrite length_map, length_seq. reflexivity.
  - intros j k Hj Hk.
    rewrite transmit_cell by (rewrite ?Hrows, ?Hcols; assumption).
    rewrite Hrows, Hcols, of_nat_mul.
    assert (Hx : 0 < mget prev j k) by (apply Pp; assumption).
    assert (Hr : 0 < paternalMarginal prev j).
    { unfold paternalMarginal. rewrite Hcols. apply sum_upto_pos; [exact Hq|].
      intros k' Hk'. apply Pp; assumption. }
    assert (Hc : 0 < maternalMarginal prev k).
    { unfold maternalMarginal. rewrite Hrows. apply sum_upto_pos; [exact Hp|].
      intros j' Hj'. apply Pp; assumption. }
    assert (Hnp : 0 < of_nat p).
    { unfold of_nat. change 0 with (inject_Z 0). rewrite <- Zlt_Qlt. lia. }
    assert (Hnq : 0 < of_nat q).
    { unfold of_nat. change 0 with (inject_Z 0). rewrite <- Zlt_Qlt. lia. }
    assert (Ha : 0 <= (1 - e) * e) by (apply Qmult_le_0_compat; lra).
    assert (H1 : 0 <= paternalMarginal prev j * ((1 - e) * e / of_nat p)).
    { apply Qmult_le_0_compat; [lra|].
      apply Qle_shift_div_l; [exact Hnp | lra]. }
    assert (H2 : 0 <= maternalMarginal prev k * ((1 - e) * e / of_nat q)).
    { apply Qmult_le_0_compat; [lra|].
      apply Qle_shift_div_l; [exact Hnq | lra]. }
    assert (Hd : 0 < of_nat q * of_nat p) by (apply Qmult_lt_0_compat; assumption).
    assert (H3 : 0 <= e * e / (of_nat q * of_nat p)).
    { apply Qle_shift_div_l; [exact Hd|]. rewrite Qmult_0_l.
      apply Qmult_le_0_compat; assumption. }
    assert (H4 : 0 <= mget prev j k * (1 - e) ^ 2).
    { apply Qmult_le_0_compat; [lra|].
      change ((1 - e) ^ 2) with ((1 - e) * (1 - e)).
      apply Qmult_le_0_compat; lra. }
    destruct (Qlt_le_dec 0 e) as [Hpos|Hzero].
    + assert (0 < e * e / (of_nat q * of_nat p)).
      { apply Qlt_shift_div_l; [exact Hd|]. rewrite Qmult_0_l.
        apply Qmult_lt_0_compat; assumption. }
      lra.
    + assert (He : e == 0) by lra.
      assert (0 < mget prev j k * (1 - e) ^ 2).
      { rewrite He. change ((1 - 0) ^ 2) with ((1 - 0) * (1 - 0)). lra. }
      lra.
Qed.

Lemma tpositive_upd (t : tensor) (n p q i : nat) (m : matrix) :
  tpositive t n p q -> mpositive m p q -> tpositive (upd t i m) n p q.
Proof.
  intros [Hn Hs] Hm. split; [rewrite dim0_upd; exact Hn|].
  intros i' Hi'. destruct (Nat.eq_dec i i') as [<-|Hne].
  - rewrite slice_upd_same by lia. exact Hm.
  - rewrite slice_upd_other by exact Hne. apply Hs. exact Hi'.
Qed.

Lemma tpositive_dims (t : tensor) (n p q : nat) :
  tpositive t n p q -> (0 < n)%nat -> (0 < p)%nat -> dim1 t = p /\ dim2 t = q.
Proof.
  intros [Hn Hs] Hn0 Hp. destruct (Hs 0%nat Hn0) as [Hshape _]. split.
  - apply Hshape.
  - apply (mshape_cols _ _ _ Hshape Hp).
Qed.

Lemma tsum_pos (t : tensor) (n p q : nat) :
  tpositive t n p q -> (0 < n)%nat -> (0 < p)%nat -> (0 < q)%nat -> 0 < tsum t.
Proof.
  intros Ht Hn Hp Hq. unfold tsum.
  destruct (tpositive_dims t n p q Ht Hn Hp) as [-> ->].
  rewrite (proj1 Ht). apply sum_upto_pos; [exact Hn|]. intros i Hi.
  destruct (proj2 Ht i Hi) as [_ Hpos].
  unfold grid_sum. apply sum_upto_pos; [exact Hp|]. intros j Hj.
  apply sum_upto_pos; [exact Hq|]. intros k Hk. apply Hpos; assumption.
Qed.

(** The forward pass has a value on positive emissions, in place or not. *)
Lemma diploid_forward_defined (pe : tensor) (rr : vector) (in_place : bool)
    (n p q : nat) :
  tpositive pe n p q -> (0 < n)%nat -> (0 < p)%nat -> (0 < q)%nat ->
  valid_rates rr = true ->
  exists combined,
    diploid_forward pe rr in_place = Some combined /\ tpositive combined n p q.
Proof.
  intros Hpe Hn Hp Hq Hrr. unfold diploid_forward.
  pose proof (tsum_pos pe n p q Hpe Hn Hp Hq) as Hsum.
  assert (Hfirst : mdiv_checked (slice pe 0) (tsum pe) = Some (mdiv (slice pe 0) (tsum pe))).
  { unfold mdiv_checked. destruct (Qeq_bool (tsum pe) 0) eqn:E; [|reflexivity].
    apply Qeq_bool_iff in E. lra. }
  rewrite Hfirst. simpl bind. rewrite (proj1 Hpe).
  apply (for_span_inv (fun st =>
    exists c, st = Some c /\ tpositive c n p q)).
  - eexists. split; [reflexivity|].
    apply tpositive_upd; [exact Hpe|].
    apply mdiv_pos; [apply (proj2 Hpe); exact Hn | exact Hsum | exact Hp].
  - intros i st Hi (c & -> & Hc). simpl bind.
    destruct (valid_rates_vget rr i Hrr) as [He0 He1].
    assert (Hfw : mpositive (transmit (slice c (i - 1)) (vget rr i)) p q).
    { apply transmit_pos; try assumption. apply (proj2 Hc). lia. }
    assert (Hsrc : mpositive (slice (if in_place then c else pe) i) p q).
    { destruct in_place; [apply (proj2 Hc) | apply (proj2 Hpe)]; lia. }
    pose proof (mmul_pos _ _ p q Hsrc Hfw Hp) as Hprod.
    rewrite slice_upd_same by (rewrite (proj1 Hc); lia).
    destruct (normalize_pos _ p q Hprod Hp Hq) as (m & -> & Hm). simpl bind.
    eexists. split; [reflexivity|].
    apply tpositive_upd; [|exact Hm].
    apply tpositive_upd; [exact Hc | exact Hprod].
Qed.

Lemma tpositive_ones (n p q : nat) : tpositive (tfull n p q 1) n p q.
Proof.
  split; [unfold dim0, tfull; apply repeat_length|].
  intros i Hi. unfold slice, tfull. rewrite nth_repeat_lt by exact Hi.
  split; [apply mshape_mfull|]. intros j k Hj Hk.
  rewrite mget_mfull by assumption. reflexivity.
Qed.

(** The backward pass has a value on positive emissions. *)
Lemma diploid_backward_defined (pe : tensor) (rr : vector) (n p q : nat) :
  tpositive pe n p q -> (0 < n)%nat -> (0 < p)%nat -> (0 < q)%nat ->
  valid_rates rr = true ->
  exists backward,
    diploid_backward pe rr = Some backward /\ tpositive backward n p q.
Proof.
  intros Hpe Hn Hp Hq Hrr. unfold diploid_backward.
  destruct (tpositive_dims pe n p q Hpe Hn Hp) as [-> ->].
  rewrite (proj1 Hpe).
  apply (for_range_down_inv (fun st =>
    exists b, st = Some b /\ tpositive b n p q)).
  - eexists. split; [reflexivity | apply tpositive_ones].
  - intros i st Hi (b & -> & Hb). simpl bind.
    assert (Hprod : mpositive (mmul (slice b (i + 1)) (slice pe (i + 1))) p q).
    { apply mmul_pos; [apply (proj2 Hb) | apply (proj2 Hpe) | exact Hp]; lia. }
    destruct (normalize_pos _ p q Hprod Hp Hq) as (m & -> & Hm). simpl bind.
    destruct (valid_rates_vget rr i Hrr) as [He0 He1].
    eexists. split; [reflexivity|].
    apply tpositive_upd; [exact Hb|].
    apply transmit_pos; assumption.
Qed.

Lemma slice_tmul (a b : tensor) (i : nat) :
  (i < dim0 a)%nat -> slice (tmul a b) i = mmul (slice a i) (slice b i).
Proof.
  intros Hi. unfold tmul, slice at 1.
  apply (nth_map_seq (fun i => mmul (slice a i) (slice b i))). exact Hi.
Qed.

Lemma tmul_pos (a b : tensor) (n p q : nat) :
  tpositive a n p q -> tpositive b n p q -> (0 < p)%nat -> tpositive (tmul a b) n p q.
Proof.
  intros Ha Hb Hp. split; [rewrite dim0_tmul; apply Ha|].
  intros i Hi. rewrite slice_tmul by (rewrite (proj1 Ha); exact Hi).
  apply mmul_pos; [apply (proj2 Ha) | apply (proj2 Hb) | exact Hp]; exact Hi.
Qed.

Lemma normalize_loci_defined (est : tensor) (n p q : nat) :
  tpositive est n p q -> (0 < p)%nat -> (0 < q)%nat ->
  exists post, normalize_loci est = Some post /\ tpositive post n p q.
Proof.
  intros Hest Hp Hq. unfold normalize_loci.
  apply (for_range_inv (fun _ st =>
    exists e, st = Some e /\ tpositive e n p q)).
  - eexists. split; [reflexivity | exact Hest].
  - intros i st Hi (e & -> & He). simpl bind.
    rewrite (proj1 Hest) in Hi.
    destruct (normalize_pos (slice e i) p q (proj2 He i Hi) Hp Hq) as (m & -> & Hm).
    simpl bind. eexists. split; [reflexivity|].
    apply tpositive_upd; assumption.
Qed.

(** In exact arithmetic, for positive emissions on a non-empty grid and
    recombination rates between 0 and 1 no normalising sum is zero: the
    posterior has a value, and its cells are positive.  This is a fact of the
    rationals and not of [float32], where a product of many small emissions
    can underflow to zero. *)
Lemma diploidForwardBackward_defined (pe : tensor) (rr : vector) (n p q : nat) :
  tpositive pe n p q -> (0 < n)%nat -> (0 < p)%nat -> (0 < q)%nat ->
  valid_rates rr = true ->
  exists posterior,
    diploidForwardBackward pe rr = Some posterior /\ tpositive posterior n p q.
Proof.
  intros Hpe Hn Hp Hq Hrr. unfold diploidForwardBackward.
  destruct (diploid_backward_defined pe rr n p q Hpe Hn Hp Hq Hrr) as (b & -> & Hb).
  destruct (diploid_forward_defined pe rr true n p q Hpe Hn Hp Hq Hrr) as (f & -> & Hf).
  simpl bind.
  apply normalize_loci_defined; [|exact Hp|exact Hq].
  apply tmul_pos; assumption.
Qed.

(* ================================================================== *)
(** * The scenarios of the specification, evaluated *)
(* ================================================================== *)

(** At the last locus the weights of the sampler are the forward-combined
    slice itself; with one locus there is no corrective step. *)
Lemma sampling_weights_last (forward_probs : tensor) (recombination_rate : vector)
    (paternal_indices maternal_indices : list nat) (i : nat) :
  i = (dim0 forward_probs - 1)%nat ->
  sampling_weights forward_probs recombination_rate paternal_indices maternal_indices i
  = slice forward_probs i.
Proof.
  intros ->. unfold sampling_weights. rewrite Nat.eqb_refl. reflexivity.
Qed.

(** One paternal haplotype [0], one maternal haplotype [1], one locus with
    genotype 1 and error rate 1/100: the dosage is 1. *)
Example heterozygous_dosage :
  exists d,
    result (diploidHMM no_probabilities het_individual lib_zero lib_one
              (Float (1 # 100)) (Float (1 # 100)) "dosages" true false)
    = Returned {| genotypes := genotypes het_individual;
                  haplotypes := haplotypes het_individual;
                  dosages := Some [d]; info := None |}
    /\ d == 1.
Proof.
  eexists. split; [vm_compute; reflexivity|]. vm_compute. reflexivity.
Qed.

(** Two loci with missing genotypes, libraries of two haplotypes and
    recombination rate 1/2: the posterior is 1/4 in every cell. *)
Example missing_genotypes_uniform_posterior :
  exists posterior,
    performed (diploidHMM no_probabilities missing_individual paternal_library
                 maternal_library (Float (1 # 100)) (Float (1 # 2)) "dosages" true false)
    = [EmissionConstruction missing_emission; ForwardBackward (Some posterior);
       Decoding "dosages"]
    /\ forall i j k, (i < 2)%nat -> (j < 2)%nat -> (k < 2)%nat ->
         tget posterior i j k == 1 # 4.
Proof.
  eexists. split; [vm_compute; reflexivity|].
  intros i j k Hi Hj Hk.
  destruct i as [|[|i]]; try lia; destruct j as [|[|j]]; try lia;
    destruct k as [|[|k]]; try lia; vm_compute; reflexivity.
Qed.

(* ================================================================== *)
(** * Further properties of the transmission operator *)
(* ================================================================== *)

Lemma positive_grid_mpositive (m : matrix) (p q : nat) :
  positive_grid m p q = true -> mpositive m p q.
Proof.
  unfold positive_grid. intros H. apply andb_prop in H. destruct H as [Hp Hall].
  apply Nat.eqb_eq in Hp.
  assert (Hrow : forall j, (j < p)%nat ->
    List.length (row m j) = q
    /\ forallb (fun x => negb (Qle_bool x 0)) (row m j) = true).
  { intros j Hj.
    pose proof (forallb_nth _ m j [] Hall ltac:(lia)) as Hr. cbv beta in Hr.
    apply andb_prop in Hr. destruct Hr as [Hq Hpos]. apply Nat.eqb_eq in Hq.
    split; assumption. }
  split.
  - split; [exact Hp|]. intros j Hj. apply (Hrow j Hj).
  - intros j k Hj Hk. destruct (Hrow j Hj) as [Hq Hpos].
    assert (Hk' : (k < List.length (row m j))%nat) by (rewrite Hq; exact Hk).
    pose proof (forallb_nth _ (row m j) k 0 Hpos Hk') as Hx. cbv beta in Hx.
    apply Bool.negb_true_iff in Hx. unfold mget, vget.
    destruct (Qlt_le_dec 0 (nth k (row m j) 0)) as [Hlt|Hle]; [exact Hlt|].
    apply Qle_bool_iff in Hle. congruence.
Qed.

Lemma mshape_transmit (prev : matrix) (e : Q) (p q : nat) :
  mshape prev p q -> (0 < p)%nat -> mshape (transmit prev e) p q.
Proof.
  intros Sp Hp.
  assert (Hrows : rows prev = p) by apply Sp.
  assert (Hcols : cols prev = q) by (apply (mshape_cols _ _ _ Sp Hp)).
  split.
  - rewrite rows_transmit. exact Hrows.
  - intros j Hj. unfold transmit. destruct (transmit_marginals _ _ _ _ _).
    rewrite Hrows, Hcols, row_mtab by exact Hj.
    rewrite length_map, length_seq. reflexivity.
Qed.

(** X1 (transmit, lines 269-308): every cell [(j, k)] of the output is the
    input cell times [(1-e)^2], plus the sum of row [j] of the input times
    [(1-e)e/n_pat], plus the sum of column [k] of the input times
    [(1-e)e/n_mat], plus [e*e/(n_mat*n_pat)]. *)
Theorem transmit_output_cell (previous_estimate : matrix) (e : Q) (j k : nat) :
  (j < rows previous_estimate)%nat -> (k < cols previous_estimate)%nat ->
  mget (transmit previous_estimate e) j k
  == mget previous_estimate j k * (1 - e) ^ 2
     + sum_upto (cols previous_estimate) (fun k' => mget previous_estimate j k')
       * ((1 - e) * e / of_nat (rows previous_estimate))
     + sum_upto (rows previous_estimate) (fun j' => mget previous_estimate j' k)
       * ((1 - e) * e / of_nat (cols previous_estimate))
     + e * e / of_nat (cols previous_estimate * rows previous_estimate).
Proof. intros Hj Hk. apply transmit_cell; assumption. Qed.

Lemma transmit_output_cell_witness :
  mget (transmit one_by_two (1 # 2)) 0 1
  == mget one_by_two 0 1 * (1 - (1 # 2)) ^ 2
     + sum_upto (cols one_by_two) (fun k' => mget one_by_two 0 k')
       * ((1 - (1 # 2)) * (1 # 2) / of_nat (rows one_by_two))
     + sum_upto (rows one_by_two) (fun j' => mget one_by_two j' 1)
       * ((1 - (1 # 2)) * (1 # 2) / of_nat (cols one_by_two))
     + (1 # 2) * (1 # 2) / of_nat (cols one_by_two * rows one_by_two).
Proof. apply (transmit_output_cell one_by_two (1 # 2) 0 1); vm_compute; lia. Defined.

(** X2 (transmit, lines 269-308): with recombination rate 0 the output is
    the input, cell by cell. *)
Theorem transmit_without_recombination (previous_estimate : matrix) (j k : nat) :
  (j < rows previous_estimate)%nat -> (k < cols previous_estimate)%nat ->
  mget (transmit previous_estimate 0) j k == mget previous_estimate j k.
Proof.
  intros Hj Hk. rewrite transmit_cell by assumption. unfold Qdiv.
  change ((1 - 0) ^ 2) with ((1 - 0) * (1 - 0)). ring.
Qed.

Lemma transmit_without_recombination_witness :
  mget (transmit one_by_two 0) 0 1 == mget one_by_two 0 1.
Proof. apply (transmit_without_recombination one_by_two 0 1); vm_compute; lia. Defined.

(** X3 (transmit, lines 269-308): with recombination rate 1 every cell of
    the output is [1/(n_mat*n_pat)], whatever the input is. *)
Theorem transmit_full_recombination (previous_estimate : matrix) (j k : nat) :
  (j < rows previous_estimate)%nat -> (k < cols previous_estimate)%nat ->
  mget (transmit previous_estimate 1) j k
  == 1 / of_nat (cols previous_estimate * rows previous_estimate).
Proof.
  intros Hj Hk. rewrite transmit_cell by assumption. unfold Qdiv.
  change ((1 - 1) ^ 2) with ((1 - 1) * (1 - 1)). ring.
Qed.

Lemma transmit_full_recombination_witness :
  mget (transmit one_by_two 1) 0 1 == 1 / of_nat (cols one_by_two * rows one_by_two).
Proof. apply (transmit_full_recombination one_by_two 0 1); vm_compute; lia. Defined.

(** X4 (transmit, lines 269-308): on a square grid the output of a
    distribution is a distribution: an input of sum 1 gives an output of
    sum 1, for every recombination rate. *)
Theorem transmit_square_keeps_mass (previous_estimate : matrix) (e : Q) :
  rows previous_estimate = cols previous_estimate ->
  (0 < rows previous_estimate)%nat ->
  msum previous_estimate == 1 ->
  msum (transmit previous_estimate e) == 1.
Proof.
  intros Hsq Hn Hone. rewrite transmit_mass by lia. rewrite Hone, <- Hsq.
  field. apply of_nat_nonzero. exact Hn.
Qed.

(** X5 (transmit, lines 269-308): for a recombination rate between 0 and 1
    the output of an array of positive cells has the shape of the input and
    positive cells. *)
Theorem transmit_keeps_positive (previous_estimate : matrix) (e : Q) (p q : nat) :
  positive_grid previous_estimate p q = true ->
  (0 < p)%nat -> (0 < q)%nat -> 0 <= e -> e <= 1 ->
  mshape (transmit previous_estimate e) p q
  /\ forall j k, (j < p)%nat -> (k < q)%nat -> 0 < mget (transmit previous_estimate e) j k.
Proof.
  intros Hpos Hp Hq He0 He1. apply positive_grid_mpositive in Hpos.
  apply (transmit_pos previous_estimate e p q); assumption.
Qed.

Lemma transmit_keeps_positive_witness :
  mshape (transmit one_by_two (1 # 2)) 1 2
  /\ forall j k, (j < 1)%nat -> (k < 2)%nat -> 0 < mget (transmit one_by_two (1 # 2)) j k.
Proof.
  apply (transmit_keeps_positive one_by_two (1 # 2) 1 2);
    try reflexivity; try lia; vm_compute; discriminate.
Defined.

Lemma transmit_square_keeps_mass_witness :
  msum (transmit (slice two_forward 0) (1 # 3)) == 1.
Proof.
  apply (transmit_square_keeps_mass (slice two_forward 0) (1 # 3));
    [reflexivity | vm_compute; lia | vm_compute; reflexivity].
Defined.

(* ================================================================== *)
(** * Further properties of the forward and backward passes *)
(* ================================================================== *)

Section IndexedLoopFacts.

Context {S : Type}.

(** Invariants that follow the loop index, for loops that do not start at 0
    and for loops that run downwards. *)
Lemma for_span_inv_idx (P : nat -> S -> Prop) (lo hi : nat) (body : nat -> S -> S)
    (s : S) :
  (lo <= hi)%nat ->
  P lo s ->
  (forall i st, (lo <= i < hi)%nat -> P i st -> P (Datatypes.S i) (body i st)) ->
  P hi (for_span lo hi body s).
Proof.
  intros Hle H0 Hstep. unfold for_span.
  replace hi with (lo + (hi - lo))%nat at 1 by lia.
  assert (Hd : (lo + (hi - lo) <= hi)%nat) by lia. revert Hd.
  generalize (hi - lo)%nat as d. intros d. induction d as [|d IH]; intros Hd.
  - simpl. rewrite Nat.add_0_r. exact H0.
  - rewrite seq_S, fold_left_app. simpl.
    replace (lo + Datatypes.S d)%nat with (Datatypes.S (lo + d)) by lia.
    apply Hstep; [lia|]. apply IH. lia.
Qed.

Lemma for_range_down_S (n : nat) (body : nat -> S -> S) (s : S) :
  for_range_down (Datatypes.S n) body s = for_range_down n body (body n s).
Proof.
  unfold for_range_down. rewrite seq_S, rev_app_distr. reflexivity.
Qed.

Lemma for_range_down_inv_idx (P : nat -> S -> Prop) (n : nat) (body : nat -> S -> S)
    (s : S) :
  P n s ->
  (forall i st, (i < n)%nat -> P (Datatypes.S i) st -> P i (body i st)) ->
  P 0%nat (for_range_down n body s).
Proof.
  revert s. induction n as [|n IH]; intros s H0 Hstep.
  - exact H0.
  - rewrite for_range_down_S. apply IH.
    + apply Hstep; [lia | exact H0].
    + intros i st Hi. apply Hstep. lia.
Qed.

End IndexedLoopFacts.

Lemma fold_left_seq_agree {S : Type} (Inv : nat -> S -> Prop) (f g : nat -> S -> S)
    (lo d : nat) (s : S) :
  Inv lo s ->
  (forall i st, Inv i st -> f i st = g i st) ->
  (forall i st, Inv i st -> Inv (Datatypes.S i) (g i st)) ->
  fold_left (fun s i => f i s) (seq lo d) s = fold_left (fun s i => g i s) (seq lo d) s.
Proof.
  intros H0 Hfg Hinv. revert lo s H0. induction d as [|d IH]; intros lo s H0.
  - reflexivity.
  - simpl. rewrite (Hfg lo s H0). apply IH. apply Hinv. exact H0.
Qed.

(** X6 (diploid_forward, lines 311-341): running the forward pass in place,
    on the emission tensor itself, gives the same result as running it on a
    copy: when locus [i] is computed the slice [i] of the array that is being
    overwritten still holds the emission of locus [i]. *)
Theorem diploid_forward_in_place (point_estimate : tensor) (recombination_rate : vector) :
  diploid_forward point_estimate recombination_rate true
  = diploid_forward point_estimate recombination_rate false.
Proof.
  unfold diploid_forward.
  destruct (mdiv_checked (slice point_estimate 0) (tsum point_estimate)) as [first|];
    [|reflexivity].
  simpl bind. unfold for_span.
  apply (fold_left_seq_agree (fun i st =>
    match st with
    | None => True
    | Some c => forall i', (i <= i')%nat -> slice c i' = slice point_estimate i'
    end)).
  - intros i' Hi'. apply slice_upd_other. lia.
  - intros i [c|] Hinv; [|reflexivity]. simpl bind.
    rewrite (Hinv i (Nat.le_refl i)). reflexivity.
  - intros i [c|] Hinv; [|exact I]. simpl bind.
    destruct (mdiv_checked _ _); simpl; [|exact I].
    intros i' Hi'. rewrite !slice_upd_other by lia. apply Hinv. lia.
Qed.

(** X7 (diploid_forward, lines 311-341): when the forward pass has a value,
    its slice at every locus after the first sums to 1. *)
Theorem diploid_forward_later_loci_normalized (point_estimate : tensor)
    (recombination_rate : vector) (in_place : bool) (combined : tensor) (i : nat) :
  diploid_forward point_estimate recombination_rate in_place = Some combined ->
  (1 <= i)%nat -> (i < dim0 point_estimate)%nat ->
  msum (slice combined i) == 1.
Proof.
  unfold diploid_forward. intros H Hi1 Hin.
  apply bind_some in H. destruct H as (first & _ & H).
  pose (P := fun (i0 : nat) (st : option tensor) =>
    match st with
    | None => True
    | Some c =>
        dim0 c = dim0 point_estimate
        /\ forall i, (1 <= i < i0)%nat -> msum (slice c i) == 1
    end).
  assert (Inv : P (dim0 point_estimate) (Some combined)).
  { rewrite <- H. apply for_span_inv_idx; [lia| |].
    - simpl. split; [apply dim0_upd | intros; lia].
    - intros i0 [c|] Hi0 HP; simpl; [|exact I].
      destruct HP as [Hdim Hsum].
      destruct (mdiv_checked _ _) as [m|] eqn:E; simpl; [|exact I].
      apply mdiv_checked_some in E. destruct E as [Hnz ->].
      split; [rewrite !dim0_upd; exact Hdim|].
      intros i' Hi'. destruct (Nat.eq_dec i0 i') as [->|Hne].
      + rewrite slice_upd_same by (rewrite dim0_upd; lia).
        apply msum_mdiv; [exact Hnz | reflexivity].
      + rewrite !slice_upd_other by exact Hne. apply Hsum. lia. }
  apply (proj2 Inv). lia.
Qed.

Lemma diploid_forward_later_loci_normalized_witness :
  msum (slice flat_forward 1) == 1.
Proof.
  apply (diploid_forward_later_loci_normalized flat_emission half_rates false
           flat_forward 1); [vm_compute; reflexivity | lia | vm_compute; lia].
Defined.

(** X8 (diploid_forward, lines 311-341): when the forward pass has a value,
    the sum of the emissions over every locus is not zero and every cell of
    the result at locus 0 is the emission of that cell at locus 0 divided by
    that sum. *)
Theorem diploid_forward_first_locus_cell (point_estimate : tensor)
    (recombination_rate : vector) (in_place : bool) (combined : tensor) (j k : nat) :
  diploid_forward point_estimate recombination_rate in_place = Some combined ->
  (j < rows (slice point_estimate 0))%nat ->
  (k < cols (slice point_estimate 0))%nat ->
  ~ tsum point_estimate == 0
  /\ tget combined 0 j k == tget point_estimate 0 j k / tsum point_estimate.
Proof.
  intros H Hj Hk. apply diploid_forward_first_locus in H.
  destruct H as (Hnz & _ & Hfirst). split; [exact Hnz|].
  unfold tget. rewrite Hfirst. unfold mdiv. rewrite mget_mtab by assumption.
  reflexivity.
Qed.

Lemma diploid_forward_first_locus_cell_witness :
  ~ tsum flat_emission == 0
  /\ tget flat_forward 0 0 1 == tget flat_emission 0 0 1 / tsum flat_emission.
Proof.
  apply (diploid_forward_first_locus_cell flat_emission half_rates false
           flat_forward 0 1); [vm_compute; reflexivity | vm_compute; lia | vm_compute; lia].
Defined.

(** X9 (diploid_backward, lines 344-367): when the backward pass has a
    value, its slice at the last locus is the array of ones it started from:
    no emission and no transmission enters it. *)
Theorem diploid_backward_last_locus (point_estimate : tensor)
    (recombination_rate : vector) (backward : tensor) :
  diploid_backward point_estimate recombination_rate = Some backward ->
  (0 < dim0 point_estimate)%nat ->
  slice backward (dim0 point_estimate - 1)
  = mfull (dim1 point_estimate) (dim2 point_estimate) 1.
Proof.
  unfold diploid_backward. intros H Hn.
  set (n := dim0 point_estimate) in *.
  pose (P := fun (st : option tensor) =>
    match st with
    | None => True
    | Some b =>
        dim0 b = n
        /\ slice b (n - 1) = mfull (dim1 point_estimate) (dim2 point_estimate) 1
    end).
  assert (Inv : P (Some backward)).
  { rewrite <- H. apply for_range_down_inv.
    - simpl. split; [unfold dim0, tfull; apply repeat_length|].
      unfold slice, tfull. apply nth_repeat_lt. lia.
    - intros i [b|] Hi HP; simpl; [|exact I].
      destruct HP as [Hdim Hlast].
      destruct (mdiv_checked _ _); simpl; [|exact I].
      split; [rewrite dim0_upd; exact Hdim|].
      rewrite slice_upd_other by lia. exact Hlast. }
  apply (proj2 Inv).
Qed.

Lemma diploid_backward_last_locus_witness :
  slice square_backward (dim0 square_emission - 1)
  = mfull (dim1 square_emission) (dim2 square_emission) 1.
Proof.
  apply (diploid_backward_last_locus square_emission third_rates square_backward);
    [vm_compute; reflexivity | vm_compute; lia].
Defined.

Lemma mshape_mmul (a b : matrix) (p q : nat) :
  mshape a p q -> (0 < p)%nat -> mshape (mmul a b) p q.
Proof.
  intros Sa Hp. unfold mmul.
  rewrite (proj1 Sa), (mshape_cols _ _ _ Sa Hp). apply mshape_mtab.
Qed.

Lemma mshape_mdiv (a : matrix) (s : Q) (p q : nat) :
  mshape a p q -> (0 < p)%nat -> mshape (mdiv a s) p q.
Proof.
  intros Sa Hp. unfold mdiv.
  rewrite (proj1 Sa), (mshape_cols _ _ _ Sa Hp). apply mshape_mtab.
Qed.

Lemma transmit_mass_square (prev : matrix) (e : Q) (p : nat) :
  mshape prev p p -> (0 < p)%nat -> msum prev == 1 -> msum (transmit prev e) == 1.
Proof.
  intros Sp Hp Hone.
  assert (Hrows : rows prev = p) by apply Sp.
  assert (Hcols : cols prev = p) by (apply (mshape_cols _ _ _ Sp Hp)).
  rewrite transmit_mass by lia. rewrite Hone, Hrows, Hcols.
  field. apply of_nat_nonzero. exact Hp.
Qed.

(** X10 (diploid_backward, lines 344-367): on a square grid, when the
    backward pass has a value, its slice at every locus before the last sums
    to 1. *)
Theorem diploid_backward_square_normalized (point_estimate : tensor)
    (recombination_rate : vector) (backward : tensor) (i : nat) :
  diploid_backward point_estimate recombination_rate = Some backward ->
  dim1 point_estimate = dim2 point_estimate ->
  (0 < dim1 point_estimate)%nat ->
  (i + 1 < dim0 point_estimate)%nat ->
  msum (slice backward i) == 1.
Proof.
  unfold diploid_backward. intros H Hsq Hp Hi.
  set (n := dim0 point_estimate) in *.
  set (p := dim1 point_estimate) in *. rewrite <- Hsq in H.
  pose (P := fun (i0 : nat) (st : option tensor) =>
    match st with
    | None => True
    | Some b =>
        dim0 b = n
        /\ (forall i, (i < n)%nat -> mshape (slice b i) p p)
        /\ forall i, (i0 <= i)%nat -> (i < n - 1)%nat -> msum (slice b i) == 1
    end).
  assert (Inv : P 0%nat (Some backward)).
  { rewrite <- H. apply for_range_down_inv_idx.
    - simpl. split; [unfold dim0, tfull; apply repeat_length|]. split.
      + intros i' Hi'. unfold slice, tfull. rewrite nth_repeat_lt by exact Hi'.
        apply mshape_mfull.
      + intros; lia.
    - intros i0 [b|] Hi0 HP; simpl; [|exact I].
      destruct HP as (Hdim & Hshape & Hsum).
      destruct (mdiv_checked _ _) as [m|] eqn:E; simpl; [|exact I].
      apply mdiv_checked_some in E. destruct E as [Hnz ->].
      set (c := mmul (slice b (i0 + 1)) (slice point_estimate (i0 + 1))) in *.
      assert (Sc : mshape c p p) by (apply mshape_mmul; [apply Hshape; lia | exact Hp]).
      assert (Sm : mshape (mdiv c (msum c)) p p) by (apply mshape_mdiv; assumption).
      assert (Hm : msum (mdiv c (msum c)) == 1)
        by (apply msum_mdiv; [exact Hnz | reflexivity]).
      split; [rewrite dim0_upd; exact Hdim|]. split.
      + intros i' Hi'. destruct (Nat.eq_dec i0 i') as [->|Hne].
        * rewrite slice_upd_same by lia. apply mshape_transmit; assumption.
        * rewrite slice_upd_other by exact Hne. apply Hshape. exact Hi'.
      + intros i' Hlo Hhi. destruct (Nat.eq_dec i0 i') as [->|Hne].
        * rewrite slice_upd_same by lia. apply (transmit_mass_square _ _ p); assumption.
        * rewrite slice_upd_other by exact Hne. apply Hsum; lia. }
  apply (proj2 (proj2 Inv)); lia.
Qed.

Lemma diploid_backward_square_normalized_witness :
  msum (slice square_backward 0) == 1.
Proof.
  apply (diploid_backward_square_normalized square_emission third_rates
           square_backward 0);
    [vm_compute; reflexivity | reflexivity | vm_compute; lia | vm_compute; lia].
Defined.



(* ================================================================== *)
(** * Further properties of the emission models *)
(* ================================================================== *)

(** X13 (getDiploidPointEstimates, lines 100-129): at a locus whose
    genotype and two phased alleles are all known, the weight of a hypothesis
    pair is the product of two factors, one for each parent: [1 - error[i]]
    when the hypothesis allele equals the phased allele of that parent,
    [error[i]] when it differs.  The genotype itself is not compared. *)
Theorem phased_emission_weight (indGeno indPatHap indMatHap : ivector)
    (paternalHaplotypes maternalHaplotypes : imatrix) (error : vector) (i j k : nat) :
  (i < icols maternalHaplotypes)%nat ->
  (j < irows paternalHaplotypes)%nat ->
  (k < irows maternalHaplotypes)%nat ->
  iget indGeno i <> 9%Z -> iget indPatHap i <> 9%Z -> iget indMatHap i <> 9%Z ->
  tget (getDiploidPointEstimates indGeno indPatHap indMatHap
          paternalHaplotypes maternalHaplotypes error) i j k
  == (if (iget indPatHap i =? imget paternalHaplotypes j i)%Z
      then 1 - vget error i else vget error i)
     * (if (iget indMatHap i =? imget maternalHaplotypes k i)%Z
        then 1 - vget error i else vget error i).
Proof.
  intros Hi Hj Hk Hg Hp Hm.
  rewrite getDiploidPointEstimates_cell by assumption.
  apply Z.eqb_neq in Hg, Hp, Hm. rewrite Hg. unfold stored_weight.
  rewrite Hp, Hm. simpl negb. simpl andb. cbv iota zeta.
  destruct (iget indPatHap i =? imget paternalHaplotypes j i)%Z,
    (iget indMatHap i =? imget maternalHaplotypes k i)%Z; ring.
Qed.

Lemma phased_emission_weight_witness :
  tget (getDiploidPointEstimates [1%Z; 1%Z] seen_paternal seen_maternal
          paternal_library maternal_library tenth_errors) 1 0 1
  == (if (iget seen_paternal 1 =? imget paternal_library 0 1)%Z
      then 1 - vget tenth_errors 1 else vget tenth_errors 1)
     * (if (iget seen_maternal 1 =? imget maternal_library 1 1)%Z
        then 1 - vget tenth_errors 1 else vget tenth_errors 1).
Proof.
  apply (phased_emission_weight [1%Z; 1%Z] seen_paternal seen_maternal
           paternal_library maternal_library tenth_errors 1 0 1);
    vm_compute; lia.
Defined.

(** The emission tensor has the shape [(nLoci, nPat, nMat)]. *)
Lemma getDiploidPointEstimates_shape (indGeno indPatHap indMatHap : ivector)
    (pat mat : imatrix) (error : vector) :
  tshape (getDiploidPointEstimates indGeno indPatHap indMatHap pat mat error)
    (icols mat) (irows pat) (irows mat).
Proof.
  unfold getDiploidPointEstimates. cbv zeta.
  set (nPat := irows pat). set (nMat := irows mat). set (nLoci := icols mat).
  rewrite (for_range_ext nLoci _
    (fun i t =>
       if negb (iget indGeno i =? 9)%Z
       then for_range nPat (fun j t =>
              for_range nMat (fun k t =>
                tupd t i j k
                  (stored_weight indGeno indPatHap indMatHap pat mat error i j k)) t) t
       else t)).
  - apply (fill_tensor_cells (tfull nLoci nPat nMat 1) nLoci nPat nMat
             (fun i => negb (iget indGeno i =? 9)%Z)
             (stored_weight indGeno indPatHap indMatHap pat mat error)
             (tshape_tfull _ _ _ _)).
  - intros i' t _. destruct (negb (iget indGeno i' =? 9)%Z); [|reflexivity].
    apply for_range_ext. intros j' t' _.
    apply for_range_ext. intros k' t'' _.
    unfold stored_weight.
    destruct (negb (iget indPatHap i' =? 9)%Z && negb (iget indMatHap i' =? 9)%Z).
    + reflexivity.
    + destruct (_ =? _)%Z; reflexivity.
Qed.

Lemma valid_errors_vget (error : vector) (nLoci i : nat) :
  valid_errors error nLoci = true -> (i < nLoci)%nat ->
  0 < vget error i /\ vget error i < 1.
Proof.
  unfold valid_errors. intros H Hi. apply andb_prop in H. destruct H as [Hlen Hall].
  apply Nat.leb_le in Hlen.
  assert (Hi' : (i < List.length error)%nat) by lia.
  pose proof (forallb_nth _ error i 0 Hall Hi') as He. cbv beta in He.
  apply andb_prop in He. destruct He as [H0 H1].
  apply Bool.negb_true_iff in H0, H1. unfold vget. split.
  - destruct (Qlt_le_dec 0 (nth i error 0)) as [Hlt|Hle]; [exact Hlt|].
    apply Qle_bool_iff in Hle. congruence.
  - destruct (Qlt_le_dec (nth i error 0) 1) as [Hlt|Hle]; [exact Hlt|].
    apply Qle_bool_iff in Hle. congruence.
Qed.

Lemma stored_weight_pos (indGeno indPatHap indMatHap : ivector) (pat mat : imatrix)
    (error : vector) (i j k : nat) :
  0 < vget error i -> vget error i < 1 ->
  0 < stored_weight indGeno indPatHap indMatHap pat mat error i j k.
Proof.
  intros H0 H1. unfold stored_weight.
  assert (0 < vget error i * vget error i) by (apply Qmult_lt_0_compat; assumption).
  assert (0 < (1 - vget error i) * vget error i) by (apply Qmult_lt_0_compat; lra).
  assert (0 < (1 - vget error i) * (1 - vget error i))
    by (apply Qmult_lt_0_compat; lra).
  destruct (_ && _)%bool; cbv zeta.
  - destruct (_ =? _)%Z, (_ =? _)%Z; lra.
  - destruct (_ =? _)%Z; lra.
Qed.

Lemma getDiploidPointEstimates_pos (indGeno indPatHap indMatHap : ivector)
    (pat mat : imatrix) (error : vector) :
  valid_errors error (icols mat) = true ->
  tpositive (getDiploidPointEstimates indGeno indPatHap indMatHap pat mat error)
    (icols mat) (irows pat) (irows mat).
Proof.
  intros Herr.
  destruct (getDiploidPointEstimates_shape indGeno indPatHap indMatHap pat mat error)
    as [Hdim Hshape].
  split; [exact Hdim|]. intros i Hi. split; [apply Hshape; exact Hi|].
  intros j k Hj Hk.
  change (0 < tget (getDiploidPointEstimates indGeno indPatHap indMatHap
                      pat mat error) i j k).
  rewrite getDiploidPointEstimates_cell by assumption.
  destruct (negb _); [|reflexivity].
  destruct (valid_errors_vget error _ i Herr Hi) as [H0 H1].
  apply stored_weight_pos; assumption.
Qed.

(** X14 (getDiploidPointEstimates, lines 100-129): for error rates strictly
    between 0 and 1 the emission tensor has the shape [(nLoci, nPat, nMat)]
    and every weight in it is positive, whatever the observations are. *)
Theorem emission_weights_positive (indGeno indPatHap indMatHap : ivector)
    (paternalHaplotypes maternalHaplotypes : imatrix) (error : vector) :
  valid_errors error (icols maternalHaplotypes) = true ->
  let pointEst :=
    getDiploidPointEstimates indGeno indPatHap indMatHap
      paternalHaplotypes maternalHaplotypes error in
  tshape pointEst (icols maternalHaplotypes) (irows paternalHaplotypes)
    (irows maternalHaplotypes)
  /\ forall i j k,
       (i < icols maternalHaplotypes)%nat ->
       (j < irows paternalHaplotypes)%nat ->
       (k < irows maternalHaplotypes)%nat ->
       0 < tget pointEst i j k.
Proof.
  intros Herr pointEst. split.
  - apply getDiploidPointEstimates_shape.
  - intros i j k Hi Hj Hk.
    destruct (getDiploidPointEstimates_pos indGeno indPatHap indMatHap
                paternalHaplotypes maternalHaplotypes error Herr) as [_ Hpos].
    apply (Hpos i Hi); assumption.
Qed.

Lemma emission_weights_positive_witness :
  tshape (getDiploidPointEstimates seen_genotypes seen_paternal seen_maternal
            paternal_library maternal_library tenth_errors) 2 2 2
  /\ forall i j k, (i < 2)%nat -> (j < 2)%nat -> (k < 2)%nat ->
       0 < tget (getDiploidPointEstimates seen_genotypes seen_paternal seen_maternal
                   paternal_library maternal_library tenth_errors) i j k.
Proof.
  apply (emission_weights_positive seen_genotypes seen_paternal seen_maternal
           paternal_library maternal_library tenth_errors).
  reflexivity.
Defined.

(** X15 (getDiploidPointEstimates_geno, lines 131-147): in the array of the
    caller, a cell at a locus whose genotype is missing keeps its value, and
    a cell at any other locus is overwritten with [1 - error[i]^2] when the
    two hypothesis alleles add up to the genotype and with [error[i]^2]
    otherwise. *)
Theorem genotype_emission_weight (indGeno : ivector)
    (paternalHaplotypes maternalHaplotypes : imatrix) (error : vector)
    (pointEst : tensor) (i j k : nat) :
  has_shape pointEst (icols maternalHaplotypes) (irows paternalHaplotypes)
    (irows maternalHaplotypes) = true ->
  (i < icols maternalHaplotypes)%nat ->
  (j < irows paternalHaplotypes)%nat ->
  (k < irows maternalHaplotypes)%nat ->
  tget (getDiploidPointEstimates_geno indGeno paternalHaplotypes maternalHaplotypes
          error pointEst) i j k
  == if (iget indGeno i =? 9)%Z then tget pointEst i j k
     else if (imget paternalHaplotypes j i + imget maternalHaplotypes k i
              =? iget indGeno i)%Z
          then 1 - vget error i ^ 2
          else vget error i ^ 2.
Proof.
  intros Hshape Hi Hj Hk. apply has_shape_tshape in Hshape.
  unfold getDiploidPointEstimates_geno. cbv zeta.
  set (nPat := irows paternalHaplotypes) in *.
  set (nMat := irows maternalHaplotypes) in *.
  set (nLoci := icols maternalHaplotypes) in *.
  pose (v := fun i j k =>
    if (imget paternalHaplotypes j i + imget maternalHaplotypes k i =? iget indGeno i)%Z
    then 1 - vget error i * vget error i
    else vget error i * vget error i).
  rewrite (for_range_ext nLoci _
    (fun i t =>
       if negb (iget indGeno i =? 9)%Z
       then for_range nPat (fun j t =>
              for_range nMat (fun k t => tupd t i j k (v i j k)) t) t
       else t)).
  - pose proof (fill_tensor_cells pointEst nLoci nPat nMat
                  (fun i => negb (iget indGeno i =? 9)%Z) v Hshape) as R.
    cbv zeta in R. destruct R as [_ Hcell]. rewrite Hcell.
    replace (i <? nLoci)%nat with true by (symmetry; apply Nat.ltb_lt; exact Hi).
    replace (j <? nPat)%nat with true by (symmetry; apply Nat.ltb_lt; exact Hj).
    replace (k <? nMat)%nat with true by (symmetry; apply Nat.ltb_lt; exact Hk).
    simpl. rewrite !Bool.andb_true_r. unfold v.
    destruct (iget indGeno i =? 9)%Z; simpl; [reflexivity|].
    destruct (_ =? _)%Z; ring.
  - intros i' t _. destruct (negb (iget indGeno i' =? 9)%Z); [|reflexivity].
    apply for_range_ext. intros j' t' _.
    apply for_range_ext. intros k' t'' _.
    unfold v. destruct (_ =? _)%Z; reflexivity.
Qed.

Lemma genotype_emission_weight_witness :
  tget (getDiploidPointEstimates_geno seen_genotypes paternal_library maternal_library
          tenth_errors ones_emission) 0 0 1
  == if (iget seen_genotypes 0 =? 9)%Z then tget ones_emission 0 0 1
     else if (imget paternal_library 0 0 + imget maternal_library 1 0
              =? iget seen_genotypes 0)%Z
          then 1 - vget tenth_errors 0 ^ 2
          else vget tenth_errors 0 ^ 2.
Proof.
  apply (genotype_emission_weight seen_genotypes paternal_library maternal_library
           tenth_errors ones_emission 0 0 1); vm_compute; try reflexivity; lia.
Defined.

(** X16 (getDiploidPointEstimates, lines 100-129, and
    getDiploidPointEstimates_geno, lines 131-147): at a locus where one of
    the two phased alleles is missing, the emissions built from genotypes
    and phased alleles are those that the genotype-only builder writes into
    an array of ones. *)
Theorem unphased_emissions_agree (indGeno indPatHap indMatHap : ivector)
    (paternalHaplotypes maternalHaplotypes : imatrix) (error : vector) (i j k : nat) :
  (i < icols maternalHaplotypes)%nat ->
  (j < irows paternalHaplotypes)%nat ->
  (k < irows maternalHaplotypes)%nat ->
  iget indPatHap i = 9%Z \/ iget indMatHap i = 9%Z ->
  tget (getDiploidPointEstimates indGeno indPatHap indMatHap
          paternalHaplotypes maternalHaplotypes error) i j k
  == tget (getDiploidPointEstimates_geno indGeno paternalHaplotypes maternalHaplotypes
             error
             (tfull (icols maternalHaplotypes) (irows paternalHaplotypes)
                (irows maternalHaplotypes) 1)) i j k.
Proof.
  intros Hi Hj Hk Hmissing.
  rewrite getDiploidPointEstimates_cell by assumption.
  unfold getDiploidPointEstimates_geno. cbv zeta.
  set (nPat := irows paternalHaplotypes) in *.
  set (nMat := irows maternalHaplotypes) in *.
  set (nLoci := icols maternalHaplotypes) in *.
  pose (v := fun i j k =>
    if (imget paternalHaplotypes j i + imget maternalHaplotypes k i =? iget indGeno i)%Z
    then 1 - vget error i * vget error i
    else vget error i * vget error i).
  rewrite (for_range_ext nLoci _
    (fun i t =>
       if negb (iget indGeno i =? 9)%Z
       then for_range nPat (fun j t =>
              for_range nMat (fun k t => tupd t i j k (v i j k)) t) t
       else t)).
  - pose proof (fill_tensor_cells (tfull nLoci nPat nMat 1) nLoci nPat nMat
                  (fun i => negb (iget indGeno i =? 9)%Z) v (tshape_tfull _ _ _ _)) as R.
    cbv zeta in R. destruct R as [_ Hcell]. rewrite Hcell.
    rewrite tget_tfull by assumption.
    replace (i <? nLoci)%nat with true by (symmetry; apply Nat.ltb_lt; exact Hi).
    replace (j <? nPat)%nat with true by (symmetry; apply Nat.ltb_lt; exact Hj).
    replace (k <? nMat)%nat with true by (symmetry; apply Nat.ltb_lt; exact Hk).
    simpl. rewrite !Bool.andb_true_r.
    destruct (negb (iget indGeno i =? 9)%Z); [|reflexivity].
    unfold stored_weight, v.
    replace (negb (iget indPatHap i =? 9)%Z && negb (iget indMatHap i =? 9)%Z)
      with false; [reflexivity|].
    symmetry. destruct Hmissing as [-> | ->]; simpl;
      [reflexivity | apply Bool.andb_false_r].
  - intros i' t _. destruct (negb (iget indGeno i' =? 9)%Z); [|reflexivity].
    apply for_range_ext. intros j' t' _.
    apply for_range_ext. intros k' t'' _.
    unfold v. destruct (_ =? _)%Z; reflexivity.
Qed.

Lemma unphased_emissions_agree_witness :
  tget (getDiploidPointEstimates seen_genotypes seen_paternal seen_maternal
          paternal_library maternal_library tenth_errors) 0 1 1
  == tget (getDiploidPointEstimates_geno seen_genotypes paternal_library
             maternal_library tenth_errors
             (tfull (icols maternal_library) (irows paternal_library)
                (irows maternal_library) 1)) 0 1 1.
Proof.
  apply (unphased_emissions_agree seen_genotypes seen_paternal seen_maternal
           paternal_library maternal_library tenth_errors 0 1 1);
    vm_compute; lia.
Defined.

(* ================================================================== *)
(** * Loops over arrays that keep the locus on the last axis *)
(* ================================================================== *)

(** The loop [for k: a[j, k, i] = f k a[j, k, i]]. *)
Lemma update_last_row (t0 : tensor) (n p q i j : nat) (f : nat -> Q -> Q) :
  tshape t0 n p q -> (j < n)%nat -> (i < q)%nat ->
  let t := for_range p (fun k t => tupd t j k i (f k (tget t j k i))) t0 in
  tshape t n p q
  /\ forall j' k' i',
       tget t j' k' i'
       = if ((j' =? j) && (i' =? i) && (k' <? p))%nat
         then f k' (tget t0 j' k' i') else tget t0 j' k' i'.
Proof.
  intros Hshape Hj Hi t. subst t.
  apply (for_range_inv (fun k0 t =>
    tshape t n p q
    /\ forall j' k' i',
         tget t j' k' i'
         = if ((j' =? j) && (i' =? i) && (k' <? k0))%nat
           then f k' (tget t0 j' k' i') else tget t0 j' k' i')).
  - split; [exact Hshape|]. intros j' k' i'.
    rewrite Bool.andb_false_r. reflexivity.
  - intros k0 t Hk0 [Ht Hcell]. split; [apply tshape_tupd; exact Ht|].
    intros j' k' i'.
    destruct (Nat.eq_dec j j') as [<-|Hj'];
      [destruct (Nat.eq_dec k0 k') as [<-|Hk'];
       [destruct (Nat.eq_dec i i') as [<-|Hi']| ] | ].
    + rewrite (tget_tupd_same t n p q) by assumption.
      rewrite (Hcell j k0 i). cell_cases.
    + rewrite tget_tupd_other by (right; right; exact Hi').
      rewrite Hcell. cell_cases.
    + rewrite tget_tupd_other by (right; left; exact Hk').
      rewrite Hcell. cell_cases.
    + rewrite tget_tupd_other by (left; exact Hj').
      rewrite Hcell. cell_cases.
Qed.

(** The double loop over the grid at one locus [i]. *)
Lemma update_last_locus (t0 : tensor) (n p q i : nat) (f : nat -> nat -> Q -> Q) :
  tshape t0 n p q -> (i < q)%nat ->
  let t :=
    for_range n (fun j t =>
      for_range p (fun k t => tupd t j k i (f j k (tget t j k i))) t) t0 in
  tshape t n p q
  /\ forall j' k' i',
       tget t j' k' i'
       = if ((i' =? i) && (j' <? n) && (k' <? p))%nat
         then f j' k' (tget t0 j' k' i') else tget t0 j' k' i'.
Proof.
  intros Hshape Hi t. subst t.
  apply (for_range_inv (fun j0 t =>
    tshape t n p q
    /\ forall j' k' i',
         tget t j' k' i'
         = if ((i' =? i) && (j' <? j0) && (k' <? p))%nat
           then f j' k' (tget t0 j' k' i') else tget t0 j' k' i')).
  - split; [exact Hshape|]. intros j' k' i'.
    rewrite Bool.andb_false_r. reflexivity.
  - intros j0 t Hj0 [Ht Hcell].
    pose proof (update_last_row t n p q i j0 (f j0) Ht Hj0 Hi) as R.
    cbv zeta in R. destruct R as [Ht' Hrow].
    split; [exact Ht'|].
    intros j' k' i'. rewrite Hrow, !Hcell. cell_cases.
Qed.

(** The triple loop, the locus outermost. *)
Lemma update_last_tensor (t0 : tensor) (n p q : nat) (f : nat -> nat -> nat -> Q -> Q) :
  tshape t0 n p q ->
  let t :=
    for_range q (fun i t =>
      for_range n (fun j t =>
        for_range p (fun k t => tupd t j k i (f i j k (tget t j k i))) t) t) t0 in
  tshape t n p q
  /\ forall j' k' i',
       tget t j' k' i'
       = if ((i' <? q) && (j' <? n) && (k' <? p))%nat
         then f i' j' k' (tget t0 j' k' i') else tget t0 j' k' i'.
Proof.
  intros Hshape t. subst t.
  apply (for_range_inv (fun i0 t =>
    tshape t n p q
    /\ forall j' k' i',
         tget t j' k' i'
         = if ((i' <? i0) && (j' <? n) && (k' <? p))%nat
           then f i' j' k' (tget t0 j' k' i') else tget t0 j' k' i')).
  - split; [exact Hshape|]. intros j' k' i'. reflexivity.
  - intros i0 t Hi0 [Ht Hcell].
    pose proof (update_last_locus t n p q i0 (f i0) Ht Hi0) as R.
    cbv zeta in R. destruct R as [Ht' Hlocus].
    split; [exact Ht'|].
    intros j' k' i'. rewrite Hlocus, !Hcell. cell_cases.
Qed.

Lemma tshape_dims (t : tensor) (n p q : nat) :
  tshape t n p q -> (0 < n)%nat -> (0 < p)%nat ->
  dim0 t = n /\ dim1 t = p /\ dim2 t = q.
Proof.
  intros [Hn Hs] Hn0 Hp. split; [exact Hn|].
  pose proof (Hs 0%nat Hn0) as Hshape. split.
  - apply Hshape.
  - apply (mshape_cols _ _ _ Hshape Hp).
Qed.

(** X18 (addDiploidPrior, lines 60-66): on an array of shape
    [(nPat, nMat, nLoci)] every cell [(j, k, i)] is multiplied, once, by the
    prior of its hypothesis pair, [prior[j, k]]. *)
Theorem addDiploidPrior_cell (pointEst : tensor) (prior : matrix)
    (nPat nMat nLoci j k i : nat) :
  has_shape pointEst nPat nMat nLoci = true ->
  (j < nPat)%nat -> (k < nMat)%nat -> (i < nLoci)%nat ->
  tget (addDiploidPrior pointEst prior) j k i
  == tget pointEst j k i * mget prior j k.
Proof.
  intros Hshape Hj Hk Hi. apply has_shape_tshape in Hshape.
  unfold addDiploidPrior.
  destruct (tshape_dims _ _ _ _ Hshape ltac:(lia) ltac:(lia)) as (-> & -> & ->).
  pose proof (update_last_tensor pointEst nPat nMat nLoci
                (fun _ j k x => x * mget prior j k) Hshape) as R.
  cbv zeta in R. destruct R as [_ Hcell]. cbv zeta. rewrite Hcell.
  replace (i <? nLoci)%nat with true by (symmetry; apply Nat.ltb_lt; exact Hi).
  replace (j <? nPat)%nat with true by (symmetry; apply Nat.ltb_lt; exact Hj).
  replace (k <? nMat)%nat with true by (symmetry; apply Nat.ltb_lt; exact Hk).
  reflexivity.
Qed.

Lemma addDiploidPrior_cell_witness :
  tget (addDiploidPrior square_emission skew_prior) 2 1 0
  == tget square_emission 2 1 0 * mget skew_prior 2 1.
Proof.
  apply (addDiploidPrior_cell square_emission skew_prior 3 2 2 2 1 0);
    try reflexivity; lia.
Defined.

(* ================================================================== *)
(** * The emission model with genotype probabilities *)
(* ================================================================== *)

Lemma for_range_snd {A B : Type} (n : nat) (body : nat -> A * B -> A * B)
    (body2 : nat -> B -> B) (s : A * B) :
  (forall i a b, (i < n)%nat -> snd (body i (a, b)) = body2 i b) ->
  snd (for_range n body s) = for_range n body2 (snd s).
Proof.
  intros H. induction n as [|n IH].
  - reflexivity.
  - rewrite !for_range_S.
    destruct (for_range n body s) as [a b] eqn:E.
    rewrite H by lia. f_equal.
    simpl in IH. apply IH. intros i a' b' Hi. apply H. lia.
Qed.

(** For alleles that are 0 or 1 one of the four tests assigns [value]. *)
Lemma assigned_value_binary (indProbs : matrix) (error : vector) (i : nat) (p m : Z)
    (value : Q) :
  p = 0%Z \/ p = 1%Z -> m = 0%Z \/ m = 1%Z ->
  assigned_value indProbs error i p m value
  = assigned_value indProbs error i p m 0.
Proof. intros [-> | ->] [-> | ->]; reflexivity. Qed.

(** X17 (getDiploidPointEstimates_probs, lines 149-177): for libraries whose
    alleles are all 0 or 1, the weight of the hypothesis pair [(j, k)] at
    locus [i], stored at [pointEst[j, k, i]], is the probability of the
    genotype state of its own allele pair times [(1-e)^2], plus the
    probabilities of the two states that differ in one allele times
    [e(1-e)], plus the probability of the state that differs in both times
    [e^2]; no cell receives the value left over from another cell. *)
Theorem probabilistic_emission_weight (indProbs : matrix)
    (paternalHaplotypes maternalHaplotypes : imatrix) (error : vector) (i j k : nat) :
  binary_library paternalHaplotypes (icols maternalHaplotypes) = true ->
  binary_library maternalHaplotypes (icols maternalHaplotypes) = true ->
  (i < icols maternalHaplotypes)%nat ->
  (j < irows paternalHaplotypes)%nat ->
  (k < irows maternalHaplotypes)%nat ->
  let p_aa := mget indProbs 0 i in
  let p_aA := mget indProbs 1 i in
  let p_Aa := mget indProbs 2 i in
  let p_AA := mget indProbs 3 i in
  let e := vget error i in
  tget (getDiploidPointEstimates_probs indProbs paternalHaplotypes maternalHaplotypes
          error) j k i
  == if (imget paternalHaplotypes j i =? 0)%Z
     then if (imget maternalHaplotypes k i =? 0)%Z
          then p_aa * (1 - e) ^ 2 + (p_aA + p_Aa) * e * (1 - e) + p_AA * e ^ 2
          else p_aA * (1 - e) ^ 2 + (p_aa + p_AA) * e * (1 - e) + p_Aa * e ^ 2
     else if (imget maternalHaplotypes k i =? 0)%Z
          then p_Aa * (1 - e) ^ 2 + (p_aa + p_AA) * e * (1 - e) + p_aA * e ^ 2
          else p_AA * (1 - e) ^ 2 + (p_aA + p_Aa) * e * (1 - e) + p_aa * e ^ 2.
Proof.
  intros Hpat Hmat Hi Hj Hk p_aa p_aA p_Aa p_AA e.
  unfold getDiploidPointEstimates_probs. cbv zeta.
  set (nPat := irows paternalHaplotypes) in *.
  set (nMat := irows maternalHaplotypes) in *.
  set (nLoci := icols maternalHaplotypes) in *.
  pose (w := fun (i j k : nat) (_ : Q) =>
    assigned_value indProbs error i
      (imget paternalHaplotypes j i) (imget maternalHaplotypes k i) 0).
  rewrite (for_range_snd nLoci _
    (fun i t =>
       for_range nPat (fun j t =>
         for_range nMat (fun k t => tupd t j k i (w i j k (tget t j k i))) t) t)).
  - pose proof (update_last_tensor (tfull nPat nMat nLoci 1) nPat nMat nLoci w
                  (tshape_tfull _ _ _ _)) as R.
    cbv zeta in R. destruct R as [_ Hcell]. simpl snd. rewrite Hcell.
    replace (i <? nLoci)%nat with true by (symmetry; apply Nat.ltb_lt; exact Hi).
    replace (j <? nPat)%nat with true by (symmetry; apply Nat.ltb_lt; exact Hj).
    replace (k <? nMat)%nat with true by (symmetry; apply Nat.ltb_lt; exact Hk).
    simpl andb. cbv iota. unfold w.
    destruct (binary_library_allele _ _ j i Hpat Hj Hi) as [-> | ->];
      destruct (binary_library_allele _ _ k i Hmat Hk Hi) as [-> | ->];
      reflexivity.
  - intros i' a b Hi'.
    apply (for_range_snd nPat _
      (fun j t => for_range nMat (fun k t => tupd t j k i' (w i' j k (tget t j k i'))) t)
      (a, b)).
    intros j' a' b' Hj'.
    apply (for_range_snd nMat _
      (fun k t => tupd t j' k i' (w i' j' k (tget t j' k i'))) (a', b')).
    intros k' a'' b'' Hk'. simpl snd. unfold w. f_equal.
    apply (assigned_value_binary indProbs error i'
             (imget paternalHaplotypes j' i') (imget maternalHaplotypes k' i') a'').
    + apply (binary_library_allele _ _ j' i' Hpat Hj' Hi').
    + apply (binary_library_allele _ _ k' i' Hmat Hk' Hi').
Qed.

Lemma probabilistic_emission_weight_witness :
  tget (getDiploidPointEstimates_probs seen_probabilities paternal_library
          maternal_library tenth_errors) 1 0 1
  == if (imget paternal_library 1 1 =? 0)%Z
     then if (imget maternal_library 0 1 =? 0)%Z
          then mget seen_probabilities 0 1 * (1 - vget tenth_errors 1) ^ 2
               + (mget seen_probabilities 1 1 + mget seen_probabilities 2 1)
                 * vget tenth_errors 1 * (1 - vget tenth_errors 1)
               + mget seen_probabilities 3 1 * vget tenth_errors 1 ^ 2
          else mget seen_probabilities 1 1 * (1 - vget tenth_errors 1) ^ 2
               + (mget seen_probabilities 0 1 + mget seen_probabilities 3 1)
                 * vget tenth_errors 1 * (1 - vget tenth_errors 1)
               + mget seen_probabilities 2 1 * vget tenth_errors 1 ^ 2
     else if (imget maternal_library 0 1 =? 0)%Z
          then mget seen_probabilities 2 1 * (1 - vget tenth_errors 1) ^ 2
               + (mget seen_probabilities 0 1 + mget seen_probabilities 3 1)
                 * vget tenth_errors 1 * (1 - vget tenth_errors 1)
               + mget seen_probabilities 1 1 * vget tenth_errors 1 ^ 2
          else mget seen_probabilities 3 1 * (1 - vget tenth_errors 1) ^ 2
               + (mget seen_probabilities 1 1 + mget seen_probabilities 2 1)
                 * vget tenth_errors 1 * (1 - vget tenth_errors 1)
               + mget seen_probabilities 0 1 * vget tenth_errors 1 ^ 2.
Proof.
  apply (probabilistic_emission_weight seen_probabilities paternal_library
           maternal_library tenth_errors 1 1 0);
    try reflexivity; vm_compute; lia.
Defined.

(* ================================================================== *)
(** * Normalisation of an array that keeps the locus last *)
(* ================================================================== *)

Lemma accumulate_sum (n : nat) (f : nat -> Q) (s0 : Q) :
  for_range n (fun k s => s + f k) s0 == s0 + sum_upto n f.
Proof.
  induction n as [|n IH].
  - simpl. unfold for_range. simpl. ring.
  - rewrite for_range_S, IH. simpl. ring.
Qed.

Lemma locus_total_sum (array : tensor) (n p i : nat) :
  locus_total array n p i == grid_sum n p (fun j k => tget array j k i).
Proof.
  unfold locus_total, grid_sum.
  assert (H : forall s0,
    for_range n (fun j sum_ =>
      for_range p (fun k sum_ => sum_ + tget array j k i) sum_) s0
    == s0 + sum_upto n (fun j => sum_upto p (fun k => tget array j k i))).
  { intros s0. induction n as [|n IH].
    - unfold for_range. simpl. ring.
    - rewrite for_range_S.
      rewrite (accumulate_sum p (fun k => tget array n k i)).
      rewrite IH. simpl. ring. }
  rewrite H. ring.
Qed.

Lemma for_range_some {A : Type} (n : nat) (body : nat -> option A -> option A)
    (body' : nat -> A -> A) (a : A) :
  (forall i x, (i < n)%nat -> body i (Some x) = Some (body' i x)) ->
  for_range n body (Some a) = Some (for_range n body' a).
Proof.
  intros H. induction n as [|n IH].
  - reflexivity.
  - rewrite !for_range_S, IH by (intros; apply H; lia). apply H. lia.
Qed.

Lemma fold_left_none {A : Type} (body : nat -> option A -> option A) (l : list nat) :
  (forall i, body i None = None) ->
  fold_left (fun s i => body i s) l None = None.
Proof.
  intros H. induction l as [|x l IH]; simpl; [reflexivity|].
  rewrite H. exact IH.
Qed.

(** The second double loop of [diploid_normalize] at locus [i]. *)
Lemma divide_locus_nonzero (t : tensor) (n p i : nat) (s : Q) :
  Qeq_bool s 0 = false ->
  for_range n (fun j st =>
    for_range p (fun k st =>
      array <- st ;;
      if Qeq_bool s 0 then None
      else Some (tupd array j k i (tget array j k i / s))) st) (Some t)
  = Some (for_range n (fun j t =>
            for_range p (fun k t => tupd t j k i (tget t j k i / s)) t) t).
Proof.
  intros Hs. apply for_range_some. intros j x _.
  apply for_range_some. intros k y _. simpl. rewrite Hs. reflexivity.
Qed.

Lemma divide_locus_zero (t : tensor) (n p i : nat) (s : Q) :
  Qeq_bool s 0 = true -> (0 < n)%nat -> (0 < p)%nat ->
  for_range n (fun j st =>
    for_range p (fun k st =>
      array <- st ;;
      if Qeq_bool s 0 then None
      else Some (tupd array j k i (tget array j k i / s))) st) (Some t)
  = None.
Proof.
  intros Hs Hn Hp.
  assert (Hinner : forall j st,
    for_range p (fun k st =>
      array <- st ;;
      if Qeq_bool s 0 then None
      else Some (tupd array j k i (tget array j k i / s))) st = None).
  { intros j st. destruct p as [|p']; [lia|]. unfold for_range.
    simpl. destruct st as [a|]; simpl; [rewrite Hs|]; apply fold_left_none;
      reflexivity. }
  destruct n as [|n']; [lia|]. unfold for_range at 1. simpl.
  rewrite Hinner. apply fold_left_none. intros j. apply Hinner.
Qed.

(** Every cell of the result, locus by locus. *)
Lemma diploid_normalize_cells (array normalized : tensor) (n p q : nat) :
  tshape array n p q -> (0 < n)%nat -> (0 < p)%nat ->
  diploid_normalize array = Some normalized ->
  forall i, (i < q)%nat ->
    ~ grid_sum n p (fun j k => tget array j k i) == 0
    /\ forall j k, (j < n)%nat -> (k < p)%nat ->
         tget normalized j k i
         == tget array j k i / grid_sum n p (fun j k => tget array j k i).
Proof.
  intros Hshape Hn Hp H. unfold diploid_normalize in H.
  destruct (tshape_dims _ _ _ _ Hshape Hn Hp) as (Hd0 & Hd1 & Hd2).
  rewrite Hd0, Hd1, Hd2 in H.
  set (total := fun i => grid_sum n p (fun j k => tget array j k i)).
  pose (P := fun (i0 : nat) (st : option tensor) =>
    match st with
    | None => True
    | Some t =>
        tshape t n p q
        /\ forall j k i, (j < n)%nat -> (k < p)%nat -> (i < q)%nat ->
             if (i <? i0)%nat
             then ~ total i == 0 /\ tget t j k i == tget array j k i / total i
             else tget t j k i = tget array j k i
    end).
  assert (Inv : P q (Some normalized)).
  { rewrite <- H. apply for_range_inv.
    - simpl. split; [exact Hshape|]. intros j k i _ _ _. reflexivity.
    - intros i0 [t|] Hi0 HP; [|simpl; exact I].
      unfold P in HP. destruct HP as [Ht Hcell].
      unfold P. cbv beta. unfold bind at 1. cbv beta iota zeta.
      assert (Hsum : locus_total t n p i0 == total i0).
      { rewrite locus_total_sum. unfold total. apply grid_sum_ext.
        intros j k Hj Hk. pose proof (Hcell j k i0 Hj Hk Hi0) as E.
        rewrite Nat.ltb_irrefl in E. rewrite E. reflexivity. }
      destruct (Bool.bool_dec (Qeq_bool (locus_total t n p i0) 0) true) as [Ez|Ez].
      + rewrite divide_locus_zero by assumption. exact I.
      + apply Bool.not_true_is_false in Ez.
        rewrite divide_locus_nonzero by exact Ez.
        pose proof (update_last_locus t n p q i0
                      (fun _ _ x => x / locus_total t n p i0) Ht Hi0) as R.
        cbv zeta in R. destruct R as [Ht' Hnew].
        split; [exact Ht'|].
        intros j k i Hj Hk Hi. rewrite Hnew.
        replace (j <? n)%nat with true by (symmetry; apply Nat.ltb_lt; exact Hj).
        replace (k <? p)%nat with true by (symmetry; apply Nat.ltb_lt; exact Hk).
        pose proof (Hcell j k i Hj Hk Hi) as E.
        destruct (Nat.eqb_spec i i0) as [->|Hne].
        * rewrite Nat.ltb_irrefl in E. simpl andb. cbv iota.
          replace (i0 <? Datatypes.S i0)%nat with true
            by (symmetry; apply Nat.ltb_lt; lia).
          apply Qeq_bool_neq in Ez. rewrite Hsum in Ez.
          split; [exact Ez|]. rewrite E, Hsum. reflexivity.
        * simpl andb. cbv iota.
          destruct (Nat.ltb_spec i i0) as [Hlt|Hge].
          -- replace (i <? Datatypes.S i0)%nat with true
               by (symmetry; apply Nat.ltb_lt; lia).
             exact E.
          -- replace (i <? Datatypes.S i0)%nat with false
               by (symmetry; apply Nat.ltb_ge; lia).
             exact E. }
  destruct Inv as [_ Hcell]. intros i Hi. split.
  - pose proof (Hcell 0%nat 0%nat i Hn Hp Hi) as E.
    replace (i <? q)%nat with true in E by (symmetry; apply Nat.ltb_lt; exact Hi).
    apply E.
  - intros j k Hj Hk. pose proof (Hcell j k i Hj Hk Hi) as E.
    replace (i <? q)%nat with true in E by (symmetry; apply Nat.ltb_lt; exact Hi).
    apply E.
Qed.

(** X19 (diploid_normalize, lines 180-201): on an array of shape
    [(n_pat, n_mat, n_loci)] with a non-empty grid, when the function returns,
    the sum of the input at every locus was not zero, every cell is the input
    cell divided by the sum of its locus, and the cells of every locus sum
    to 1. *)
Theorem diploid_normalize_sums_to_one (array normalized : tensor)
    (n_pat n_mat n_loci i : nat) :
  has_shape array n_pat n_mat n_loci = true ->
  (0 < n_pat)%nat -> (0 < n_mat)%nat ->
  diploid_normalize array = Some normalized ->
  (i < n_loci)%nat ->
  (forall j k, (j < n_pat)%nat -> (k < n_mat)%nat ->
     tget normalized j k i
     == tget array j k i / grid_sum n_pat n_mat (fun j k => tget array j k i))
  /\ grid_sum n_pat n_mat (fun j k => tget normalized j k i) == 1.
Proof.
  intros Hshape Hn Hp H Hi. apply has_shape_tshape in Hshape.
  destruct (diploid_normalize_cells array normalized n_pat n_mat n_loci
              Hshape Hn Hp H i Hi) as [Hnz Hcell].
  split; [exact Hcell|].
  rewrite (grid_sum_ext _ _ _
    (fun j k => tget array j k i
                * / grid_sum n_pat n_mat (fun j k => tget array j k i)))
    by (intros j k Hj Hk; rewrite (Hcell j k Hj Hk); reflexivity).
  rewrite (grid_sum_times n_pat n_mat (fun j k => tget array j k i)).
  field. exact Hnz.
Qed.

Lemma diploid_normalize_sums_to_one_witness :
  (forall j k, (j < 2)%nat -> (k < 2)%nat ->
     tget locus_last_normalized j k 2
     == tget locus_last_array j k 2
        / grid_sum 2 2 (fun j k => tget locus_last_array j k 2))
  /\ grid_sum 2 2 (fun j k => tget locus_last_normalized j k 2) == 1.
Proof.
  apply (diploid_normalize_sums_to_one locus_last_array locus_last_normalized 2 2 3 2);
    try reflexivity; lia.
Defined.

(** X20 (diploid_normalize, lines 180-201): when the cells of some locus of
    an array with a non-empty grid sum to zero, the division by the sum is a
    division by zero and the function does not return. *)
Theorem diploid_normalize_zero_locus (array : tensor) (n_pat n_mat n_loci i : nat) :
  has_shape array n_pat n_mat n_loci = true ->
  (0 < n_pat)%nat -> (0 < n_mat)%nat -> (i < n_loci)%nat ->
  grid_sum n_pat n_mat (fun j k => tget array j k i) == 0 ->
  diploid_normalize array = None.
Proof.
  intros Hshape Hn Hp Hi Hzero.
  destruct (diploid_normalize array) as [normalized|] eqn:E; [|reflexivity].
  exfalso. apply has_shape_tshape in Hshape.
  destruct (diploid_normalize_cells array normalized n_pat n_mat n_loci
              Hshape Hn Hp E i Hi) as [Hnz _].
  apply Hnz. exact Hzero.
Qed.

Lemma diploid_normalize_zero_locus_witness :
  diploid_normalize locus_last_degenerate = None.
Proof.
  apply (diploid_normalize_zero_locus locus_last_degenerate 2 2 3 1);
    try reflexivity; lia.
Defined.

(* ================================================================== *)
(** * Further properties of the decoders *)
(* ================================================================== *)

(** X21 (getDiploidDosages, lines 68-77): the dosage at locus [i] is the sum
    over all hypothesis pairs [(j, k)] of [hapEst[i, j, k]] times the sum of
    the paternal allele of [j] and the maternal allele of [k] at locus
    [i]. *)
Theorem dosage_entry (hapEst : tensor) (paternalHaplotypes maternalHaplotypes : imatrix)
    (i : nat) :
  (i < icols maternalHaplotypes)%nat ->
  vget (getDiploidDosages hapEst paternalHaplotypes maternalHaplotypes) i
  == grid_sum (irows paternalHaplotypes) (irows maternalHaplotypes) (fun j k =>
       tget hapEst i j k
       * inject_Z (imget paternalHaplotypes j i + imget maternalHaplotypes k i)).
Proof. apply getDiploidDosages_entry. Qed.

Lemma dosage_entry_witness :
  vget (getDiploidDosages skew_posterior single_paternal maternal_library) 1
  == grid_sum (irows single_paternal) (irows maternal_library) (fun j k =>
       tget skew_posterior 1 j k
       * inject_Z (imget single_paternal j 1 + imget maternal_library k 1)).
Proof.
  apply (dosage_entry skew_posterior single_paternal maternal_library 1).
  vm_compute. lia.
Defined.

(** X22 (getDiploidProbabilities, lines 79-98): entry [c] of the result at
    locus [i] is the sum of [hapEst[j, k, i]] over the hypothesis pairs
    [(j, k)] whose paternal allele at locus [i] is [c / 2] and whose maternal
    allele is [c mod 2]. *)
Theorem probabilities_entry (hapEst : tensor)
    (paternalHaplotypes maternalHaplotypes : imatrix) (c i : nat) :
  (c < 4)%nat -> (i < icols maternalHaplotypes)%nat ->
  mget (getDiploidProbabilities hapEst paternalHaplotypes maternalHaplotypes) c i
  == grid_sum (irows paternalHaplotypes) (irows maternalHaplotypes) (fun j k =>
       if ((imget paternalHaplotypes j i =? Z.of_nat (c / 2))
           && (imget maternalHaplotypes k i =? Z.of_nat (c mod 2)))%Z
       then tget hapEst j k i else 0).
Proof. intros Hc Hi. apply getDiploidProbabilities_entry; assumption. Qed.

Lemma probabilities_entry_witness :
  mget (getDiploidProbabilities ones_emission paternal_library maternal_library) 2 1
  == grid_sum (irows paternal_library) (irows maternal_library) (fun j k =>
       if ((imget paternal_library j 1 =? Z.of_nat (2 / 2))
           && (imget maternal_library k 1 =? Z.of_nat (2 mod 2)))%Z
       then tget ones_emission j k 1 else 0).
Proof.
  apply (probabilities_entry ones_emission paternal_library maternal_library 2 1);
    vm_compute; lia.
Defined.

(** X23 (getDiploidProbabilities, lines 79-98): for libraries whose alleles
    are all 0 or 1 the four classes partition the hypothesis pairs: the four
    entries of a locus add up to the sum of [hapEst[j, k, i]] over all
    pairs. *)
Theorem probabilities_partition (hapEst : tensor)
    (paternalHaplotypes maternalHaplotypes : imatrix) (i : nat) :
  binary_library paternalHaplotypes (icols maternalHaplotypes) = true ->
  binary_library maternalHaplotypes (icols maternalHaplotypes) = true ->
  (i < icols maternalHaplotypes)%nat ->
  let probs := getDiploidProbabilities hapEst paternalHaplotypes maternalHaplotypes in
  mget probs 0 i + mget probs 1 i + mget probs 2 i + mget probs 3 i
  == grid_sum (irows paternalHaplotypes) (irows maternalHaplotypes)
       (fun j k => tget hapEst j k i).
Proof.
  intros Hpat Hmat Hi probs. subst probs.
  rewrite !getDiploidProbabilities_entry by (try lia; exact Hi).
  rewrite <- !grid_sum_plus. apply grid_sum_ext. intros j k Hj Hk.
  unfold class_term.
  change (Z.of_nat (0 / 2)) with 0%Z; change (Z.of_nat (0 mod 2)) with 0%Z;
    change (Z.of_nat (1 / 2)) with 0%Z; change (Z.of_nat (1 mod 2)) with 1%Z;
    change (Z.of_nat (2 / 2)) with 1%Z; change (Z.of_nat (2 mod 2)) with 0%Z;
    change (Z.of_nat (3 / 2)) with 1%Z; change (Z.of_nat (3 mod 2)) with 1%Z.
  destruct (binary_library_allele _ _ j i Hpat Hj Hi) as [-> | ->];
    destruct (binary_library_allele _ _ k i Hmat Hk Hi) as [-> | ->];
    simpl; ring.
Qed.

Lemma probabilities_partition_witness :
  mget (getDiploidProbabilities ones_emission paternal_library maternal_library) 0 1
  + mget (getDiploidProbabilities ones_emission paternal_library maternal_library) 1 1
  + mget (getDiploidProbabilities ones_emission paternal_library maternal_library) 2 1
  + mget (getDiploidProbabilities ones_emission paternal_library maternal_library) 3 1
  == grid_sum (irows paternal_library) (irows maternal_library)
       (fun j k => tget ones_emission j k 1).
Proof.
  apply (probabilities_partition ones_emission paternal_library maternal_library 1);
    try reflexivity; vm_compute; lia.
Defined.

(* ================================================================== *)
(** * Further properties of the sampler *)
(* ================================================================== *)

Lemma combine_cell (previous_estimate : matrix) (pat_hap mat_hap : nat) (e : Q)
    (j k : nat) :
  (j < rows previous_estimate)%nat -> (k < cols previous_estimate)%nat ->
  mget (combine_backward_sampled_value previous_estimate pat_hap mat_hap e) j k
  == ((if ((j =? pat_hap) && (k =? mat_hap))%nat then (1 - e) ^ 2 else 0)
      + (if (j =? pat_hap)%nat then (1 - e) * e / of_nat (cols previous_estimate) else 0)
      + (if (k =? mat_hap)%nat then (1 - e) * e / of_nat (rows previous_estimate) else 0)
      + e * e / of_nat (cols previous_estimate * rows previous_estimate))
     * mget previous_estimate j k.
Proof.
  intros Hj Hk. unfold combine_backward_sampled_value. cbv zeta.
  destruct (backward_kernel_cell (rows previous_estimate) (cols previous_estimate)
              pat_hap mat_hap e) as [Hshape Hcell].
  rewrite (mmul_cell _ _ _ _ j k Hshape Hj Hk), (Hcell j k Hj Hk). reflexivity.
Qed.

(** X24 (combine_backward_sampled_value, lines 462-501): with recombination
    rate 0 the only cell with a weight is the pair sampled at the next
    locus: its weight is the previous estimate of that cell, every other
    weight is 0. *)
Theorem combine_without_recombination (previous_estimate : matrix)
    (pat_hap mat_hap j k : nat) :
  (j < rows previous_estimate)%nat -> (k < cols previous_estimate)%nat ->
  mget (combine_backward_sampled_value previous_estimate pat_hap mat_hap 0) j k
  == if ((j =? pat_hap) && (k =? mat_hap))%nat then mget previous_estimate j k else 0.
Proof.
  intros Hj Hk. rewrite combine_cell by assumption. unfold Qdiv.
  change ((1 - 0) ^ 2) with ((1 - 0) * (1 - 0)).
  destruct (j =? pat_hap)%nat, (k =? mat_hap)%nat; simpl; ring.
Qed.

Lemma combine_without_recombination_witness :
  mget (combine_backward_sampled_value (slice two_forward 0) 1 0 0) 1 1
  == if ((1 =? 1) && (1 =? 0))%nat then mget (slice two_forward 0) 1 1 else 0.
Proof.
  apply (combine_without_recombination (slice two_forward 0) 1 0 1 1); vm_compute; lia.
Defined.

(** X25 (combine_backward_sampled_value, lines 462-501): with recombination
    rate 1 the sampled pair has no influence: every weight is the previous
    estimate of the cell divided by the number of cells. *)
Theorem combine_full_recombination (previous_estimate : matrix)
    (pat_hap mat_hap j k : nat) :
  (j < rows previous_estimate)%nat -> (k < cols previous_estimate)%nat ->
  mget (combine_backward_sampled_value previous_estimate pat_hap mat_hap 1) j k
  == mget previous_estimate j k
     / of_nat (cols previous_estimate * rows previous_estimate).
Proof.
  intros Hj Hk. rewrite combine_cell by assumption. unfold Qdiv.
  change ((1 - 1) ^ 2) with ((1 - 1) * (1 - 1)).
  destruct (j =? pat_hap)%nat, (k =? mat_hap)%nat; simpl; ring.
Qed.

Lemma combine_full_recombination_witness :
  mget (combine_backward_sampled_value (slice two_forward 0) 1 0 1) 1 1
  == mget (slice two_forward 0) 1 1
     / of_nat (cols (slice two_forward 0) * rows (slice two_forward 0)).
Proof.
  apply (combine_full_recombination (slice two_forward 0) 1 0 1 1); vm_compute; lia.
Defined.

Lemma sampling_weights_upd (forward_probs : tensor) (rr : vector)
    (pidx midx : list nat) (i i' x y : nat) :
  i' <> (i + 1)%nat ->
  sampling_weights forward_probs rr (upd pidx i' x) (upd midx i' y) i
  = sampling_weights forward_probs rr pidx midx i.
Proof.
  intros Hne. unfold sampling_weights.
  rewrite !nth_upd_other by exact Hne. reflexivity.
Qed.

Section SamplerFacts.

Variable rng : Type.
Variable multinomial_sample_2d : matrix -> rng -> (nat * nat) * rng.

(** X26 (diploidOneSample, lines 406-437): both returned arrays have one
    entry for every locus, and the pair at every locus is a draw of the
    sampling routine from the weights of that locus, which for a locus before
    the last are computed from the pair returned for the next locus.  No
    entry of the arrays made by [np.empty] is left unwritten; the second draw
    at locus 0 uses the weights of the first. *)
Theorem diploidOneSample_draws (forward_probs : tensor) (recombination_rate : vector)
    (g : rng) (i : nat) :
  let sampled := diploidOneSample rng multinomial_sample_2d forward_probs
                   recombination_rate g in
  let paternal_indices := fst (fst sampled) in
  let maternal_indices := snd (fst sampled) in
  (i < dim0 forward_probs)%nat ->
  List.length paternal_indices = dim0 forward_probs
  /\ List.length maternal_indices = dim0 forward_probs
  /\ exists g0,
       (nth i paternal_indices 0%nat, nth i maternal_indices 0%nat)
       = fst (multinomial_sample_2d
                (sampling_weights forward_probs recombination_rate
                   paternal_indices maternal_indices i) g0).
Proof.
  intros sampled paternal_indices maternal_indices Hi.
  subst paternal_indices maternal_indices sampled.
  unfold diploidOneSample.
  set (n := dim0 forward_probs) in *.
  set (weights := sampling_weights forward_probs recombination_rate).
  pose (P := fun (i0 : nat) (st : matrix * list nat * list nat * rng) =>
    match st with
    | (pv, pidx, midx, _) =>
        List.length pidx = n /\ List.length midx = n
        /\ (forall i, (i0 <= i)%nat -> (i < n)%nat ->
              exists g0,
                (nth i pidx 0%nat, nth i midx 0%nat)
                = fst (multinomial_sample_2d (weights pidx midx i) g0))
        /\ ((i0 < n)%nat -> pv = weights pidx midx i0)
    end).
  assert (Inv : P 0%nat
    (for_range_down n (fun i st =>
       let '(pvals, paternal_indices, maternal_indices, g) := st in
       let pvals := weights paternal_indices maternal_indices i in
       let '((j, k), g) := multinomial_sample_2d pvals g in
       (pvals, upd paternal_indices i j, upd maternal_indices i k, g))
       (mfull (dim1 forward_probs) (dim2 forward_probs) 0,
        repeat 0%nat n, repeat 0%nat n, g))).
  { apply for_range_down_inv_idx.
    - simpl. rewrite !repeat_length. repeat split; intros; lia.
    - intros i0 [[[pv pidx] midx] g1] Hi0 (Lp & Lm & Hdraw & _). cbv zeta.
      destruct (multinomial_sample_2d (weights pidx midx i0) g1) as [[j k] g2] eqn:E.
      simpl. rewrite !length_upd. repeat split; try assumption.
      + intros i' Hlo Hhi. unfold weights.
        rewrite sampling_weights_upd by lia. fold weights.
        destruct (Nat.eq_dec i0 i') as [<-|Hne].
        * exists g1. rewrite !nth_upd_same by lia. rewrite E. reflexivity.
        * rewrite !nth_upd_other by exact Hne. apply Hdraw; lia.
      + intros _. unfold weights. rewrite sampling_weights_upd by lia. reflexivity. }
  destruct (for_range_down n _ _) as [[[pv pidx] midx] g1].
  destruct Inv as (Lp & Lm & Hdraw & Hpv).
  destruct (multinomial_sample_2d pv g1) as [[j k] g2] eqn:E.
  simpl. rewrite !length_upd. repeat split; try assumption.
  unfold weights in *. rewrite sampling_weights_upd by lia.
  destruct (Nat.eq_dec 0%nat i) as [<-|Hne].
  - exists g1. rewrite !nth_upd_same by lia. rewrite <- (Hpv Hi), E. reflexivity.
  - rewrite !nth_upd_other by exact Hne. apply Hdraw; lia.
Qed.

End SamplerFacts.

Lemma diploidOneSample_draws_witness :
  List.length
    (fst (fst (diploidOneSample (list (nat * nat)) replay two_forward half_rates
                 three_draws)))
  = dim0 two_forward
  /\ List.length
       (snd (fst (diploidOneSample (list (nat * nat)) replay two_forward half_rates
                    three_draws)))
     = dim0 two_forward
  /\ exists g0,
       (nth 1 (fst (fst (diploidOneSample (list (nat * nat)) replay two_forward
                           half_rates three_draws))) 0%nat,
        nth 1 (snd (fst (diploidOneSample (list (nat * nat)) replay two_forward
                           half_rates three_draws))) 0%nat)
       = fst (replay
                (sampling_weights two_forward half_rates
                   (fst (fst (diploidOneSample (list (nat * nat)) replay two_forward
                                half_rates three_draws)))
                   (snd (fst (diploidOneSample (list (nat * nat)) replay two_forward
                                half_rates three_draws))) 1) g0).
Proof.
  apply (diploidOneSample_draws (list (nat * nat)) replay two_forward half_rates
           three_draws 1).
  vm_compute. lia.
Defined.

(* ================================================================== *)
(** * Indices of sampled probabilities *)
(* ================================================================== *)

Lemma hot_test (x : Q) :
  negb (Qle_bool x (1 - float32_eps)) = true <-> 1 - float32_eps < x.
Proof.
  rewrite Bool.negb_true_iff. split.
  - intros H. destruct (Qlt_le_dec (1 - float32_eps) x) as [Hlt|Hle]; [exact Hlt|].
    apply Qle_bool_iff in Hle. congruence.
  - intros H. destruct (Qle_bool x (1 - float32_eps)) eqn:E; [|reflexivity].
    apply Qle_bool_iff in E. lra.
Qed.

(** The loops of one locus [i0] write index [i0] of both arrays only. *)
Lemma diploidIndices_other_locus (sp : tensor) (n_pat n_mat i0 i : nat)
    (st : list nat * list nat) :
  i <> i0 ->
  let st' :=
    for_range n_pat (fun j st =>
      for_range n_mat (fun k (st : list nat * list nat) =>
        if negb (Qle_bool (tget sp i0 j k) (1 - float32_eps))
        then (upd (fst st) i0 j, upd (snd st) i0 k)
        else st) st) st in
  List.length (fst st') = List.length (fst st)
  /\ List.length (snd st') = List.length (snd st)
  /\ nth i (fst st') 0%nat = nth i (fst st) 0%nat
  /\ nth i (snd st') 0%nat = nth i (snd st) 0%nat.
Proof.
  intros Hne st'. subst st'.
  apply (for_range_inv (fun _ (s : list nat * list nat) =>
    List.length (fst s) = List.length (fst st)
    /\ List.length (snd s) = List.length (snd st)
    /\ nth i (fst s) 0%nat = nth i (fst st) 0%nat
    /\ nth i (snd s) 0%nat = nth i (snd st) 0%nat)).
  - repeat split.
  - intros j s1 _ H1.
    apply (for_range_inv (fun _ (s : list nat * list nat) =>
      List.length (fst s) = List.length (fst st)
      /\ List.length (snd s) = List.length (snd st)
      /\ nth i (fst s) 0%nat = nth i (fst st) 0%nat
      /\ nth i (snd s) 0%nat = nth i (snd st) 0%nat)).
    + exact H1.
    + intros k s2 _ (L1 & L2 & N1 & N2).
      destruct (negb _); [|repeat split; assumption].
      simpl. rewrite !length_upd, !nth_upd_other by congruence.
      repeat split; assumption.
Qed.

(** The loops of locus [i] leave the indices of the only cell that passes
    the test. *)
Lemma diploidIndices_hot_locus (sp : tensor) (n_pat n_mat i j0 k0 : nat)
    (st : list nat * list nat) :
  (i < List.length (fst st))%nat -> (i < List.length (snd st))%nat ->
  (j0 < n_pat)%nat -> (k0 < n_mat)%nat ->
  1 - float32_eps < tget sp i j0 k0 ->
  (forall j k, (j < n_pat)%nat -> (k < n_mat)%nat -> j <> j0 \/ k <> k0 ->
     tget sp i j k <= 1 - float32_eps) ->
  let st' :=
    for_range n_pat (fun j st =>
      for_range n_mat (fun k (st : list nat * list nat) =>
        if negb (Qle_bool (tget sp i j k) (1 - float32_eps))
        then (upd (fst st) i j, upd (snd st) i k)
        else st) st) st in
  List.length (fst st') = List.length (fst st)
  /\ List.length (snd st') = List.length (snd st)
  /\ nth i (fst st') 0%nat = j0
  /\ nth i (snd st') 0%nat = k0.
Proof.
  intros L1 L2 Hj0 Hk0 Hhot Hcold st'.
  assert (Inv :
    List.length (fst st') = List.length (fst st)
    /\ List.length (snd st') = List.length (snd st)
    /\ ((j0 < n_pat)%nat ->
        nth i (fst st') 0%nat = j0 /\ nth i (snd st') 0%nat = k0)).
  { subst st'.
    apply (for_range_inv (fun j1 (s : list nat * list nat) =>
      List.length (fst s) = List.length (fst st)
      /\ List.length (snd s) = List.length (snd st)
      /\ ((j0 < j1)%nat ->
          nth i (fst s) 0%nat = j0 /\ nth i (snd s) 0%nat = k0))).
    - split; [reflexivity|]. split; [reflexivity|]. intros; lia.
    - intros j1 s1 Hj1 (A1 & A2 & A3).
      assert (Row :
        let s' :=
          for_range n_mat (fun k (st : list nat * list nat) =>
            if negb (Qle_bool (tget sp i j1 k) (1 - float32_eps))
            then (upd (fst st) i j1, upd (snd st) i k)
            else st) s1 in
        List.length (fst s') = List.length (fst st)
        /\ List.length (snd s') = List.length (snd st)
        /\ ((j0 < j1)%nat \/ (j0 = j1 /\ (k0 < n_mat)%nat) ->
            nth i (fst s') 0%nat = j0 /\ nth i (snd s') 0%nat = k0)).
      { cbv zeta.
        apply (for_range_inv (fun k1 (s : list nat * list nat) =>
          List.length (fst s) = List.length (fst st)
          /\ List.length (snd s) = List.length (snd st)
          /\ ((j0 < j1)%nat \/ (j0 = j1 /\ (k0 < k1)%nat) ->
              nth i (fst s) 0%nat = j0 /\ nth i (snd s) 0%nat = k0))).
        - split; [exact A1|]. split; [exact A2|].
          intros [H|[_ H]]; [apply A3; exact H | lia].
        - intros k1 s2 Hk1 (B1 & B2 & B3).
          destruct (negb (Qle_bool (tget sp i j1 k1) (1 - float32_eps))) eqn:T.
          + apply hot_test in T.
            assert (j1 = j0 /\ k1 = k0) as [-> ->].
            { destruct (Nat.eq_dec j1 j0) as [Ej|Ej];
                destruct (Nat.eq_dec k1 k0) as [Ek|Ek]; try (split; assumption);
                exfalso;
                [ pose proof (Hcold j1 k1 Hj1 Hk1 (or_intror Ek))
                | pose proof (Hcold j1 k1 Hj1 Hk1 (or_introl Ej))
                | pose proof (Hcold j1 k1 Hj1 Hk1 (or_introl Ej)) ]; lra. }
            simpl. rewrite !length_upd.
            split; [exact B1|]. split; [exact B2|].
            intros _. split; apply nth_upd_same; lia.
          + split; [exact B1|]. split; [exact B2|].
            intros [H|[E H]]; [apply B3; left; exact H|].
            destruct (Nat.eq_dec k0 k1) as [Ek|Ek].
            * subst. exfalso.
              apply Bool.negb_false_iff, Qle_bool_iff in T. lra.
            * apply B3. right. split; [exact E | lia]. }
      cbv zeta in Row. destruct Row as (C1 & C2 & C3).
      split; [exact C1|]. split; [exact C2|].
      intros H. apply C3. destruct (Nat.eq_dec j0 j1) as [E|E].
      + right. split; [exact E | exact Hk0].
      + left. lia. }
  destruct Inv as (I1 & I2 & I3).
  split; [exact I1|]. split; [exact I2|]. apply I3. exact Hj0.
Qed.

(** X27 (diploidIndices, lines 440-459): at a locus where exactly one cell
    of the sampled probabilities exceeds [1 - eps], as it does when all the
    mass of the locus is on one hypothesis pair, the two returned arrays hold
    the paternal and the maternal index of that cell. *)
Theorem diploidIndices_hot_cell (sampled_probs : tensor) (n_loci n_pat n_mat : nat)
    (i j0 k0 : nat) :
  has_shape sampled_probs n_loci n_pat n_mat = true ->
  (i < n_loci)%nat -> (j0 < n_pat)%nat -> (k0 < n_mat)%nat ->
  1 - float32_eps < tget sampled_probs i j0 k0 ->
  (forall j k, (j < n_pat)%nat -> (k < n_mat)%nat -> j <> j0 \/ k <> k0 ->
     tget sampled_probs i j k <= 1 - float32_eps) ->
  nth i (fst (diploidIndices sampled_probs)) 0%nat = j0
  /\ nth i (snd (diploidIndices sampled_probs)) 0%nat = k0.
Proof.
  intros Hshape Hi Hj0 Hk0 Hhot Hcold. apply has_shape_tshape in Hshape.
  unfold diploidIndices. cbv zeta.
  destruct (tshape_dims _ _ _ _ Hshape ltac:(lia) ltac:(lia)) as (-> & -> & ->).
  assert (Inv :
    let st :=
      for_range n_loci (fun i st =>
        for_range n_pat (fun j st =>
          for_range n_mat (fun k (st : list nat * list nat) =>
            if negb (Qle_bool (tget sampled_probs i j k) (1 - float32_eps))
            then (upd (fst st) i j, upd (snd st) i k)
            else st) st) st)
        (repeat 0%nat n_loci, repeat 0%nat n_loci) in
    List.length (fst st) = n_loci /\ List.length (snd st) = n_loci
    /\ ((i < n_loci)%nat ->
        nth i (fst st) 0%nat = j0 /\ nth i (snd st) 0%nat = k0)).
  { cbv zeta.
    apply (for_range_inv (fun i0 (st : list nat * list nat) =>
      List.length (fst st) = n_loci /\ List.length (snd st) = n_loci
      /\ ((i < i0)%nat ->
          nth i (fst st) 0%nat = j0 /\ nth i (snd st) 0%nat = k0))).
    - simpl. rewrite !repeat_length.
      split; [reflexivity|]. split; [reflexivity|]. intros; lia.
    - intros i0 st Hi0 (L1 & L2 & Hdone).
      destruct (Nat.eq_dec i i0) as [<-|Hne].
      + pose proof (diploidIndices_hot_locus sampled_probs n_pat n_mat i j0 k0 st
                      ltac:(lia) ltac:(lia) Hj0 Hk0 Hhot Hcold) as R.
        cbv zeta in R. destruct R as (R1 & R2 & R3 & R4).
        split; [congruence|]. split; [congruence|].
        intros _. split; assumption.
      + pose proof (diploidIndices_other_locus sampled_probs n_pat n_mat i0 i st Hne)
          as R.
        cbv zeta in R. destruct R as (R1 & R2 & R3 & R4).
        split; [congruence|]. split; [congruence|].
        intros Hlt. destruct Hdone as [D1 D2]; [lia|].
        split; congruence. }
  cbv zeta in Inv. destruct Inv as (_ & _ & Hdone). apply Hdone. exact Hi.
Qed.

Lemma diploidIndices_hot_cell_witness :
  nth 1 (fst (diploidIndices one_hot_probs)) 0%nat = 0%nat
  /\ nth 1 (snd (diploidIndices one_hot_probs)) 0%nat = 1%nat.
Proof.
  apply (diploidIndices_hot_cell one_hot_probs 2 2 2 1 0 1);
    try reflexivity; try lia.
  intros j k Hj Hk Hne.
  destruct j as [|[|j]]; try lia; destruct k as [|[|k]]; try lia;
    try (vm_compute; discriminate); lia.
Defined.

(* ================================================================== *)
(** * Further properties of the entry point *)
(* ================================================================== *)


